(** * compgraph: computational graphs over streams of rows

    A shallow embedding of [compgraph/operations.py] and [compgraph/graph.py]
    and the properties of the operators stated in the specification.

    Rows are Python dicts: insertion-ordered finite maps from field names to
    values.  They are embedded as association lists without duplicate keys,
    because [TopN] compares the item lists of rows and because [Joiner.get_ans]
    builds its answer by successive updates whose order is observable. *)

From Stdlib Require Import ZArith List String Ascii Bool Lia Arith.
From Stdlib Require Import Permutation Sorted.
From Stdlib Require Import Floats.SpecFloat.
Import ListNotations.

Local Open Scope string_scope.
Local Open Scope list_scope.
Local Open Scope Z_scope.

(** ** Values, exceptions *)

(** The values a field holds: Python [int], [float] (IEEE 754 binary64, as
    the Standard Library's [spec_float]) and [str].  The other values rows
    hold in the examples (booleans, coordinate pairs, lists) play no part in
    the operators embedded here. *)
Inductive value : Type :=
| VInt (z : Z)
| VFloat (f : spec_float)
| VStr (s : string).

(** The exceptions the embedded code raises.  [ConfigError] is the error class
    the specification names; no path of the source raises it.
    [InternalError] stands for the use of a reference to no object, which no
    run from a store that holds the rows of its sources performs. *)
Inductive exn : Type :=
| KeyError (k : string)
| TypeError
| AttributeError
| IndexError
| InternalError
| ConfigError.

Inductive result (A : Type) : Type :=
| Ok (a : A)
| Raise (e : exn).

Arguments Ok {A} a.
Arguments Raise {A} e.

Definition bind {A B : Type} (m : result A) (k : A -> result B) : result B :=
  match m with
  | Ok a => k a
  | Raise e => Raise e
  end.

Notation "x <- m ;; k" := (bind m (fun x => k))
  (at level 61, m at next level, right associativity).

Definition of_option {A : Type} (o : option A) (e : exn) : result A :=
  match o with
  | Some a => Ok a
  | None => Raise e
  end.

(** [map] of a fallible function over a list, left to right, stopping at the
    first exception. *)
Fixpoint mapM {A B : Type} (f : A -> result B) (l : list A) : result (list B) :=
  match l with
  | [] => Ok []
  | a :: l' =>
      b <- f a ;;
      bs <- mapM f l' ;;
      Ok (b :: bs)
  end.

(** ** Rows: insertion-ordered dicts *)

Definition TRow : Type := list (string * value).

(** [row[k]] as a lookup; [None] is Python's [KeyError]. *)
Fixpoint dict_get (k : string) (row : TRow) : option value :=
  match row with
  | [] => None
  | (k', v) :: row' => if String.eqb k k' then Some v else dict_get k row'
  end.

(** [k in row] *)
Definition dict_in (k : string) (row : TRow) : bool :=
  match dict_get k row with
  | Some _ => true
  | None => false
  end.

(** [row[k] = v]: an existing key keeps its position, a new key goes last. *)
Fixpoint dict_set (k : string) (v : value) (row : TRow) : TRow :=
  match row with
  | [] => [(k, v)]
  | (k', v') :: row' =>
      if String.eqb k k' then (k', v) :: row' else (k', v') :: dict_set k v row'
  end.

(** [del row[k]] on a row that holds [k]. *)
Fixpoint dict_del (k : string) (row : TRow) : TRow :=
  match row with
  | [] => []
  | (k', v') :: row' =>
      if String.eqb k k' then row' else (k', v') :: dict_del k row'
  end.

(** [d.update(items)] *)
Definition dict_update (d : TRow) (items : list (string * value)) : TRow :=
  fold_left (fun acc kv => dict_set (fst kv) (snd kv) acc) items d.

(** [{k: v for k, v in items}] *)
Definition dict_of_items (items : list (string * value)) : TRow :=
  dict_update [] items.

(** [row[k]] raising [KeyError]. *)
Definition getitem (row : TRow) (k : string) : result value :=
  of_option (dict_get k row) (KeyError k).

(** A well-formed dict has no duplicate keys. *)
Definition dict_wf (row : TRow) : Prop := NoDup (map fst row).

(** ** Arithmetic on values *)

(** Unary minus. *)
Definition py_neg (v : value) : result value :=
  match v with
  | VInt z => Ok (VInt (- z))
  | VFloat f => Ok (VFloat (SFopp f))
  | VStr _ => Raise TypeError
  end.

Definition is_numeric (v : value) : Prop :=
  match v with
  | VInt _ | VFloat _ => True
  | VStr _ => False
  end.

(** ** Comparison of values

    [==] never raises on these values; [<] raises [TypeError] between a
    string and a number.  An [int] and a [float] are compared exactly, as
    CPython does.  Strings are compared by code unit.  (The identity shortcut
    that makes a NaN object equal to itself inside a list is not modelled.) *)

(** The order of an integer and a float; [None] when the float is a NaN. *)
Definition Zfloat_compare (z : Z) (f : spec_float) : option comparison :=
  match f with
  | S754_zero _ => Some (z ?= 0)
  | S754_infinity s => Some (if s then Gt else Lt)
  | S754_nan => None
  | S754_finite s m e =>
      let v := if s then Z.neg m else Z.pos m in
      if 0 <=? e then Some (z ?= v * 2 ^ e) else Some (z * 2 ^ (- e) ?= v)
  end.

Definition py_eq (a b : value) : bool :=
  match a, b with
  | VInt x, VInt y => x =? y
  | VFloat f, VFloat g => SFeqb f g
  | VInt x, VFloat g =>
      match Zfloat_compare x g with Some Eq => true | _ => false end
  | VFloat f, VInt y =>
      match Zfloat_compare y f with Some Eq => true | _ => false end
  | VStr s, VStr t => String.eqb s t
  | _, _ => false
  end.

Definition py_lt (a b : value) : result bool :=
  match a, b with
  | VInt x, VInt y => Ok (x <? y)
  | VFloat f, VFloat g => Ok (SFltb f g)
  | VInt x, VFloat g =>
      Ok match Zfloat_compare x g with Some Lt => true | _ => false end
  | VFloat f, VInt y =>
      Ok match Zfloat_compare y f with Some Gt => true | _ => false end
  | VStr s, VStr t => Ok (String.ltb s t)
  | _, _ => Raise TypeError
  end.

(** [==] and [<] of two lists, element by element: the first position where
    the elements are not [==] decides, else the lengths do. *)
Section ListCompare.
Context {A : Type}.
Variable eqA : A -> A -> bool.
Variable ltA : A -> A -> result bool.

Fixpoint list_eq (l1 l2 : list A) : bool :=
  match l1, l2 with
  | [], [] => true
  | x :: l1', y :: l2' => eqA x y && list_eq l1' l2'
  | _, _ => false
  end.

Fixpoint list_lt (l1 l2 : list A) : result bool :=
  match l1, l2 with
  | [], [] => Ok false
  | [], _ :: _ => Ok true
  | _ :: _, [] => Ok false
  | x :: l1', y :: l2' => if eqA x y then list_lt l1' l2' else ltA x y
  end.
End ListCompare.

(** A key value: [[row[key] for key in self.keys]]. *)
Definition TKey : Type := list value.

Definition key_eq : TKey -> TKey -> bool := list_eq py_eq.
Definition key_lt : TKey -> TKey -> result bool := list_lt py_eq py_lt.

(** [lambda row: [row[key] for key in keys]] *)
Definition key_of (keys : list string) (row : TRow) : result TKey :=
  mapM (getitem row) keys.

(** ** itertools.groupby

    [groupby_from tgtkey rows] splits [rows] into the rows that continue the
    group whose key is [tgtkey] and the later groups; every row's key is
    compared with the key of the first row of its group.  The groups are
    embedded as lists: a consumer that leaves a group early makes [groupby]
    skip the rest of it, which reads the same rows.  The key function is
    applied to all rows before the groups are used, so of the exceptions of
    one run the embedding reports that of the key function first. *)
Section GroupBy.
Variable keyf : TRow -> result TKey.

Fixpoint groupby_from (tgtkey : TKey) (rows : list TRow)
  : result (list TRow * list (TKey * list TRow)) :=
  match rows with
  | [] => Ok ([], [])
  | row :: rows' =>
      currkey <- keyf row ;;
      if key_eq tgtkey currkey then
        r <- groupby_from tgtkey rows' ;;
        Ok (row :: fst r, snd r)
      else
        r <- groupby_from currkey rows' ;;
        Ok ([], (currkey, row :: fst r) :: snd r)
  end.

Definition groupby (rows : list TRow) : result (list (TKey * list TRow)) :=
  match rows with
  | [] => Ok []
  | row :: rows' =>
      currkey <- keyf row ;;
      r <- groupby_from currkey rows' ;;
      Ok ((currkey, row :: fst r) :: snd r)
  end.
End GroupBy.

(** ** Mappers (value level)

    A mapper call is embedded as the list of rows it yields, or the exception
    it raises.  Mappers that assign to [row[col]] and yield [row] return the
    updated row. *)

(** [DummyMapper.__call__] *)
Definition DummyMapper_call (row : TRow) : result (list TRow) :=
  Ok [row].

(** The assignment of [Inverse.__call__]:
    [row[self.column_to_inverse] = -row[self.column_to_inverse]] *)
Definition Inverse_row (column_to_inverse : string) (row : TRow)
  : result TRow :=
  v <- getitem row column_to_inverse ;;
  nv <- py_neg v ;;
  Ok (dict_set column_to_inverse nv row).

(** [Inverse.__call__]: the assignment, then [yield row]. *)
Definition Inverse_call (column_to_inverse : string) (row : TRow)
  : result (list TRow) :=
  row' <- Inverse_row column_to_inverse row ;;
  Ok [row'].

(** [{key: value for key, value in row.items() if key in self.columns}] *)
Definition Project_row (columns : list string) (row : TRow) : TRow :=
  dict_of_items (filter (fun kv => existsb (String.eqb (fst kv)) columns) row).

(** [Project.__call__] *)
Definition Project_call (columns : list string) (row : TRow)
  : result (list TRow) :=
  Ok [Project_row columns row].

(** [Filter.__call__] *)
Definition Filter_call (condition : TRow -> result bool) (row : TRow)
  : result (list TRow) :=
  c <- condition row ;;
  Ok (if c then [row] else []).

(** [Map.__call__]: every row each mapper call yields, in order. *)
Fixpoint Map_call (mapper : TRow -> result (list TRow)) (rows : list TRow)
  : result (list TRow) :=
  match rows with
  | [] => Ok []
  | row :: rows' =>
      res <- mapper row ;;
      rest <- Map_call mapper rows' ;;
      Ok (res ++ rest)
  end.

(** ** Basic facts on dicts *)

Lemma dict_get_set_same (k : string) (v : value) (row : TRow) :
  dict_get k (dict_set k v row) = Some v.
Proof.
  induction row as [|[k' v'] row IH]; simpl.
  - now rewrite String.eqb_refl.
  - destruct (String.eqb k k') eqn:E; simpl; rewrite E; auto.
Qed.

Lemma dict_get_set_other (k k' : string) (v : value) (row : TRow) :
  k <> k' -> dict_get k' (dict_set k v row) = dict_get k' row.
Proof.
  intros Hne. induction row as [|[k0 v0] row IH]; simpl.
  - destruct (String.eqb k' k) eqn:E; auto.
    apply String.eqb_eq in E. congruence.
  - destruct (String.eqb k k0) eqn:E; simpl.
    + apply String.eqb_eq in E. subst k0.
      destruct (String.eqb k' k) eqn:E'; auto.
      apply String.eqb_eq in E'. congruence.
    + now rewrite IH.
Qed.

Lemma dict_set_set (k : string) (v w : value) (row : TRow) :
  dict_set k w (dict_set k v row) = dict_set k w row.
Proof.
  induction row as [|[k' v'] row IH]; simpl.
  - now rewrite String.eqb_refl.
  - destruct (String.eqb k k') eqn:E; simpl; rewrite E; congruence.
Qed.

Lemma dict_set_get_id (k : string) (v : value) (row : TRow) :
  dict_get k row = Some v -> dict_set k v row = row.
Proof.
  induction row as [|[k' v'] row IH]; simpl; [discriminate|].
  destruct (String.eqb k k') eqn:E.
  - intros [= ->]. reflexivity.
  - intros H. now rewrite IH.
Qed.

Lemma SFopp_involutive (f : spec_float) : SFopp (SFopp f) = f.
Proof.
  destruct f; simpl; try reflexivity; now rewrite negb_involutive.
Qed.

Lemma py_neg_involutive (v w : value) :
  py_neg v = Ok w -> py_neg w = Ok v.
Proof.
  destruct v; simpl; intros [= <-]; simpl.
  - now rewrite Z.opp_involutive.
  - now rewrite SFopp_involutive.
Qed.

(** ** Inverse *)

(** C9. On a row whose column [col] holds a numeric value, [Inverse(col)]
    yields exactly one row, and applying [Inverse(col)] to that row yields
    exactly one row whose [col] value is the original value; the row as a
    whole is the original row. *)
Theorem Inverse_twice_identity (col : string) (row : TRow) (v : value) :
  dict_get col row = Some v ->
  is_numeric v ->
  exists row1 row2,
    Inverse_call col row = Ok [row1] /\
    Inverse_call col row1 = Ok [row2] /\
    dict_get col row2 = Some v /\
    row2 = row.
Proof.
  intros Hget Hnum.
  destruct (py_neg v) as [nv|e] eqn:Hneg.
  2:{ destruct v; simpl in *; try discriminate; contradiction. }
  exists (dict_set col nv row), row.
  unfold Inverse_call, Inverse_row, getitem.
  rewrite dict_get_set_same, Hget. simpl. rewrite Hneg. simpl.
  rewrite (py_neg_involutive _ _ Hneg). simpl.
  rewrite dict_set_set, (dict_set_get_id _ _ _ Hget).
  repeat split; reflexivity.
Qed.

Lemma Inverse_twice_identity_witness :
  exists row1 row2,
    Inverse_call "pmi" [("doc_id", VInt 1); ("pmi", VInt 7)] = Ok [row1] /\
    Inverse_call "pmi" row1 = Ok [row2] /\
    dict_get "pmi" row2 = Some (VInt 7) /\
    row2 = [("doc_id", VInt 1); ("pmi", VInt 7)].
Proof.
  apply (Inverse_twice_identity "pmi" [("doc_id", VInt 1); ("pmi", VInt 7)]
           (VInt 7)).
  - reflexivity.
  - exact I.
Defined.

(** ** Reduce *)

Definition Reducer : Type := list string -> list TRow -> result (list TRow).

(** [Reduce.__call__]: [groupby] on the key values, one reducer call per
    group, every row of every call forwarded. *)
Definition Reduce_call (reducer : Reducer) (keys : list string)
  (rows : list TRow) : result (list TRow) :=
  gs <- groupby (key_of keys) rows ;;
  outs <- mapM (fun kg => reducer keys (snd kg)) gs ;;
  Ok (List.concat outs).

(** [FirstReducer.__call__] *)
Definition FirstReducer_call (group_key : list string) (rows : list TRow)
  : result (list TRow) :=
  match rows with
  | [] => Ok []
  | row :: _ => Ok [row]
  end.

(** [Count.__call__]: the key fields are taken from the first row that makes
    [ans] non-empty (with no key field, [ans] stays empty and the loop just
    counts). *)
Definition Count_call (column : string) (group_key : list string)
  (rows : list TRow) : result (list TRow) :=
  ans <- fold_left
           (fun acc row =>
              ans <- acc ;;
              match ans with
              | [] =>
                  fold_left
                    (fun a key => d <- a ;; v <- getitem row key ;;
                                  Ok (dict_set key v d))
                    group_key (Ok [])
              | _ :: _ => Ok ans
              end)
           rows (Ok []) ;;
  Ok [dict_set column (VInt (Z.of_nat (List.length rows))) ans].

(** The example of the docstring of [Count]. *)
Example Count_docstring :
  Reduce_call (Count_call "d") ["a"]
    [[("a", VInt 1); ("b", VInt 5); ("c", VInt 2)];
     [("a", VInt 1); ("b", VInt 6); ("c", VInt 1)]] =
  Ok [[("a", VInt 1); ("d", VInt 2)]].
Proof. reflexivity. Qed.

(** Two rows have the same key value. *)
Definition same_key (keys : list string) (r1 r2 : TRow) : Prop :=
  exists k1 k2,
    key_of keys r1 = Ok k1 /\ key_of keys r2 = Ok k2 /\ key_eq k1 k2 = true.

(** [maximal_runs keys rows runs]: [runs] cuts [rows] into non-empty runs of
    adjacent rows that have the key value of the run's first row, and a run
    ends only at the end of the stream or before a row with another key
    value. *)
Inductive maximal_runs (keys : list string)
  : list TRow -> list (list TRow) -> Prop :=
| runs_nil : maximal_runs keys [] []
| runs_cons (r : TRow) (g rest : list TRow) (runs : list (list TRow)) :
    Forall (same_key keys r) g ->
    match rest with
    | [] => True
    | r' :: _ => ~ same_key keys r r'
    end ->
    maximal_runs keys rest runs ->
    maximal_runs keys (r :: g ++ rest) ((r :: g) :: runs).

Definition has_key (keys : list string) (row : TRow) : Prop :=
  exists k, key_of keys row = Ok k.

Lemma groupby_from_runs (keys : list string) (rows : list TRow) :
  Forall (has_key keys) rows ->
  forall (r0 : TRow) (k0 : TKey),
    key_of keys r0 = Ok k0 ->
    exists g gs,
      groupby_from (key_of keys) k0 rows = Ok (g, gs) /\
      rows = g ++ List.concat (map snd gs) /\
      Forall (same_key keys r0) g /\
      match List.concat (map snd gs) with
      | [] => True
      | r' :: _ => ~ same_key keys r0 r'
      end /\
      maximal_runs keys (List.concat (map snd gs)) (map snd gs).
Proof.
  induction 1 as [|row rows [k Hk] Hall IH]; intros r0 k0 Hk0.
  - exists [], []. simpl. repeat split; constructor.
  - simpl. rewrite Hk. simpl.
    destruct (key_eq k0 k) eqn:E.
    + destruct (IH r0 k0 Hk0) as (g & gs & Hg & Hrows & Hsame & Hnext & Hruns).
      exists (row :: g), gs. rewrite Hg. simpl.
      repeat split; auto.
      * now rewrite Hrows at 1.
      * constructor; auto. exists k0, k. auto.
    + destruct (IH row k Hk) as (g & gs & Hg & Hrows & Hsame & Hnext & Hruns).
      exists [], ((k, row :: g) :: gs). rewrite Hg. simpl.
      repeat split; auto.
      * now rewrite Hrows at 1.
      * intros (k1 & k2 & H1 & H2 & H3).
        rewrite Hk0 in H1. rewrite Hk in H2.
        injection H1 as <-. injection H2 as <-. congruence.
      * now constructor.
Qed.

Lemma groupby_runs (keys : list string) (rows : list TRow) :
  Forall (has_key keys) rows ->
  exists gs,
    groupby (key_of keys) rows = Ok gs /\
    maximal_runs keys rows (map snd gs).
Proof.
  intros Hall. destruct Hall as [|row rows [k Hk] Hall].
  - exists []. split; [reflexivity|constructor].
  - destruct (groupby_from_runs keys rows Hall row k Hk)
      as (g & gs & Hg & Hrows & Hsame & Hnext & Hruns).
    exists ((k, row :: g) :: gs). simpl. rewrite Hk. simpl. rewrite Hg. simpl.
    split; [reflexivity|]. rewrite Hrows at 1. now constructor.
Qed.

Lemma mapM_map {A B C : Type} (f : B -> result C) (h : A -> B) (l : list A) :
  mapM (fun a => f (h a)) l = mapM f (map h l).
Proof.
  induction l as [|a l IH]; simpl; [reflexivity|].
  now rewrite IH.
Qed.

Lemma maximal_runs_concat (keys : list string) (rows : list TRow)
  (runs : list (list TRow)) :
  maximal_runs keys rows runs -> List.concat runs = rows.
Proof.
  induction 1 as [|r g rest runs _ _ _ IH]; simpl; [reflexivity|].
  now rewrite IH.
Qed.

(** No key value is a NaN.  Inside a list, [==] of CPython takes two
    references to one object for equal before it asks [==] of the values, and
    a NaN is the one value here that is not [==] to itself: on keys without a
    NaN the two agree, whatever objects the rows share. *)
Definition is_nan (v : value) : bool :=
  match v with
  | VFloat S754_nan => true
  | _ => false
  end.

Definition nan_free_key (keys : list string) (row : TRow) : Prop :=
  exists k, key_of keys row = Ok k /\ existsb is_nan k = false.

Lemma nan_free_has_key (keys : list string) (rows : list TRow) :
  Forall (nan_free_key keys) rows -> Forall (has_key keys) rows.
Proof.
  apply Forall_impl. intros row (k & Hk & _). now exists k.
Qed.

(** C7. On a stream whose rows all hold the key fields, with no NaN among
    the key values, [Reduce] cuts the stream into its maximal runs of
    adjacent rows with equal key values; for every reducer its output is the
    reducer's outputs on exactly these runs (each called once, with the key
    names and the run's rows), concatenated in order. *)
Theorem Reduce_maximal_runs (keys : list string) (rows : list TRow) :
  Forall (nan_free_key keys) rows ->
  exists runs,
    maximal_runs keys rows runs /\
    List.concat runs = rows /\
    forall reducer : Reducer,
      Reduce_call reducer keys rows =
        (outs <- mapM (reducer keys) runs ;; Ok (List.concat outs)).
Proof.
  intros Hnan. pose proof (nan_free_has_key keys rows Hnan) as Hall.
  destruct (groupby_runs keys rows Hall) as (gs & Hg & Hruns).
  exists (map snd gs). split; [assumption|]. split.
  - now apply maximal_runs_concat with (keys := keys).
  - intros reducer. unfold Reduce_call. rewrite Hg. simpl.
    now rewrite (mapM_map (reducer keys) snd gs).
Qed.

Lemma Reduce_maximal_runs_witness :
  exists runs,
    maximal_runs ["text"]
      [[("text", VStr "a")]; [("text", VStr "a")]; [("text", VStr "b")]] runs /\
    List.concat runs =
      [[("text", VStr "a")]; [("text", VStr "a")]; [("text", VStr "b")]] /\
    forall reducer : Reducer,
      Reduce_call reducer ["text"]
        [[("text", VStr "a")]; [("text", VStr "a")]; [("text", VStr "b")]] =
        (outs <- mapM (reducer ["text"]) runs ;; Ok (List.concat outs)).
Proof.
  apply (Reduce_maximal_runs ["text"]
           [[("text", VStr "a")]; [("text", VStr "a")]; [("text", VStr "b")]]).
  repeat constructor; eexists; split; reflexivity.
Defined.

Lemma groupby_from_empty_keys (rows : list TRow) :
  groupby_from (key_of []) [] rows = Ok (rows, []).
Proof.
  induction rows as [|row rows IH]; simpl; [reflexivity|].
  now rewrite IH.
Qed.

(** C10. With an empty key sequence every row has the key value [[]], so
    [groupby] raises nothing and puts a non-empty stream into one group and
    an empty stream into none: the reducer is called once on the whole
    non-empty stream, and not at all on the empty stream. *)
Theorem Reduce_empty_keys (reducer : Reducer) (rows : list TRow) :
  groupby (key_of []) rows =
    Ok (match rows with [] => [] | _ :: _ => [([], rows)] end) /\
  Reduce_call reducer [] rows =
    match rows with
    | [] => Ok []
    | _ :: _ => reducer [] rows
    end.
Proof.
  unfold Reduce_call. destruct rows as [|row rows]; simpl.
  - split; reflexivity.
  - rewrite groupby_from_empty_keys. simpl. split; [reflexivity|].
    destruct (reducer [] (row :: rows)); simpl; [|reflexivity].
    now rewrite app_nil_r.
Qed.

(** ** Split *)

(** Python's whitespace among the ASCII characters: TAB, LF, VT, FF, CR,
    the separators FS, GS, RS, US, and the space.  Strings are sequences of
    bytes; the whitespace characters beyond ASCII are not modelled. *)
Definition is_space (c : ascii) : bool :=
  let n := nat_of_ascii c in
  ((9 <=? n) && (n <=? 13) || (28 <=? n) && (n <=? 31) || (n =? 32))%nat.

Definition flush (cur : string) (rest : list string) : list string :=
  match cur with
  | EmptyString => rest
  | String _ _ => cur :: rest
  end.

(** [s.split()]: the maximal runs of characters that are not whitespace. *)
Fixpoint split_ws_from (cur : string) (s : string) : list string :=
  match s with
  | EmptyString => flush cur []
  | String c s' =>
      if is_space c then flush cur (split_ws_from EmptyString s')
      else split_ws_from (cur ++ String c EmptyString) s'
  end.

Definition str_split_ws (s : string) : list string :=
  split_ws_from EmptyString s.

(** [s.split(sep)] for a non-empty [sep]: cut at every occurrence of [sep],
    scanning from the left, empty tokens kept.  [skip] counts the characters
    of a matched separator that are still to be dropped. *)
Fixpoint split_sep_from (sep : string) (skip : nat) (cur : string) (s : string)
  : list string :=
  match s with
  | EmptyString => [cur]
  | String c s' =>
      match skip with
      | S k => split_sep_from sep k cur s'
      | O =>
          if String.prefix sep s
          then cur :: split_sep_from sep (String.length sep - 1) EmptyString s'
          else split_sep_from sep O (cur ++ String c EmptyString) s'
      end
  end.

Definition str_split_sep (sep : string) (s : string) : list string :=
  split_sep_from sep O EmptyString s.

(** [Split.__call__]:
    [values = row[self.column].split()], then one copy of the row per value
    with the column set to it.  [self.separator] is stored by [__init__] and
    not read here. *)
Definition Split_call (column : string) (separator : option string)
  (row : TRow) : result (list TRow) :=
  v <- getitem row column ;;
  match v with
  | VStr s =>
      Ok (map (fun value => dict_set column (VStr value) row) (str_split_ws s))
  | _ => Raise AttributeError
  end.

(** What the specification says of [Split]: split on [sep] when it is given
    and on whitespace otherwise. *)
Definition Split_spec (column : string) (separator : option string)
  (row : TRow) : result (list TRow) :=
  v <- getitem row column ;;
  match v with
  | VStr s =>
      let values :=
        match separator with
        | None => str_split_ws s
        | Some sep => str_split_sep sep s
        end in
      Ok (map (fun value => dict_set column (VStr value) row) values)
  | _ => Raise AttributeError
  end.

Example str_split_ws_ex :
  str_split_ws "  hello   big world " = ["hello"; "big"; "world"].
Proof. reflexivity. Qed.

Example str_split_sep_ex :
  str_split_sep ", " "a, b,, c, " = ["a"; "b,"; "c"; ""].
Proof. reflexivity. Qed.

(** With no separator the source does what the specification says. *)
Lemma Split_call_no_separator (column : string) (row : TRow) :
  Split_call column None row = Split_spec column None row.
Proof. reflexivity. Qed.

(** C3. [Split("text", ",")] on the row [{"text": "a,b", "n": 1}] yields the
    row unchanged, as one whitespace token, where splitting on the separator
    gives the two rows for ["a"] and ["b"]. *)
Theorem Split_separator_ignored :
  Split_call "text" (Some ",") [("text", VStr "a,b"); ("n", VInt 1)] =
    Ok [[("text", VStr "a,b"); ("n", VInt 1)]] /\
  Split_spec "text" (Some ",") [("text", VStr "a,b"); ("n", VInt 1)] =
    Ok [[("text", VStr "a"); ("n", VInt 1)];
        [("text", VStr "b"); ("n", VInt 1)]].
Proof. split; reflexivity. Qed.

(** ** Joiners *)

Inductive joiner_class : Type :=
| InnerJoiner
| OuterJoiner
| LeftJoiner
| RightJoiner.

(** A joiner instance: its class and the two suffixes of [Joiner.__init__]. *)
Record Joiner : Type := mkJoiner {
  joiner_cls : joiner_class;
  _a_suffix : string;
  _b_suffix : string
}.

(** [Cls()] with the default suffixes ['_1'] and ['_2']. *)
Definition default_joiner (cls : joiner_class) : Joiner :=
  mkJoiner cls "_1" "_2".

Definition is_key (keys : list string) (key : string) : bool :=
  existsb (String.eqb key) keys.

(** [{key + suffix if key in other else key: value
      for key, value in row.items() if key not in keys}] *)
Definition suffixed_items (suffix : string) (keys : list string)
  (row other : TRow) : list (string * value) :=
  map (fun kv =>
         (if dict_in (fst kv) other then String.append (fst kv) suffix
          else fst kv, snd kv))
      (filter (fun kv => negb (is_key keys (fst kv))) row).

(** [Joiner.get_ans] *)
Definition get_ans (j : Joiner) (row_a row_b : TRow) (keys : list string)
  : result TRow :=
  kvs <- mapM (fun key => v <- getitem row_a key ;; Ok (key, v)) keys ;;
  let ans := dict_of_items kvs in
  let ans :=
    dict_update ans
      (dict_of_items (suffixed_items (_a_suffix j) keys row_a row_b)) in
  let ans :=
    dict_update ans
      (dict_of_items (suffixed_items (_b_suffix j) keys row_b row_a)) in
  Ok ans.

(** [for x in outer: for y in inner: yield f(x, y)] *)
Definition product {A : Type} (f : TRow -> TRow -> result A)
  (outer inner : list TRow) : result (list A) :=
  rs <- mapM (fun x => mapM (fun y => f x y) inner) outer ;;
  Ok (List.concat rs).

(** [self.joiner(keys, rows_a, rows_b)] for the four joiner classes. *)
Definition Joiner_call (j : Joiner) (keys : list string)
  (rows_a rows_b : list TRow) : result (list TRow) :=
  match joiner_cls j with
  | InnerJoiner =>
      product (fun row_a row_b => get_ans j row_a row_b keys) rows_a rows_b
  | OuterJoiner =>
      match rows_b, rows_a with
      | [], _ => Ok rows_a
      | _ :: _, [] => Ok rows_b
      | _ :: _, _ :: _ =>
          product (fun row_a row_b => get_ans j row_a row_b keys) rows_a rows_b
      end
  | LeftJoiner =>
      match rows_b with
      | [] => Ok rows_a
      | _ :: _ =>
          product (fun row_a row_b => get_ans j row_a row_b keys) rows_a rows_b
      end
  | RightJoiner =>
      match rows_a with
      | [] => Ok rows_b
      | _ :: _ =>
          product (fun row_b row_a => get_ans j row_a row_b keys) rows_b rows_a
      end
  end.

(** [isinstance(self.joiner, LeftJoiner | OuterJoiner)] *)
Definition emits_left (j : Joiner) : bool :=
  match joiner_cls j with
  | LeftJoiner | OuterJoiner => true
  | _ => false
  end.

(** [isinstance(self.joiner, RightJoiner | OuterJoiner)] *)
Definition emits_right (j : Joiner) : bool :=
  match joiner_cls j with
  | RightJoiner | OuterJoiner => true
  | _ => false
  end.

(** ** Join *)

Section JoinLoop.
Variable j : Joiner.
Variable keys : list string.

(** The unmatched group of the left side, and of the right side. *)
Definition left_only (group_a : list TRow) : result (list TRow) :=
  if emits_left j then Joiner_call j keys group_a [] else Ok [].

Definition right_only (group_b : list TRow) : result (list TRow) :=
  if emits_right j then Joiner_call j keys [] group_b else Ok [].

(** The last two loops of [Join.__call__]: one side is exhausted. *)
Fixpoint drain_a (gas : list (TKey * list TRow)) : result (list TRow) :=
  match gas with
  | [] => Ok []
  | (_, group_a) :: gas' =>
      out <- left_only group_a ;;
      rest <- drain_a gas' ;;
      Ok (out ++ rest)
  end.

Fixpoint drain_b (gbs : list (TKey * list TRow)) : result (list TRow) :=
  match gbs with
  | [] => Ok []
  | (_, group_b) :: gbs' =>
      out <- right_only group_b ;;
      rest <- drain_b gbs' ;;
      Ok (out ++ rest)
  end.

(** The three loops of [Join.__call__] on the groups of the two sides. *)
Fixpoint merge_groups (gas gbs : list (TKey * list TRow)) {struct gas}
  : result (list TRow) :=
  let fix merge_b (gbs : list (TKey * list TRow)) {struct gbs}
    : result (list TRow) :=
    match gas, gbs with
    | [], _ => drain_b gbs
    | _ :: _, [] => drain_a gas
    | (key_a, group_a) :: gas', (key_b, group_b) :: gbs' =>
        if key_eq key_a key_b then
          out <- Joiner_call j keys group_a group_b ;;
          rest <- merge_groups gas' gbs' ;;
          Ok (out ++ rest)
        else
          lt <- key_lt key_a key_b ;;
          if lt : bool then
            out <- left_only group_a ;;
            rest <- merge_groups gas' gbs ;;
            Ok (out ++ rest)
          else
            out <- right_only group_b ;;
            rest <- merge_b gbs' ;;
            Ok (out ++ rest)
    end
  in merge_b gbs.

(** [Join.__call__(rows, rows_b)] *)
Definition Join_call (rows_a rows_b : list TRow) : result (list TRow) :=
  gas <- groupby (key_of keys) rows_a ;;
  gbs <- groupby (key_of keys) rows_b ;;
  merge_groups gas gbs.
End JoinLoop.

Definition scenario_S3 :
  Join_call (default_joiner InnerJoiner) ["k"]
    [[("k", VInt 1); ("v", VStr "L")]] [[("k", VInt 1); ("v", VStr "R")]] =
  Ok [[("k", VInt 1); ("v_1", VStr "L"); ("v_2", VStr "R")]]
  := eq_refl.

Definition scenario_S4 :
  Join_call (default_joiner OuterJoiner) ["k"]
    [[("k", VInt 1)]; [("k", VInt 3)]] [[("k", VInt 2)]; [("k", VInt 3)]] =
  Ok [[("k", VInt 1)]; [("k", VInt 2)]; [("k", VInt 3)]]
  := eq_refl.

(** ** Ordered key domains

    [==] and [<] of Python are not a total order on all values: [<] raises
    between a string and a number.  The statements on sorted streams are made
    for key values of a domain [dom] on which [==] is equality and [<] is a
    strict total order that raises nothing. *)

Definition klt (x y : TKey) : Prop := key_lt x y = Ok true.

(** [x <= y] as the code tests it: [y < x] is false. *)
Definition kle (x y : TKey) : Prop := key_lt y x = Ok false.

Record key_order (dom : TKey -> Prop) : Prop := mk_key_order {
  ko_eq : forall x y, dom x -> dom y -> (key_eq x y = true <-> x = y);
  ko_defined : forall x y, dom x -> dom y -> exists b, key_lt x y = Ok b;
  ko_irrefl : forall x, dom x -> ~ klt x x;
  ko_trans : forall x y z, dom x -> dom y -> dom z ->
                           klt x y -> klt y z -> klt x z;
  ko_total : forall x y, dom x -> dom y -> x <> y -> klt x y \/ klt y x
}.

(** The key value of a row lies in the domain. *)
Definition keyed (dom : TKey -> Prop) (keys : list string) (row : TRow)
  : Prop :=
  exists k, key_of keys row = Ok k /\ dom k.

(** The rows are in ascending order of their key values: no row has a key
    value less than that of the row before it. *)
Definition row_le (keys : list string) (r1 r2 : TRow) : Prop :=
  exists k1 k2,
    key_of keys r1 = Ok k1 /\ key_of keys r2 = Ok k2 /\ kle k1 k2.

Definition sorted_by (keys : list string) (rows : list TRow) : Prop :=
  Sorted (row_le keys) rows.

(** The groups of a sorted stream: non-empty, all rows of a group with the
    group's key value, the key values ascending strictly. *)
Inductive asc_groups (dom : TKey -> Prop) (keys : list string)
  : list (TKey * list TRow) -> Prop :=
| asc_nil : asc_groups dom keys []
| asc_cons (k : TKey) (r : TRow) (g : list TRow)
    (gs : list (TKey * list TRow)) :
    dom k ->
    Forall (fun r' => key_of keys r' = Ok k) (r :: g) ->
    Forall (fun kg => klt k (fst kg)) gs ->
    asc_groups dom keys gs ->
    asc_groups dom keys ((k, r :: g) :: gs).

Section OrderedKeys.
Variable dom : TKey -> Prop.
Hypothesis Hord : key_order dom.
Variable keys : list string.

Lemma kle_lt_or_eq (x y : TKey) :
  dom x -> dom y -> kle x y -> x = y \/ klt x y.
Proof.
  intros Hx Hy Hle.
  destruct (key_eq x y) eqn:E.
  - left. now apply (ko_eq dom Hord).
  - right. destruct (ko_total dom Hord x y Hx Hy) as [H|H]; auto.
    + intros ->. rewrite (proj2 (ko_eq dom Hord y y Hy Hy) eq_refl) in E.
      discriminate.
    + unfold kle, klt in *. congruence.
Qed.

Lemma klt_not_eq (x y : TKey) : dom x -> klt x y -> x <> y.
Proof.
  intros Hx Hlt ->. exact (ko_irrefl dom Hord y Hx Hlt).
Qed.

Lemma klt_key_eq_false (x y : TKey) :
  dom x -> dom y -> klt x y -> key_eq x y = false.
Proof.
  intros Hx Hy Hlt. destruct (key_eq x y) eqn:E; [|reflexivity].
  apply (ko_eq dom Hord x y Hx Hy) in E.
  now apply klt_not_eq in Hlt.
Qed.

Lemma klt_asym (x y : TKey) : dom x -> dom y -> klt x y -> ~ klt y x.
Proof.
  intros Hx Hy H1 H2.
  exact (ko_irrefl dom Hord x Hx (ko_trans dom Hord x y x Hx Hy Hx H1 H2)).
Qed.

Lemma kle_refl (x : TKey) : dom x -> kle x x.
Proof.
  intros Hx. destruct (ko_defined dom Hord x x Hx Hx) as [[|] Hb].
  - now apply (ko_irrefl dom Hord) in Hb.
  - exact Hb.
Qed.

Lemma klt_kle (x y : TKey) : dom x -> dom y -> klt x y -> kle x y.
Proof.
  intros Hx Hy Hlt. destruct (ko_defined dom Hord y x Hy Hx) as [[|] Hb].
  - now apply (klt_asym x y) in Hb.
  - exact Hb.
Qed.

Lemma kle_trans (x y z : TKey) :
  dom x -> dom y -> dom z -> kle x y -> kle y z -> kle x z.
Proof.
  intros Hx Hy Hz H1 H2.
  destruct (kle_lt_or_eq x y Hx Hy H1) as [->|L1]; [assumption|].
  destruct (kle_lt_or_eq y z Hy Hz H2) as [<-|L2]; [assumption|].
  apply klt_kle; auto. now apply (ko_trans dom Hord x y z).
Qed.

Lemma klt_le_trans (x y z : TKey) :
  dom x -> dom y -> dom z -> klt x y -> kle y z -> klt x z.
Proof.
  intros Hx Hy Hz H1 H2.
  destruct (kle_lt_or_eq y z Hy Hz H2) as [<-|L2]; [assumption|].
  now apply (ko_trans dom Hord x y z).
Qed.

(** A sorted stream of keyed rows is sorted between any two positions. *)
Lemma sorted_by_strong (rows : list TRow) :
  Forall (keyed dom keys) rows ->
  sorted_by keys rows ->
  StronglySorted (row_le keys) rows.
Proof.
  intros Hall Hs. induction Hs as [|r rows Hs IH Hhd]; [constructor|].
  inversion Hall as [|? ? Hr Hrows]; subst.
  constructor; [now apply IH|].
  specialize (IH Hrows).
  destruct Hhd as [|r1 rows1 H1]; [constructor|].
  constructor; [assumption|].
  inversion IH as [|? ? _ Hall1]; subst.
  inversion Hrows as [|? ? Hr1 Hrows1]; subst.
  rewrite Forall_forall in *. intros r2 Hin.
  specialize (Hall1 r2 Hin).
  destruct H1 as (k & k1 & Hk & Hk1 & Hle1).
  destruct Hall1 as (k1' & k2 & Hk1' & Hk2 & Hle2).
  rewrite Hk1 in Hk1'. injection Hk1' as <-.
  exists k, k2. repeat split; auto.
  destruct Hr as (k' & Hk' & Hd). rewrite Hk in Hk'. injection Hk' as <-.
  destruct Hr1 as (k1' & Hk1' & Hd1). rewrite Hk1 in Hk1'. injection Hk1' as <-.
  destruct (Hrows1 r2 Hin) as (k2' & Hk2' & Hd2).
  rewrite Hk2 in Hk2'. injection Hk2' as <-.
  now apply (kle_trans k k1 k2).
Qed.
End OrderedKeys.

Section SortedStreams.
Variable dom : TKey -> Prop.
Hypothesis Hord : key_order dom.
Variable keys : list string.

Lemma groupby_from_sorted (rows : list TRow) :
  Forall (keyed dom keys) rows ->
  StronglySorted (row_le keys) rows ->
  forall k0 : TKey,
    dom k0 ->
    Forall (fun r => exists k, key_of keys r = Ok k /\ kle k0 k) rows ->
    exists g gs,
      groupby_from (key_of keys) k0 rows = Ok (g, gs) /\
      rows = g ++ List.concat (map snd gs) /\
      Forall (fun r => key_of keys r = Ok k0) g /\
      Forall (fun kg => klt k0 (fst kg)) gs /\
      asc_groups dom keys gs.
Proof.
  induction rows as [|row rows IH]; intros Hall Hs k0 Hd0 Hge.
  - exists [], []. simpl. repeat split; constructor.
  - inversion Hall as [|? ? (k & Hk & Hd) Hall']; subst.
    inversion Hs as [|? ? Hs' Hrow]; subst.
    inversion Hge as [|? ? (k' & Hk' & Hle) Hge']; subst.
    rewrite Hk in Hk'. injection Hk' as <-.
    simpl. rewrite Hk. simpl.
    destruct (key_eq k0 k) eqn:E.
    + apply (ko_eq dom Hord k0 k Hd0 Hd) in E. subst k.
      destruct (IH Hall' Hs' k0 Hd0 Hge') as (g & gs & Hg & Hrows & Hsame & Hlt & Hasc).
      exists (row :: g), gs. rewrite Hg. simpl.
      repeat split; auto.
      now rewrite Hrows at 1.
    + assert (Hlt0 : klt k0 k).
      { destruct (kle_lt_or_eq dom Hord k0 k Hd0 Hd Hle) as [->|H]; auto.
        rewrite (proj2 (ko_eq dom Hord k k Hd Hd) eq_refl) in E. discriminate. }
      assert (Hge1 : Forall (fun r => exists k1, key_of keys r = Ok k1 /\ kle k k1) rows).
      { rewrite Forall_forall in *. intros r Hin.
        destruct (Hrow r Hin) as (k1 & k2 & H1 & H2 & H3).
        rewrite Hk in H1. injection H1 as <-. eauto. }
      destruct (IH Hall' Hs' k Hd Hge1) as (g & gs & Hg & Hrows & Hsame & Hlt & Hasc).
      exists [], ((k, row :: g) :: gs). rewrite Hg. simpl.
      repeat split; auto.
      * now rewrite Hrows at 1.
      * constructor; [exact Hlt0|].
        clear - Hord Hd0 Hd Hlt0 Hlt Hasc.
        induction Hasc as [|k1 r1 g1 gs1 Hd1 _ _ _ IH1]; [constructor|].
        inversion Hlt as [|? ? Hk1 Hlt']; subst. simpl in Hk1.
        constructor; [|now apply IH1].
        exact (ko_trans dom Hord k0 k k1 Hd0 Hd Hd1 Hlt0 Hk1).
      * constructor; auto.
Qed.

Lemma groupby_sorted (rows : list TRow) :
  Forall (keyed dom keys) rows ->
  sorted_by keys rows ->
  exists gs,
    groupby (key_of keys) rows = Ok gs /\
    List.concat (map snd gs) = rows /\
    asc_groups dom keys gs.
Proof.
  intros Hall Hs. apply (sorted_by_strong dom Hord keys rows Hall) in Hs.
  destruct rows as [|row rows].
  - exists []. repeat split; constructor.
  - inversion Hall as [|? ? (k & Hk & Hd) Hall']; subst.
    inversion Hs as [|? ? Hs' Hrow]; subst.
    assert (Hge : Forall (fun r => exists k1, key_of keys r = Ok k1 /\ kle k k1) rows).
    { rewrite Forall_forall in *. intros r Hin.
      destruct (Hrow r Hin) as (k1 & k2 & H1 & H2 & H3).
      rewrite Hk in H1. injection H1 as <-. eauto. }
    destruct (groupby_from_sorted rows Hall' Hs' k Hd Hge)
      as (g & gs & Hg & Hrows & Hsame & Hlt & Hasc).
    exists ((k, row :: g) :: gs). simpl. rewrite Hk. simpl. rewrite Hg. simpl.
    repeat split.
    + now rewrite Hrows at 1.
    + constructor; auto.
Qed.
End SortedStreams.

(** ** The join as a nested loop: what a join is to compute *)

(** Two rows have [==] key values. *)
Definition same_keyb (keys : list string) (a b : TRow) : bool :=
  match key_of keys a, key_of keys b with
  | Ok x, Ok y => key_eq x y
  | _, _ => false
  end.

(** The row [get_ans] returns for a pair of rows. *)
Definition merged (j : Joiner) (keys : list string) (a b : TRow) : TRow :=
  match get_ans j a b keys with
  | Ok ans => ans
  | Raise _ => []
  end.

(** Per row of [rows_a], in order, its pairs with the rows of [rows_b] that
    have the same key value, in order: the Cartesian product of the two
    equal-key groups, for each key value present on both sides. *)
Definition inner_join_spec (j : Joiner) (keys : list string)
  (rows_a rows_b : list TRow) : list TRow :=
  flat_map (fun a => map (merged j keys a) (filter (same_keyb keys a) rows_b))
           rows_a.

(** The rows of [rows] whose key value no row of [others] has. *)
Definition unmatched (keys : list string) (rows others : list TRow)
  : list TRow :=
  filter (fun r => negb (existsb (same_keyb keys r) others)) rows.

Definition disjoint_keys (keys : list string) (A B : list TRow) : Prop :=
  forall a b, In a A -> In b B -> same_keyb keys a b = false.

Lemma filter_none {A : Type} (f : A -> bool) (l : list A) :
  (forall x, In x l -> f x = false) -> filter f l = [].
Proof.
  induction l as [|x l IH]; simpl; intros H; [reflexivity|].
  rewrite (H x (or_introl eq_refl)). apply IH. intros y Hy. apply H. now right.
Qed.

Lemma filter_all {A : Type} (f : A -> bool) (l : list A) :
  (forall x, In x l -> f x = true) -> filter f l = l.
Proof.
  induction l as [|x l IH]; simpl; intros H; [reflexivity|].
  rewrite (H x (or_introl eq_refl)). f_equal. apply IH.
  intros y Hy. apply H. now right.
Qed.

Lemma flat_map_ext_in {A B : Type} (f g : A -> list B) (l : list A) :
  (forall a, In a l -> f a = g a) -> flat_map f l = flat_map g l.
Proof.
  induction l as [|x l IH]; simpl; intros H; [reflexivity|].
  rewrite (H x (or_introl eq_refl)). f_equal. apply IH.
  intros y Hy. apply H. now right.
Qed.

Lemma inner_join_spec_app (j : Joiner) (keys : list string)
  (A1 A2 B : list TRow) :
  inner_join_spec j keys (A1 ++ A2) B =
    inner_join_spec j keys A1 B ++ inner_join_spec j keys A2 B.
Proof. unfold inner_join_spec. apply flat_map_app. Qed.

Lemma inner_join_spec_skip_l (j : Joiner) (keys : list string)
  (A B1 B2 : list TRow) :
  disjoint_keys keys A B1 ->
  inner_join_spec j keys A (B1 ++ B2) = inner_join_spec j keys A B2.
Proof.
  intros Hdis. unfold inner_join_spec.
  apply flat_map_ext_in. intros a Ha.
  rewrite filter_app, (filter_none _ B1); [reflexivity|].
  intros b Hb. now apply Hdis.
Qed.

Lemma inner_join_spec_skip_r (j : Joiner) (keys : list string)
  (A B1 B2 : list TRow) :
  disjoint_keys keys A B2 ->
  inner_join_spec j keys A (B1 ++ B2) = inner_join_spec j keys A B1.
Proof.
  intros Hdis. unfold inner_join_spec.
  apply flat_map_ext_in. intros a Ha.
  rewrite filter_app, (filter_none _ B2), app_nil_r; [reflexivity|].
  intros b Hb. now apply Hdis.
Qed.

Lemma inner_join_spec_disjoint (j : Joiner) (keys : list string)
  (A B : list TRow) :
  disjoint_keys keys A B -> inner_join_spec j keys A B = [].
Proof.
  intros Hdis. unfold inner_join_spec.
  induction A as [|a A IH]; simpl; [reflexivity|].
  rewrite (filter_none _ B).
  - simpl. apply IH. intros x b Hx Hb. apply Hdis; [now right|assumption].
  - intros b Hb. apply Hdis; [now left|assumption].
Qed.

Lemma inner_join_spec_group (j : Joiner) (keys : list string)
  (A B : list TRow) :
  (forall a b, In a A -> In b B -> same_keyb keys a b = true) ->
  inner_join_spec j keys A B = flat_map (fun a => map (merged j keys a) B) A.
Proof.
  intros Hall. unfold inner_join_spec.
  apply flat_map_ext_in. intros a Ha.
  rewrite filter_all; [reflexivity|]. intros b Hb. now apply Hall.
Qed.

Lemma unmatched_app (keys : list string) (A1 A2 B : list TRow) :
  unmatched keys (A1 ++ A2) B = unmatched keys A1 B ++ unmatched keys A2 B.
Proof. unfold unmatched. apply filter_app. Qed.

Lemma unmatched_skip_l (keys : list string) (A B1 B2 : list TRow) :
  disjoint_keys keys A B1 ->
  unmatched keys A (B1 ++ B2) = unmatched keys A B2.
Proof.
  intros Hdis. unfold unmatched. apply filter_ext_in. intros a Ha.
  rewrite existsb_app.
  replace (existsb (same_keyb keys a) B1) with false; [reflexivity|].
  symmetry. apply not_true_is_false. intros H.
  apply existsb_exists in H. destruct H as (b & Hb & Hab).
  rewrite (Hdis a b Ha Hb) in Hab. discriminate.
Qed.

Lemma unmatched_skip_r (keys : list string) (A B1 B2 : list TRow) :
  disjoint_keys keys A B2 ->
  unmatched keys A (B1 ++ B2) = unmatched keys A B1.
Proof.
  intros Hdis. unfold unmatched. apply filter_ext_in. intros a Ha.
  rewrite existsb_app.
  replace (existsb (same_keyb keys a) B2) with false;
    [now rewrite orb_false_r|].
  symmetry. apply not_true_is_false. intros H.
  apply existsb_exists in H. destruct H as (b & Hb & Hab).
  rewrite (Hdis a b Ha Hb) in Hab. discriminate.
Qed.

Lemma unmatched_disjoint (keys : list string) (A B : list TRow) :
  disjoint_keys keys A B -> unmatched keys A B = A.
Proof.
  intros Hdis. unfold unmatched. apply filter_all. intros a Ha.
  apply negb_true_iff, not_true_is_false. intros H.
  apply existsb_exists in H. destruct H as (b & Hb & Hab).
  rewrite (Hdis a b Ha Hb) in Hab. discriminate.
Qed.

Lemma unmatched_group (keys : list string) (A B : list TRow) (b0 : TRow) :
  (forall a, In a A -> same_keyb keys a b0 = true) ->
  In b0 B ->
  unmatched keys A B = [].
Proof.
  intros Hall Hin. unfold unmatched. apply filter_none. intros a Ha.
  apply negb_false_iff, existsb_exists. exists b0. auto.
Qed.

(** ** The joiners on rows that hold the key fields *)

Lemma mapM_ok {A B : Type} (f : A -> result B) (g : A -> B) (l : list A) :
  (forall x, In x l -> f x = Ok (g x)) -> mapM f l = Ok (map g l).
Proof.
  induction l as [|x l IH]; simpl; intros H; [reflexivity|].
  rewrite (H x (or_introl eq_refl)). simpl.
  rewrite IH; [reflexivity|]. intros y Hy. apply H. now right.
Qed.

Lemma mapM_items_ok (row : TRow) (keys : list string) (k : TKey) :
  mapM (getitem row) keys = Ok k ->
  mapM (fun key => v <- getitem row key ;; Ok (key, v)) keys =
    Ok (combine keys k).
Proof.
  revert k. induction keys as [|key keys IH]; simpl; intros k H.
  - injection H as <-. reflexivity.
  - destruct (getitem row key) as [v|e]; simpl in *; [|discriminate].
    destruct (mapM (getitem row) keys) as [vs|e]; simpl in *; [|discriminate].
    injection H as <-. now rewrite (IH vs eq_refl).
Qed.

Lemma get_ans_ok (j : Joiner) (keys : list string) (a b : TRow) :
  has_key keys a -> get_ans j a b keys = Ok (merged j keys a b).
Proof.
  intros [k Hk]. unfold merged, get_ans.
  unfold key_of in Hk. now rewrite (mapM_items_ok a keys k Hk).
Qed.

Lemma product_ok {A : Type} (f : TRow -> TRow -> result A)
  (g : TRow -> TRow -> A) (outer inner : list TRow) :
  (forall x y, In x outer -> In y inner -> f x y = Ok (g x y)) ->
  product f outer inner = Ok (flat_map (fun x => map (g x) inner) outer).
Proof.
  intros H. unfold product.
  rewrite (mapM_ok _ (fun x => map (g x) inner)).
  - simpl. now rewrite flat_map_concat_map.
  - intros x Hx. apply mapM_ok. intros y Hy. now apply H.
Qed.

Lemma flat_map_cons_perm {A B : Type} (h : A -> B) (F : A -> list B)
  (l : list A) :
  Permutation (flat_map (fun a => h a :: F a) l) (map h l ++ flat_map F l).
Proof.
  induction l as [|a l IH]; simpl; [constructor|].
  constructor. rewrite IH.
  rewrite !app_assoc. apply Permutation_app_tail, Permutation_app_comm.
Qed.

Lemma flat_map_swap_perm {A B C : Type} (g : A -> B -> C)
  (la : list A) (lb : list B) :
  Permutation (flat_map (fun b => map (fun a => g a b) la) lb)
              (flat_map (fun a => map (g a) lb) la).
Proof.
  induction lb as [|b lb IH]; simpl.
  - induction la as [|a la IHa]; simpl; [constructor|assumption].
  - rewrite IH. symmetry.
    apply (flat_map_cons_perm (fun a => g a b) (fun a => map (g a) lb) la).
Qed.

(** A joiner called on two groups that hold the key fields yields the merged
    pairs of the Cartesian product; the inner joiner pairs every left row, in
    order, with every right row, in order. *)
Lemma Joiner_call_matched (j : Joiner) (keys : list string)
  (ra rb : TRow) (ga gb : list TRow) :
  Forall (has_key keys) (ra :: ga) ->
  exists out,
    Joiner_call j keys (ra :: ga) (rb :: gb) = Ok out /\
    Permutation out
      (flat_map (fun a => map (merged j keys a) (rb :: gb)) (ra :: ga)) /\
    (joiner_cls j = InnerJoiner ->
     out = flat_map (fun a => map (merged j keys a) (rb :: gb)) (ra :: ga)).
Proof.
  intros Hall.
  assert (Hp : product (fun row_a row_b => get_ans j row_a row_b keys)
                 (ra :: ga) (rb :: gb) =
               Ok (flat_map (fun a => map (merged j keys a) (rb :: gb))
                     (ra :: ga))).
  { apply product_ok. intros x y Hx _. apply get_ans_ok.
    rewrite Forall_forall in Hall. now apply Hall. }
  unfold Joiner_call. destruct (joiner_cls j).
  1-3: eexists; split; [exact Hp|split; [apply Permutation_refl|reflexivity]].
  eexists. split; [|split].
  - apply (product_ok (fun row_b row_a => get_ans j row_a row_b keys)
             (fun b a => merged j keys a b)).
    intros x y _ Hy. apply get_ans_ok.
    rewrite Forall_forall in Hall. now apply Hall.
  - apply (flat_map_swap_perm (merged j keys) (ra :: ga) (rb :: gb)).
  - discriminate.
Qed.

Lemma left_only_spec (j : Joiner) (keys : list string) (group_a : list TRow) :
  left_only j keys group_a = Ok (if emits_left j then group_a else []).
Proof.
  unfold left_only, emits_left, Joiner_call.
  destruct (joiner_cls j); reflexivity.
Qed.

Lemma right_only_spec (j : Joiner) (keys : list string) (group_b : list TRow) :
  right_only j keys group_b = Ok (if emits_right j then group_b else []).
Proof.
  unfold right_only, emits_right, Joiner_call.
  destruct (joiner_cls j); try reflexivity.
  now destruct group_b.
Qed.

Lemma drain_a_spec (j : Joiner) (keys : list string)
  (gas : list (TKey * list TRow)) :
  drain_a j keys gas =
    Ok (if emits_left j then List.concat (map snd gas) else []).
Proof.
  induction gas as [|[k g] gas IH]; simpl.
  - now destruct (emits_left j).
  - rewrite left_only_spec, IH. simpl. now destruct (emits_left j).
Qed.

Lemma drain_b_spec (j : Joiner) (keys : list string)
  (gbs : list (TKey * list TRow)) :
  drain_b j keys gbs =
    Ok (if emits_right j then List.concat (map snd gbs) else []).
Proof.
  induction gbs as [|[k g] gbs IH]; simpl.
  - now destruct (emits_right j).
  - rewrite right_only_spec, IH. simpl. now destruct (emits_right j).
Qed.

(** The equations of the merge loop. *)
Lemma merge_groups_nil_l (j : Joiner) (keys : list string)
  (gbs : list (TKey * list TRow)) :
  merge_groups j keys [] gbs = drain_b j keys gbs.
Proof. destruct gbs; reflexivity. Qed.

Lemma merge_groups_nil_r (j : Joiner) (keys : list string)
  (ga : TKey * list TRow) (gas : list (TKey * list TRow)) :
  merge_groups j keys (ga :: gas) [] = drain_a j keys (ga :: gas).
Proof. destruct ga; reflexivity. Qed.

Lemma merge_groups_cons (j : Joiner) (keys : list string)
  (key_a key_b : TKey) (group_a group_b : list TRow)
  (gas gbs : list (TKey * list TRow)) :
  merge_groups j keys ((key_a, group_a) :: gas) ((key_b, group_b) :: gbs) =
    if key_eq key_a key_b then
      out <- Joiner_call j keys group_a group_b ;;
      rest <- merge_groups j keys gas gbs ;;
      Ok (out ++ rest)
    else
      lt <- key_lt key_a key_b ;;
      if lt : bool then
        out <- left_only j keys group_a ;;
        rest <- merge_groups j keys gas ((key_b, group_b) :: gbs) ;;
        Ok (out ++ rest)
      else
        out <- right_only j keys group_b ;;
        rest <- merge_groups j keys ((key_a, group_a) :: gas) gbs ;;
        Ok (out ++ rest).
Proof. reflexivity. Qed.

(** What a join of class [j] is to emit, up to order: the inner result, and
    the unmatched rows of the sides the class keeps. *)
Definition join_spec (j : Joiner) (keys : list string)
  (rows_a rows_b : list TRow) : list TRow :=
  inner_join_spec j keys rows_a rows_b ++
  (if emits_left j then unmatched keys rows_a rows_b else []) ++
  (if emits_right j then unmatched keys rows_b rows_a else []).

Definition rows_of (gs : list (TKey * list TRow)) : list TRow :=
  List.concat (map snd gs).

Section MergeJoin.
Variable dom : TKey -> Prop.
Hypothesis Hord : key_order dom.
Variable keys : list string.

Definition keys_at (k : TKey) (rows : list TRow) : Prop :=
  Forall (fun r => key_of keys r = Ok k) rows.

Definition keys_above (k : TKey) (rows : list TRow) : Prop :=
  Forall (fun r => exists k', key_of keys r = Ok k' /\ dom k' /\ klt k k') rows.

Lemma asc_groups_above (k : TKey) (gs : list (TKey * list TRow)) :
  asc_groups dom keys gs ->
  Forall (fun kg => klt k (fst kg)) gs ->
  keys_above k (rows_of gs).
Proof.
  unfold rows_of, keys_above.
  induction 1 as [|k1 r g gs Hd Hat _ Hasc IH]; intros Hlt;
    [constructor|rewrite map_cons, concat_cons; cbn [snd]].
  - inversion Hlt as [|? ? Hk1 Hlt']; subst. simpl in Hk1.
    apply Forall_app. split; [|now apply IH].
    eapply Forall_impl; [|exact Hat].
    intros r' Hr'. exists k1. auto.
Qed.

Lemma asc_groups_has_key (gs : list (TKey * list TRow)) :
  asc_groups dom keys gs -> Forall (has_key keys) (rows_of gs).
Proof.
  unfold rows_of.
  induction 1 as [|k1 r g gs Hd Hat _ Hasc IH]; [constructor|].
  rewrite map_cons, concat_cons; cbn [snd].
  apply Forall_app. split; [|assumption].
  eapply Forall_impl; [|exact Hat]. intros r' Hr'. now exists k1.
Qed.

Lemma keys_above_trans (k1 k2 : TKey) (rows : list TRow) :
  dom k1 -> dom k2 -> klt k1 k2 -> keys_above k2 rows -> keys_above k1 rows.
Proof.
  intros H1 H2 Hlt. apply Forall_impl.
  intros r (k' & Hk' & Hd' & Hlt'). exists k'. repeat split; auto.
  exact (ko_trans dom Hord k1 k2 k' H1 H2 Hd' Hlt Hlt').
Qed.

Lemma keys_at_above (k1 k2 : TKey) (rows : list TRow) :
  dom k2 -> klt k1 k2 -> keys_at k2 rows -> keys_above k1 rows.
Proof.
  intros H2 Hlt. apply Forall_impl. intros r Hr. exists k2. auto.
Qed.

Lemma disjoint_at_above (k : TKey) (X Y : list TRow) :
  dom k -> keys_at k X -> keys_above k Y ->
  disjoint_keys keys X Y /\ disjoint_keys keys Y X.
Proof.
  unfold keys_at, keys_above. rewrite !Forall_forall.
  intros Hd HX HY. split; intros a b Ha Hb; unfold same_keyb.
  - rewrite (HX a Ha). destruct (HY b Hb) as (k' & -> & Hd' & Hlt).
    now apply (klt_key_eq_false dom Hord).
  - rewrite (HX b Hb). destruct (HY a Ha) as (k' & -> & Hd' & Hlt).
    destruct (key_eq k' k) eqn:E; [|reflexivity].
    apply (ko_eq dom Hord k' k Hd' Hd) in E. subst k'.
    now apply (ko_irrefl dom Hord) in Hlt.
Qed.

Lemma match_at_at (k : TKey) (X Y : list TRow) :
  dom k -> keys_at k X -> keys_at k Y ->
  forall a b, In a X -> In b Y -> same_keyb keys a b = true.
Proof.
  unfold keys_at. rewrite !Forall_forall.
  intros Hd HX HY a b Ha Hb. unfold same_keyb.
  rewrite (HX a Ha), (HY b Hb). now apply (ko_eq dom Hord).
Qed.

Lemma disjoint_keys_app_l (X1 X2 Y : list TRow) :
  disjoint_keys keys X1 Y -> disjoint_keys keys X2 Y ->
  disjoint_keys keys (X1 ++ X2) Y.
Proof.
  intros H1 H2 a b Ha Hb. apply in_app_or in Ha. destruct Ha; auto.
Qed.

Lemma disjoint_keys_app_r (X Y1 Y2 : list TRow) :
  disjoint_keys keys X Y1 -> disjoint_keys keys X Y2 ->
  disjoint_keys keys X (Y1 ++ Y2).
Proof.
  intros H1 H2 a b Ha Hb. apply in_app_or in Hb. destruct Hb; auto.
Qed.

Lemma disjoint_keys_nil_r (X : list TRow) : disjoint_keys keys X [].
Proof. intros a b _ []. Qed.

Lemma disjoint_keys_nil_l (Y : list TRow) : disjoint_keys keys [] Y.
Proof. intros a b []. Qed.
End MergeJoin.

(** The three steps of the merge, on the side of [join_spec]. *)
Lemma join_spec_step_eq (j : Joiner) (keys : list string)
  (ra rb : TRow) (ga gb A' B' : list TRow) :
  (forall a b, In a (ra :: ga) -> In b (rb :: gb) ->
               same_keyb keys a b = true) ->
  (forall b a, In b (rb :: gb) -> In a (ra :: ga) ->
               same_keyb keys b a = true) ->
  disjoint_keys keys (ra :: ga) B' ->
  disjoint_keys keys B' (ra :: ga) ->
  disjoint_keys keys A' (rb :: gb) ->
  disjoint_keys keys (rb :: gb) A' ->
  inner_join_spec j keys ((ra :: ga) ++ A') ((rb :: gb) ++ B') =
    flat_map (fun a => map (merged j keys a) (rb :: gb)) (ra :: ga) ++
    inner_join_spec j keys A' B' /\
  join_spec j keys ((ra :: ga) ++ A') ((rb :: gb) ++ B') =
    flat_map (fun a => map (merged j keys a) (rb :: gb)) (ra :: ga) ++
    join_spec j keys A' B'.
Proof.
  intros Hab Hba H1 H2 H3 H4.
  assert (HI : inner_join_spec j keys ((ra :: ga) ++ A') ((rb :: gb) ++ B') =
               flat_map (fun a => map (merged j keys a) (rb :: gb)) (ra :: ga)
               ++ inner_join_spec j keys A' B').
  { rewrite inner_join_spec_app.
    rewrite (inner_join_spec_skip_r j keys (ra :: ga)) by assumption.
    rewrite (inner_join_spec_group j keys (ra :: ga)) by assumption.
    now rewrite (inner_join_spec_skip_l j keys A') by assumption. }
  split; [exact HI|].
  unfold join_spec. rewrite HI.
  rewrite (unmatched_app keys (ra :: ga)), (unmatched_app keys (rb :: gb)).
  rewrite (unmatched_group keys (ra :: ga) _ rb);
    [|intros a Ha; apply Hab; [assumption|now left]
     |apply in_or_app; left; now left].
  rewrite (unmatched_group keys (rb :: gb) _ ra);
    [|intros b Hb; apply Hba; [assumption|now left]
     |apply in_or_app; left; now left].
  rewrite (unmatched_skip_l keys A') by assumption.
  rewrite (unmatched_skip_l keys B') by assumption.
  simpl. now rewrite <- app_assoc.
Qed.

Lemma join_spec_step_lt (j : Joiner) (keys : list string)
  (GA A' B : list TRow) :
  disjoint_keys keys GA B ->
  disjoint_keys keys B GA ->
  inner_join_spec j keys (GA ++ A') B = inner_join_spec j keys A' B /\
  Permutation ((if emits_left j then GA else []) ++ join_spec j keys A' B)
              (join_spec j keys (GA ++ A') B).
Proof.
  intros H1 H2.
  assert (HI : inner_join_spec j keys (GA ++ A') B =
               inner_join_spec j keys A' B).
  { rewrite inner_join_spec_app.
    now rewrite (inner_join_spec_disjoint j keys GA B) by assumption. }
  split; [exact HI|].
  unfold join_spec. rewrite HI, unmatched_app.
  rewrite (unmatched_disjoint keys GA B) by assumption.
  rewrite (unmatched_skip_l keys B GA A') by assumption.
  destruct (emits_left j); simpl; [|apply Permutation_refl].
  rewrite <- app_assoc.
  apply Permutation_app_swap_app.
Qed.

Lemma join_spec_step_gt (j : Joiner) (keys : list string)
  (A GB B' : list TRow) :
  disjoint_keys keys A GB ->
  disjoint_keys keys GB A ->
  inner_join_spec j keys A (GB ++ B') = inner_join_spec j keys A B' /\
  Permutation ((if emits_right j then GB else []) ++ join_spec j keys A B')
              (join_spec j keys A (GB ++ B')).
Proof.
  intros H1 H2.
  assert (HI : inner_join_spec j keys A (GB ++ B') =
               inner_join_spec j keys A B').
  { now rewrite (inner_join_spec_skip_l j keys A GB B') by assumption. }
  split; [exact HI|].
  unfold join_spec. rewrite HI, unmatched_app.
  rewrite (unmatched_disjoint keys GB A) by assumption.
  rewrite (unmatched_skip_l keys A GB B') by assumption.
  destruct (emits_right j); simpl; [|apply Permutation_refl].
  rewrite !app_assoc. apply Permutation_app_tail.
  rewrite <- app_assoc. apply Permutation_app_comm.
Qed.

Section MergeCorrect.
Variable dom : TKey -> Prop.
Hypothesis Hord : key_order dom.
Variable keys : list string.
Variable j : Joiner.

Lemma rows_of_cons (k : TKey) (g : list TRow) (gs : list (TKey * list TRow)) :
  rows_of ((k, g) :: gs) = g ++ rows_of gs.
Proof. reflexivity. Qed.

Lemma merge_groups_spec (gas gbs : list (TKey * list TRow)) :
  asc_groups dom keys gas ->
  asc_groups dom keys gbs ->
  exists out,
    merge_groups j keys gas gbs = Ok out /\
    Permutation out (join_spec j keys (rows_of gas) (rows_of gbs)) /\
    (joiner_cls j = InnerJoiner ->
     out = inner_join_spec j keys (rows_of gas) (rows_of gbs)).
Proof.
  intros Ha. revert gbs.
  induction Ha as [|ka ra ga gas Hda Hata Hlta Hasca IHa]; intros gbs Hb.
  - rewrite merge_groups_nil_l, drain_b_spec.
    eexists. split; [reflexivity|]. unfold join_spec, emits_right, emits_left.
    rewrite (unmatched_disjoint keys (rows_of gbs) (rows_of []))
      by apply disjoint_keys_nil_r.
    split.
    + destruct (joiner_cls j); simpl; apply Permutation_refl.
    + intros ->. reflexivity.
  - induction Hb as [|kb rb gb gbs Hdb Hatb Hltb Hascb IHb].
    + rewrite merge_groups_nil_r, drain_a_spec.
      eexists. split; [reflexivity|]. unfold join_spec, emits_right, emits_left.
      rewrite (unmatched_disjoint keys _ (rows_of []))
        by apply disjoint_keys_nil_r.
      rewrite (inner_join_spec_disjoint j keys _ (rows_of []))
        by apply disjoint_keys_nil_r.
      split.
      * destruct (joiner_cls j); simpl; rewrite ?app_nil_r;
          apply Permutation_refl.
      * intros ->. reflexivity.
    + pose proof (asc_groups_above dom keys ka gas Hasca Hlta) as HabA.
      pose proof (asc_groups_above dom keys kb gbs Hascb Hltb) as HabB.
      rewrite merge_groups_cons, !rows_of_cons.
      destruct (key_eq ka kb) eqn:E.
      * apply (ko_eq dom Hord ka kb Hda Hdb) in E. subst kb.
        destruct (Joiner_call_matched j keys ra rb ga gb) as (o1 & Ho1 & Hp1 & Hi1).
        { eapply Forall_impl; [|exact Hata]. intros r Hr. now exists ka. }
        destruct (IHa gbs Hascb) as (rest & Hrest & Hprest & Hirest).
        rewrite Ho1, Hrest. cbn [bind].
        destruct (disjoint_at_above dom Hord keys ka (ra :: ga) (rows_of gbs)
                    Hda Hata HabB) as [D1 D2].
        destruct (disjoint_at_above dom Hord keys ka (rb :: gb) (rows_of gas)
                    Hda Hatb HabA) as [D3 D4].
        destruct (join_spec_step_eq j keys ra rb ga gb (rows_of gas) (rows_of gbs))
          as [EI EJ]; auto.
        { now apply (match_at_at dom Hord keys ka). }
        { now apply (match_at_at dom Hord keys ka). }
        eexists. split; [reflexivity|]. split.
        -- rewrite EJ. now apply Permutation_app.
        -- intros Hc. rewrite EI, (Hi1 Hc), (Hirest Hc). reflexivity.
      * destruct (ko_defined dom Hord ka kb Hda Hdb) as [[|] Hlt];
          rewrite Hlt; cbn [bind].
        -- rewrite left_only_spec. cbn [bind].
           destruct (IHa ((kb, rb :: gb) :: gbs)) as (rest & Hrest & Hprest & Hirest).
           { now constructor. }
           rewrite Hrest. cbn [bind]. rewrite ?rows_of_cons in *.
           assert (HB : keys_above dom keys ka ((rb :: gb) ++ rows_of gbs)).
           { apply Forall_app. split.
             - now apply (keys_at_above dom keys ka kb).
             - now apply (keys_above_trans dom Hord keys ka kb). }
           destruct (disjoint_at_above dom Hord keys ka (ra :: ga) _ Hda Hata HB)
             as [D1 D2].
           destruct (join_spec_step_lt j keys (ra :: ga) (rows_of gas)
                       ((rb :: gb) ++ rows_of gbs) D1 D2) as [EI EJ].
           eexists. split; [reflexivity|]. split.
           ++ rewrite <- EJ. now apply Permutation_app_head.
           ++ intros Hc. rewrite EI, (Hirest Hc).
              unfold emits_left. now rewrite Hc.
        -- assert (Hgt : klt kb ka).
           { destruct (ko_total dom Hord ka kb Hda Hdb) as [H|H]; auto.
             - intros ->.
               rewrite (proj2 (ko_eq dom Hord kb kb Hdb Hdb) eq_refl) in E.
               discriminate.
             - unfold klt in H. congruence. }
           rewrite right_only_spec. cbn [bind].
           destruct IHb as (rest & Hrest & Hprest & Hirest).
           rewrite Hrest. cbn [bind]. rewrite ?rows_of_cons in *.
           assert (HA : keys_above dom keys kb ((ra :: ga) ++ rows_of gas)).
           { apply Forall_app. split.
             - now apply (keys_at_above dom keys kb ka).
             - now apply (keys_above_trans dom Hord keys kb ka). }
           destruct (disjoint_at_above dom Hord keys kb (rb :: gb) _ Hdb Hatb HA)
             as [D1 D2].
           destruct (join_spec_step_gt j keys ((ra :: ga) ++ rows_of gas)
                       (rb :: gb) (rows_of gbs) D2 D1) as [EI EJ].
           eexists. split; [reflexivity|]. split.
           ++ rewrite <- EJ. now apply Permutation_app_head.
           ++ intros Hc. rewrite EI, (Hirest Hc).
              unfold emits_right. now rewrite Hc.
Qed.
End MergeCorrect.

(** ** Key columns of integers and strings

    The key domain of the example pipelines: every key column holds integers
    or holds strings.  On it [==] is equality and [<] is a strict total
    order. *)

Inductive vtype : Type := TInt | TStr.

Definition has_type (t : vtype) (v : value) : Prop :=
  match t, v with
  | TInt, VInt _ => True
  | TStr, VStr _ => True
  | _, _ => False
  end.

(** The key value has one value of the given type per key column. *)
Definition key_shape (sh : list vtype) (k : TKey) : Prop :=
  Forall2 has_type sh k.

Lemma string_compare_refl (s : string) : String.compare s s = Eq.
Proof.
  induction s as [|c s IH]; simpl; [reflexivity|].
  unfold Ascii.compare. now rewrite N.compare_refl.
Qed.

Lemma string_compare_lt_trans (s1 s2 s3 : string) :
  String.compare s1 s2 = Lt -> String.compare s2 s3 = Lt ->
  String.compare s1 s3 = Lt.
Proof.
  revert s2 s3. induction s1 as [|c1 s1 IH]; intros [|c2 s2] [|c3 s3];
    simpl; try congruence.
  unfold Ascii.compare.
  destruct (N.compare_spec (N_of_ascii c1) (N_of_ascii c2)) as [E12|L12|G12];
    try discriminate;
  destruct (N.compare_spec (N_of_ascii c2) (N_of_ascii c3)) as [E23|L23|G23];
    try discriminate; intros H12 H23.
  - rewrite E12, E23, N.compare_refl. now apply (IH s2).
  - rewrite E12. now apply N.compare_lt_iff in L23 as ->.
  - rewrite <- E23. now apply N.compare_lt_iff in L12 as ->.
  - assert (H : (N_of_ascii c1 < N_of_ascii c3)%N) by lia.
    now apply N.compare_lt_iff in H as ->.
Qed.

Lemma string_ltb_lt (s t : string) :
  String.ltb s t = true <-> String.compare s t = Lt.
Proof.
  unfold String.ltb. destruct (String.compare s t); split; congruence.
Qed.

Section TypedValues.
Variable t : vtype.

Lemma py_eq_typed (a b : value) :
  has_type t a -> has_type t b -> (py_eq a b = true <-> a = b).
Proof.
  destruct t, a, b; simpl; try contradiction; intros _ _.
  - rewrite Z.eqb_eq. split; congruence.
  - rewrite String.eqb_eq. split; congruence.
Qed.

Lemma py_lt_typed_defined (a b : value) :
  has_type t a -> has_type t b -> exists c, py_lt a b = Ok c.
Proof.
  destruct t, a, b; simpl; try contradiction; eauto.
Qed.

Lemma py_lt_typed_irrefl (a : value) :
  has_type t a -> py_lt a a <> Ok true.
Proof.
  destruct t, a; simpl; try contradiction; intros _ [= H].
  - lia.
  - apply string_ltb_lt in H. rewrite string_compare_refl in H. discriminate.
Qed.

Lemma py_lt_typed_trans (a b c : value) :
  has_type t a -> has_type t b -> has_type t c ->
  py_lt a b = Ok true -> py_lt b c = Ok true -> py_lt a c = Ok true.
Proof.
  destruct t, a, b, c; simpl; try contradiction; intros _ _ _ [= H1] [= H2];
    f_equal.
  - lia.
  - apply string_ltb_lt in H1, H2. apply string_ltb_lt.
    now apply (string_compare_lt_trans s s0 s1).
Qed.

Lemma py_lt_typed_total (a b : value) :
  has_type t a -> has_type t b -> a <> b ->
  py_lt a b = Ok true \/ py_lt b a = Ok true.
Proof.
  destruct t, a, b; simpl; try contradiction; intros _ _ Hne.
  - destruct (Z.lt_trichotomy z z0) as [H|[H|H]].
    + left. f_equal. lia.
    + congruence.
    + right. f_equal. lia.
  - destruct (String.compare s s0) eqn:E.
    + apply String.compare_eq_iff in E. congruence.
    + left. f_equal. now apply string_ltb_lt.
    + right. f_equal. apply string_ltb_lt.
      rewrite String.compare_antisym, E. reflexivity.
Qed.
End TypedValues.

Lemma py_eq_typed_refl (t : vtype) (a : value) :
  has_type t a -> py_eq a a = true.
Proof. intros H. now apply (py_eq_typed t). Qed.

Lemma py_eq_typed_false (t : vtype) (a b : value) :
  has_type t a -> has_type t b -> a <> b -> py_eq a b = false.
Proof.
  intros Ha Hb Hne. destruct (py_eq a b) eqn:E; [|reflexivity].
  now apply (py_eq_typed t) in E.
Qed.

Lemma key_shape_eq (sh : list vtype) (x y : TKey) :
  key_shape sh x -> key_shape sh y -> (key_eq x y = true <-> x = y).
Proof.
  intros Hx. revert y.
  induction Hx as [|t a sh x Ha Hx IH]; intros y Hy; inversion Hy; subst.
  - simpl. tauto.
  - unfold key_eq in *. simpl. rewrite andb_true_iff.
    rewrite (py_eq_typed t a y0) by assumption. rewrite IH by assumption.
    split; [intros [-> ->]; reflexivity|intros [= -> ->]; auto].
Qed.

Lemma key_shape_defined (sh : list vtype) (x y : TKey) :
  key_shape sh x -> key_shape sh y -> exists b, key_lt x y = Ok b.
Proof.
  intros Hx. revert y.
  induction Hx as [|t a sh x Ha Hx IH]; intros y Hy; inversion Hy; subst.
  - now exists false.
  - unfold key_lt in *. simpl. destruct (py_eq a y0).
    + now apply IH.
    + now apply (py_lt_typed_defined t).
Qed.

Lemma key_shape_irrefl (sh : list vtype) (x : TKey) :
  key_shape sh x -> ~ klt x x.
Proof.
  unfold klt, key_lt.
  induction 1 as [|t a sh x Ha Hx IH]; simpl; [discriminate|].
  now rewrite (py_eq_typed_refl t a Ha).
Qed.

Lemma key_shape_trans (sh : list vtype) (x y z : TKey) :
  key_shape sh x -> key_shape sh y -> key_shape sh z ->
  klt x y -> klt y z -> klt x z.
Proof.
  unfold klt, key_lt. intros Hx. revert y z.
  induction Hx as [|t a sh x Ha Hx IH]; intros y z Hy Hz;
    inversion Hy as [|? b ? y' Hb Hy']; subst;
    inversion Hz as [|? c ? z' Hc Hz']; subst; simpl; [discriminate|].
  destruct (py_eq a b) eqn:Eab.
  - apply (py_eq_typed t a b Ha Hb) in Eab. subst b.
    destruct (py_eq a c); [now apply IH|auto].
  - destruct (py_eq b c) eqn:Ebc.
    + apply (py_eq_typed t b c Hb Hc) in Ebc. subst c.
      rewrite Eab. auto.
    + intros H1 H2.
      pose proof (py_lt_typed_trans t a b c Ha Hb Hc H1 H2) as H3.
      rewrite (py_eq_typed_false t a c Ha Hc); [assumption|].
      intros ->. now apply (py_lt_typed_irrefl t c Hc).
Qed.

Lemma key_shape_total (sh : list vtype) (x y : TKey) :
  key_shape sh x -> key_shape sh y -> x <> y -> klt x y \/ klt y x.
Proof.
  unfold klt, key_lt. intros Hx. revert y.
  induction Hx as [|t a sh x Ha Hx IH]; intros y Hy;
    inversion Hy as [|? b ? y' Hb Hy']; subst; simpl; [congruence|].
  intros Hne. destruct (py_eq a b) eqn:Eab.
  - apply (py_eq_typed t a b Ha Hb) in Eab. subst b.
    rewrite (py_eq_typed_refl t a Ha). apply IH; [assumption|congruence].
  - assert (Hab : a <> b).
    { intros ->. rewrite (py_eq_typed_refl t b Hb) in Eab. discriminate. }
    rewrite (py_eq_typed_false t b a Hb Ha) by congruence.
    now apply (py_lt_typed_total t).
Qed.

Lemma key_shape_order (sh : list vtype) : key_order (key_shape sh).
Proof.
  constructor.
  - apply key_shape_eq.
  - apply key_shape_defined.
  - apply key_shape_irrefl.
  - apply key_shape_trans.
  - apply key_shape_total.
Qed.

(** ** The join of two sorted streams *)

Lemma Join_call_spec (dom : TKey -> Prop) (j : Joiner) (keys : list string)
  (rows_a rows_b : list TRow) :
  key_order dom ->
  Forall (keyed dom keys) rows_a ->
  Forall (keyed dom keys) rows_b ->
  sorted_by keys rows_a ->
  sorted_by keys rows_b ->
  exists out,
    Join_call j keys rows_a rows_b = Ok out /\
    Permutation out (join_spec j keys rows_a rows_b) /\
    (joiner_cls j = InnerJoiner ->
     out = inner_join_spec j keys rows_a rows_b).
Proof.
  intros Hord Ha Hb Hsa Hsb.
  destruct (groupby_sorted dom Hord keys rows_a Ha Hsa) as (gas & Hga & Hca & Hasca).
  destruct (groupby_sorted dom Hord keys rows_b Hb Hsb) as (gbs & Hgb & Hcb & Hascb).
  unfold Join_call. rewrite Hga, Hgb. cbn [bind].
  destruct (merge_groups_spec dom Hord keys j gas gbs Hasca Hascb)
    as (out & Hout & Hperm & Hinner).
  unfold rows_of in *. rewrite Hca, Hcb in *.
  now exists out.
Qed.

(** ** The column collision rule *)

(** The field names [get_ans] writes, in the order it writes them. *)
Definition out_names (j : Joiner) (keys : list string) (row_a row_b : TRow)
  : list string :=
  keys ++ map fst (suffixed_items (_a_suffix j) keys row_a row_b)
       ++ map fst (suffixed_items (_b_suffix j) keys row_b row_a).

(** The pairs an inner join is to merge: per row of [rows_a], in order, the
    row with each row of [rows_b] that has its key value, in order: the
    Cartesian product of the two equal-key groups, for each key value present
    on both sides. *)
Definition matching_pairs (keys : list string) (rows_a rows_b : list TRow)
  : list (TRow * TRow) :=
  flat_map (fun a => map (pair a) (filter (same_keyb keys a) rows_b)) rows_a.

(** The collision rule, in the words of the specification: the row merged
    from [row_a] and [row_b] holds the field [f] with the value [v] when
    [f] is a key field and [v] its value; or [f] is the name of a non-key
    field of both rows with the left suffix appended and [v] the left value;
    or the same with the right suffix and the right value; or [f] is a
    non-key field of one row only and [v] its value there. *)
Definition merged_field (sa sb : string) (keys : list string)
  (row_a row_b : TRow) (f : string) (v : value) : Prop :=
  (In f keys /\ dict_get f row_a = Some v) \/
  (exists n, is_key keys n = false /\ f = String.append n sa /\
             dict_get n row_a = Some v /\ dict_in n row_b = true) \/
  (exists n, is_key keys n = false /\ f = String.append n sb /\
             dict_get n row_b = Some v /\ dict_in n row_a = true) \/
  (is_key keys f = false /\ dict_get f row_a = Some v /\
   dict_in f row_b = false) \/
  (is_key keys f = false /\ dict_get f row_b = Some v /\
   dict_in f row_a = false).

(** The row [ans] is the row the rule gives for [row_a] and [row_b]: a dict
    that holds exactly the fields of the rule, each once. *)
Definition collision_rule (j : Joiner) (keys : list string)
  (row_a row_b ans : TRow) : Prop :=
  dict_wf ans /\
  forall f v,
    dict_get f ans = Some v <->
    merged_field (_a_suffix j) (_b_suffix j) keys row_a row_b f v.

Lemma dict_set_fresh (k : string) (v : value) (d : TRow) :
  ~ In k (map fst d) -> dict_set k v d = d ++ [(k, v)].
Proof.
  induction d as [|[k' v'] d IH]; simpl; intros Hn; [reflexivity|].
  destruct (String.eqb k k') eqn:E.
  - apply String.eqb_eq in E. subst. tauto.
  - rewrite IH; [reflexivity|tauto].
Qed.

Lemma dict_update_fresh (d items : TRow) :
  NoDup (map fst (d ++ items)) -> dict_update d items = d ++ items.
Proof.
  unfold dict_update. revert d.
  induction items as [|[k v] items IH]; intros d Hnd; simpl.
  - now rewrite app_nil_r.
  - rewrite map_app in Hnd. simpl in Hnd.
    pose proof (NoDup_remove_2 _ _ _ Hnd) as Hk.
    rewrite dict_set_fresh.
    + rewrite IH; rewrite <- app_assoc; [reflexivity|].
      simpl. now rewrite map_app.
    + intros Hin. apply Hk. apply in_or_app. now left.
Qed.

Lemma dict_of_items_fresh (items : TRow) :
  NoDup (map fst items) -> dict_of_items items = items.
Proof. intros H. unfold dict_of_items. now rewrite dict_update_fresh. Qed.

Lemma dict_get_in (k : string) (v : value) (d : TRow) :
  dict_get k d = Some v -> In (k, v) d.
Proof.
  induction d as [|[k' v'] d IH]; simpl; [discriminate|].
  destruct (String.eqb k k') eqn:E.
  - apply String.eqb_eq in E. intros [= ->]. left. now subst.
  - intros H. right. now apply IH.
Qed.

Lemma in_dict_get (k : string) (v : value) (d : TRow) :
  NoDup (map fst d) -> In (k, v) d -> dict_get k d = Some v.
Proof.
  induction d as [|[k' v'] d IH]; simpl; [tauto|].
  intros Hnd [H|H].
  - injection H as -> ->. now rewrite String.eqb_refl.
  - inversion Hnd as [|? ? Hn Hnd']; subst.
    destruct (String.eqb k k') eqn:E.
    + apply String.eqb_eq in E. subst k'. exfalso. apply Hn.
      apply in_map_iff. now exists (k, v).
    + now apply IH.
Qed.

Lemma mapM_length {A B : Type} (f : A -> result B) (l : list A) (r : list B) :
  mapM f l = Ok r -> List.length r = List.length l.
Proof.
  revert r. induction l as [|a l IH]; simpl; intros r H.
  - now injection H as <-.
  - destruct (f a); simpl in H; [|discriminate].
    destruct (mapM f l); simpl in H; [|discriminate].
    injection H as <-. simpl. now rewrite (IH _ eq_refl).
Qed.

Lemma map_fst_combine {A B : Type} (l : list A) (r : list B) :
  List.length r = List.length l -> map fst (combine l r) = l.
Proof.
  revert r. induction l as [|a l IH]; intros [|b r]; simpl; try discriminate;
    intros H; [reflexivity|].
  now rewrite IH by lia.
Qed.

Lemma key_items_in (row : TRow) (keys : list string) (k : TKey) (key : string) :
  mapM (getitem row) keys = Ok k ->
  In key keys ->
  exists v, dict_get key row = Some v /\ In (key, v) (combine keys k).
Proof.
  revert k. induction keys as [|key0 keys IH]; simpl; intros k H Hin; [tauto|].
  unfold getitem at 1 in H.
  destruct (dict_get key0 row) as [v0|] eqn:E0; simpl in H; [|discriminate].
  destruct (mapM (getitem row) keys) as [vs|] eqn:Em; simpl in H; [|discriminate].
  injection H as <-. destruct Hin as [->|Hin].
  - exists v0. split; [assumption|now left].
  - destruct (IH vs eq_refl Hin) as (v & Hv & Hc). exists v. split; auto.
    now right.
Qed.

(** When the names [get_ans] writes are pairwise distinct, the merged row is
    the key items, then the items of the left row, then those of the right
    row, under their output names. *)
Lemma merged_fresh (j : Joiner) (keys : list string) (a b : TRow) (k : TKey) :
  key_of keys a = Ok k ->
  NoDup (out_names j keys a b) ->
  merged j keys a b =
    combine keys k ++ suffixed_items (_a_suffix j) keys a b
                   ++ suffixed_items (_b_suffix j) keys b a.
Proof.
  intros Hk Hnd. unfold merged, get_ans. unfold key_of in Hk.
  rewrite (mapM_items_ok a keys k Hk). cbn [bind].
  unfold out_names in Hnd.
  pose proof (map_fst_combine keys k (mapM_length _ _ _ Hk)) as Hfst.
  pose proof (NoDup_app_remove_l _ _ Hnd) as Hab.
  pose proof (NoDup_app_remove_l _ _ Hab) as Hb.
  pose proof (NoDup_app_remove_r _ _ Hab) as Ha.
  rewrite app_assoc in Hnd.
  pose proof (NoDup_app_remove_r _ _ Hnd) as Hka.
  pose proof (NoDup_app_remove_r _ _ Hka) as Hkeys.
  rewrite (dict_of_items_fresh (combine keys k)) by now rewrite Hfst.
  rewrite (dict_of_items_fresh (suffixed_items (_a_suffix j) keys a b))
    by assumption.
  rewrite (dict_of_items_fresh (suffixed_items (_b_suffix j) keys b a))
    by assumption.
  rewrite (dict_update_fresh (combine keys k))
    by now rewrite map_app, Hfst.
  rewrite dict_update_fresh by now rewrite !map_app, Hfst.
  now rewrite <- app_assoc.
Qed.

Lemma suffixed_items_in (suffix : string) (keys : list string)
  (row other : TRow) (f : string) (v : value) :
  is_key keys f = false ->
  dict_get f row = Some v ->
  In (if dict_in f other then String.append f suffix else f, v)
     (suffixed_items suffix keys row other).
Proof.
  intros Hk Hg. unfold suffixed_items.
  apply in_map_iff. exists (f, v). split; [reflexivity|].
  apply filter_In. split; [now apply dict_get_in|].
  simpl. now rewrite Hk.
Qed.

Lemma combine_key_items (row : TRow) (keys : list string) (k : TKey)
  (f : string) (v : value) :
  mapM (getitem row) keys = Ok k ->
  In (f, v) (combine keys k) ->
  In f keys /\ dict_get f row = Some v.
Proof.
  revert k. induction keys as [|key0 keys IH]; simpl; intros k H Hin; [tauto|].
  unfold getitem at 1 in H.
  destruct (dict_get key0 row) as [v0|] eqn:E0; simpl in H; [|discriminate].
  destruct (mapM (getitem row) keys) as [vs|] eqn:Em; simpl in H; [|discriminate].
  injection H as <-. destruct Hin as [Heq|Hin].
  - injection Heq as <- <-. split; [now left|assumption].
  - destruct (IH vs eq_refl Hin) as [H1 H2]. split; [now right|assumption].
Qed.

(** A field that passes a test on names and whose name is that of no other
    field passing it is the field a lookup of the name finds. *)
Lemma in_dict_get_filter (P : string -> bool) (row : TRow) (n : string)
  (v : value) :
  NoDup (map fst (filter (fun kv => P (fst kv)) row)) ->
  In (n, v) row -> P n = true -> dict_get n row = Some v.
Proof.
  induction row as [|[k' v'] row IH]; simpl; intros Hnd Hin HP; [tauto|].
  destruct (String.eqb n k') eqn:E.
  - apply String.eqb_eq in E. subst k'. rewrite HP in Hnd. simpl in Hnd.
    destruct Hin as [Heq|Hin]; [now injection Heq as ->|].
    exfalso. inversion Hnd as [|? ? Hn _]; subst. apply Hn.
    apply in_map_iff. exists (n, v). split; [reflexivity|].
    apply filter_In. now split.
  - destruct Hin as [Heq|Hin].
    + injection Heq as -> ->. now rewrite String.eqb_refl in E.
    + apply IH; [|assumption|assumption].
      destruct (P k'); simpl in Hnd; [now inversion Hnd|assumption].
Qed.

Lemma suffixed_items_inv (suffix : string) (keys : list string)
  (row other : TRow) (f : string) (v : value) :
  NoDup (map fst (suffixed_items suffix keys row other)) ->
  In (f, v) (suffixed_items suffix keys row other) ->
  exists n,
    is_key keys n = false /\ dict_get n row = Some v /\
    f = (if dict_in n other then String.append n suffix else n).
Proof.
  unfold suffixed_items. intros Hnd Hin.
  apply in_map_iff in Hin. destruct Hin as ([n v'] & Heq & Hin).
  simpl in Heq. injection Heq as <- <-.
  apply filter_In in Hin. destruct Hin as [Hin Hk]. simpl in Hk.
  exists n. split; [now destruct (is_key keys n)|]. split; [|reflexivity].
  apply (in_dict_get_filter (fun n0 => negb (is_key keys n0)));
    [|assumption|assumption].
  match type of Hnd with
  | NoDup (map fst (map ?F ?l)) =>
      assert (Heq : map fst (map F l) =
                    map (fun n0 => if dict_in n0 other
                                   then String.append n0 suffix else n0)
                        (map fst l))
        by (rewrite !map_map; reflexivity)
  end.
  rewrite Heq in Hnd. now apply NoDup_map_inv in Hnd.
Qed.

Lemma get_ans_collision_rule (j : Joiner) (keys : list string) (a b : TRow) :
  has_key keys a ->
  NoDup (out_names j keys a b) ->
  collision_rule j keys a b (merged j keys a b).
Proof.
  intros [k Hk] Hnd.
  rewrite (merged_fresh j keys a b k Hk Hnd).
  assert (Hnd' : NoDup (map fst (combine keys k
                   ++ suffixed_items (_a_suffix j) keys a b
                   ++ suffixed_items (_b_suffix j) keys b a))).
  { rewrite !map_app, (map_fst_combine keys k (mapM_length _ _ _ Hk)).
    exact Hnd. }
  unfold out_names in Hnd.
  pose proof (NoDup_app_remove_l _ _ Hnd) as Hab.
  pose proof (NoDup_app_remove_l _ _ Hab) as Hb.
  pose proof (NoDup_app_remove_r _ _ Hab) as Ha.
  split; [exact Hnd'|]. intros f v. split.
  - intros Hget. apply dict_get_in in Hget.
    apply in_app_or in Hget. destruct Hget as [Hin|Hin].
    { left. now apply (combine_key_items a keys k). }
    apply in_app_or in Hin. destruct Hin as [Hin|Hin].
    + destruct (suffixed_items_inv _ _ _ _ _ _ Ha Hin) as (n & Hn & Hv & Hf).
      destruct (dict_in n b) eqn:E.
      * right. left. exists n. auto.
      * right. right. right. left. subst f. auto.
    + destruct (suffixed_items_inv _ _ _ _ _ _ Hb Hin) as (n & Hn & Hv & Hf).
      destruct (dict_in n a) eqn:E.
      * right. right. left. exists n. auto.
      * right. right. right. right. subst f. auto.
  - intros Hf. apply in_dict_get; [assumption|].
    destruct Hf as [[Hin Hv]|[(n & Hn & -> & Hv & Hd)|[(n & Hn & -> & Hv & Hd)
                   |[(Hn & Hv & Hd)|(Hn & Hv & Hd)]]]].
    + destruct (key_items_in a keys k f Hk Hin) as (v' & Hv' & Hc).
      rewrite Hv in Hv'. injection Hv' as <-.
      apply in_or_app. now left.
    + apply in_or_app. right. apply in_or_app. left.
      pose proof (suffixed_items_in (_a_suffix j) keys a b n v Hn Hv) as Hin.
      now rewrite Hd in Hin.
    + apply in_or_app. right. apply in_or_app. right.
      pose proof (suffixed_items_in (_b_suffix j) keys b a n v Hn Hv) as Hin.
      now rewrite Hd in Hin.
    + apply in_or_app. right. apply in_or_app. left.
      pose proof (suffixed_items_in (_a_suffix j) keys a b f v Hn Hv) as Hin.
      now rewrite Hd in Hin.
    + apply in_or_app. right. apply in_or_app. right.
      pose proof (suffixed_items_in (_b_suffix j) keys b a f v Hn Hv) as Hin.
      now rewrite Hd in Hin.
Qed.

Lemma matching_pairs_merged (j : Joiner) (keys : list string)
  (R : TRow * TRow -> TRow -> Prop) (rows_a rows_b : list TRow) :
  (forall a b, In a rows_a -> In b rows_b -> same_keyb keys a b = true ->
               R (a, b) (merged j keys a b)) ->
  Forall2 R (matching_pairs keys rows_a rows_b)
            (inner_join_spec j keys rows_a rows_b).
Proof.
  unfold matching_pairs, inner_join_spec.
  induction rows_a as [|a rows_a IH]; intros H; simpl; [constructor|].
  apply Forall2_app.
  - assert (Hb : forall b, In b (filter (same_keyb keys a) rows_b) ->
                           R (a, b) (merged j keys a b)).
    { intros b Hin. apply filter_In in Hin. destruct Hin as [Hin Hs].
      apply H; auto. now left. }
    induction (filter (same_keyb keys a) rows_b) as [|b l IHl]; simpl;
      constructor.
    + apply Hb. now left.
    + apply IHl. intros b' Hin. apply Hb. now right.
  - apply IH. intros a' b Ha Hb. apply H; auto. now right.
Qed.

(** ** Inner and outer join of sorted streams *)

(** The statement on the joins of two streams with suffixes [sa] and [sb]:
    the inner join emits one row for every pair of the Cartesian product of
    the two groups of each key value of both streams, in the order of the
    pairs, and that row is the row the collision rule gives for the pair;
    the outer join emits the rows of the inner join and the unmatched rows
    of both sides. *)
Definition join_claim (sa sb : string) (keys : list string)
  (rows_a rows_b : list TRow) : Prop :=
  let ji := mkJoiner InnerJoiner sa sb in
  let jo := mkJoiner OuterJoiner sa sb in
  exists inner,
    Join_call ji keys rows_a rows_b = Ok inner /\
    Forall2 (fun ab ans => collision_rule ji keys (fst ab) (snd ab) ans)
            (matching_pairs keys rows_a rows_b) inner /\
    exists outer,
      Join_call jo keys rows_a rows_b = Ok outer /\
      Permutation outer (inner ++ unmatched keys rows_a rows_b
                               ++ unmatched keys rows_b rows_a).

(** C1 (amended). For two streams sorted ascending by the key tuple, with key
    values in a domain on which [==] holds of identical values only and [<]
    is a strict total order that raises nothing, and such that the output
    names of every matching pair are pairwise distinct: the inner join emits
    exactly one row per pair of the Cartesian product of the two equal-key
    groups of each key value present in both streams, that row holding
    exactly the fields of the collision rule, and the outer join emits the
    rows of the inner join and the unmatched rows of both sides. *)
Theorem join_sorted_streams (dom : TKey -> Prop) (sa sb : string)
  (keys : list string) (rows_a rows_b : list TRow) :
  key_order dom ->
  Forall (keyed dom keys) rows_a ->
  Forall (keyed dom keys) rows_b ->
  sorted_by keys rows_a ->
  sorted_by keys rows_b ->
  (forall a b, In a rows_a -> In b rows_b -> same_keyb keys a b = true ->
               NoDup (out_names (mkJoiner InnerJoiner sa sb) keys a b)) ->
  join_claim sa sb keys rows_a rows_b.
Proof.
  intros Hord Ha Hb Hsa Hsb Hfresh. unfold join_claim.
  exists (inner_join_spec (mkJoiner InnerJoiner sa sb) keys rows_a rows_b).
  split; [|split].
  - destruct (Join_call_spec dom (mkJoiner InnerJoiner sa sb) keys rows_a rows_b
                Hord Ha Hb Hsa Hsb) as (out & Hout & _ & Hin).
    rewrite Hout. f_equal. now apply Hin.
  - apply (matching_pairs_merged (mkJoiner InnerJoiner sa sb) keys
             (fun ab ans =>
                collision_rule (mkJoiner InnerJoiner sa sb) keys
                               (fst ab) (snd ab) ans)).
    intros a b Hina Hinb Hsame. apply get_ans_collision_rule.
    + rewrite Forall_forall in Ha. destruct (Ha a Hina) as (k & Hk & _).
      now exists k.
    + now apply Hfresh.
  - destruct (Join_call_spec dom (mkJoiner OuterJoiner sa sb) keys rows_a rows_b
                Hord Ha Hb Hsa Hsb) as (out & Hout & Hperm & _).
    exists out. split; [assumption|exact Hperm].
Qed.

(** Tactics for concrete streams. *)
Ltac solve_keyed :=
  repeat (apply Forall_cons || apply Forall_nil);
  (eexists; split; [reflexivity|repeat constructor]).

Ltac solve_sorted :=
  repeat first
    [ apply Sorted_nil | apply Sorted_cons | apply HdRel_nil | apply HdRel_cons
    | (do 2 eexists; repeat split; reflexivity) ].

Ltac solve_nodup :=
  repeat (apply NoDup_cons || apply NoDup_nil);
  simpl; intuition discriminate.

Lemma join_sorted_streams_witness :
  join_claim "_1" "_2" ["k"]
    [[("k", VInt 1); ("v", VStr "L")]; [("k", VInt 3); ("v", VStr "M")]]
    [[("k", VInt 2); ("w", VStr "x")]; [("k", VInt 3); ("v", VStr "R")]].
Proof.
  apply (join_sorted_streams (key_shape [TInt]) "_1" "_2" ["k"]).
  - apply key_shape_order.
  - solve_keyed.
  - solve_keyed.
  - solve_sorted.
  - solve_sorted.
  - intros a b Ha Hb.
    simpl in Ha, Hb.
    destruct Ha as [<-|[<-|[]]]; destruct Hb as [<-|[<-|[]]];
      intros Hs; try discriminate Hs.
    vm_compute. solve_nodup.
Defined.

(** C1 (counterexample). With the default suffixes, the left row
    [{"k": 1, "v": "L", "v_1": "X"}] and the right row [{"k": 1, "v": "R"}]
    are joined to [{"k": 1, "v_1": "X", "v_2": "R"}]: the field ["v"] of both
    sides does not appear twice, the left copy is overwritten by the left
    field ["v_1"]. *)
Lemma join_claim_counterexample :
  Forall (keyed (key_shape [TInt]) ["k"])
    [[("k", VInt 1); ("v", VStr "L"); ("v_1", VStr "X")]] /\
  Forall (keyed (key_shape [TInt]) ["k"]) [[("k", VInt 1); ("v", VStr "R")]] /\
  sorted_by ["k"] [[("k", VInt 1); ("v", VStr "L"); ("v_1", VStr "X")]] /\
  sorted_by ["k"] [[("k", VInt 1); ("v", VStr "R")]] /\
  Join_call (default_joiner InnerJoiner) ["k"]
    [[("k", VInt 1); ("v", VStr "L"); ("v_1", VStr "X")]]
    [[("k", VInt 1); ("v", VStr "R")]] =
    Ok [[("k", VInt 1); ("v_1", VStr "X"); ("v_2", VStr "R")]] /\
  ~ join_claim "_1" "_2" ["k"]
      [[("k", VInt 1); ("v", VStr "L"); ("v_1", VStr "X")]]
      [[("k", VInt 1); ("v", VStr "R")]].
Proof.
  split; [solve_keyed|]. split; [solve_keyed|].
  split; [solve_sorted|]. split; [solve_sorted|].
  split; [reflexivity|].
  intros (inner & Hinner & HF & _).
  change (Ok [[("k", VInt 1); ("v_1", VStr "X"); ("v_2", VStr "R")]] =
          Ok inner) in Hinner.
  injection Hinner as <-.
  change (matching_pairs ["k"]
            [[("k", VInt 1); ("v", VStr "L"); ("v_1", VStr "X")]]
            [[("k", VInt 1); ("v", VStr "R")]])
    with [([("k", VInt 1); ("v", VStr "L"); ("v_1", VStr "X")],
           [("k", VInt 1); ("v", VStr "R")])] in HF.
  inversion HF as [|ab ans l l' [_ H] _]; subst.
  assert (H1 : dict_get "v_1"
                 [("k", VInt 1); ("v_1", VStr "X"); ("v_2", VStr "R")] =
               Some (VStr "L")).
  { apply H. right. left. exists "v". repeat split. }
  discriminate H1.
Qed.

(** ** Unmatched groups *)

(** C5. A group without a matching key on the other side is emitted as it
    was received by the strategies that keep its side (left groups by Left
    and Outer, right groups by Right and Outer) and is dropped by the others,
    Inner among them; so the join of two sorted streams emits the rows of the
    inner join and, unchanged, the unmatched rows its strategy keeps. *)
Theorem join_unmatched_as_received (dom : TKey -> Prop) (j : Joiner)
  (keys : list string) (rows_a rows_b : list TRow) :
  key_order dom ->
  Forall (keyed dom keys) rows_a ->
  Forall (keyed dom keys) rows_b ->
  sorted_by keys rows_a ->
  sorted_by keys rows_b ->
  (forall group,
      left_only j keys group =
        Ok match joiner_cls j with
           | LeftJoiner | OuterJoiner => group
           | InnerJoiner | RightJoiner => []
           end) /\
  (forall group,
      right_only j keys group =
        Ok match joiner_cls j with
           | RightJoiner | OuterJoiner => group
           | InnerJoiner | LeftJoiner => []
           end) /\
  exists out,
    Join_call j keys rows_a rows_b = Ok out /\
    Permutation out
      match joiner_cls j with
      | InnerJoiner => inner_join_spec j keys rows_a rows_b
      | LeftJoiner =>
          inner_join_spec j keys rows_a rows_b ++ unmatched keys rows_a rows_b
      | RightJoiner =>
          inner_join_spec j keys rows_a rows_b ++ unmatched keys rows_b rows_a
      | OuterJoiner =>
          inner_join_spec j keys rows_a rows_b ++
          unmatched keys rows_a rows_b ++ unmatched keys rows_b rows_a
      end.
Proof.
  intros Hord Ha Hb Hsa Hsb. split; [|split].
  - intros group. rewrite left_only_spec. unfold emits_left.
    now destruct (joiner_cls j).
  - intros group. rewrite right_only_spec. unfold emits_right.
    now destruct (joiner_cls j).
  - destruct (Join_call_spec dom j keys rows_a rows_b Hord Ha Hb Hsa Hsb)
      as (out & Hout & Hperm & _).
    exists out. split; [assumption|].
    unfold join_spec, emits_left, emits_right in Hperm.
    destruct (joiner_cls j); simpl in Hperm; rewrite ?app_nil_r in Hperm;
      exact Hperm.
Qed.

Lemma join_unmatched_as_received_witness :
  (forall group,
      left_only (default_joiner LeftJoiner) ["k"] group = Ok group) /\
  (forall group,
      right_only (default_joiner LeftJoiner) ["k"] group = Ok []) /\
  exists out,
    Join_call (default_joiner LeftJoiner) ["k"]
      [[("k", VInt 1); ("v", VStr "L")]; [("k", VInt 3); ("v", VStr "M")]]
      [[("k", VInt 2); ("v", VStr "x")]; [("k", VInt 3); ("v", VStr "R")]]
    = Ok out /\
    Permutation out
      ([[("k", VInt 3); ("v_1", VStr "M"); ("v_2", VStr "R")]] ++
       [[("k", VInt 1); ("v", VStr "L")]]).
Proof.
  apply (join_unmatched_as_received (key_shape [TInt])
           (default_joiner LeftJoiner) ["k"]
           [[("k", VInt 1); ("v", VStr "L")]; [("k", VInt 3); ("v", VStr "M")]]
           [[("k", VInt 2); ("v", VStr "x")]; [("k", VInt 3); ("v", VStr "R")]]).
  - apply key_shape_order.
  - solve_keyed.
  - solve_keyed.
  - solve_sorted.
  - solve_sorted.
Defined.

(** ** Rows as objects: the store and lazy streams

    The mappers assign to the row they are given and yield that same object,
    and a source factory may hand out the same row objects at every call.
    What a run yields then depends on which objects are shared, so [Graph.run]
    is embedded over a store of row objects.  A generator is a suspended
    computation: [next] runs it in a store up to its next [yield], its end or
    an exception.  Streams are finite, as the specification has them. *)

Definition ref : Type := nat.
Definition store : Type := list TRow.

Definition deref (st : store) (r : ref) : option TRow := nth_error st r.

(** A new dict object. *)
Definition alloc (st : store) (d : TRow) : store * ref :=
  (st ++ [d], List.length st).

(** Assignment into the object [r]. *)
Fixpoint write (st : store) (r : ref) (d : TRow) : store :=
  match st, r with
  | [], _ => []
  | _ :: st', O => d :: st'
  | d0 :: st', S r' => d0 :: write st' r' d
  end.

Inductive stream : Type :=
| Stream (next : store -> step)
with step : Type :=
| Done (st : store)
| Yield (st : store) (r : ref) (rest : stream)
| Fail (st : store) (e : exn).

Definition next (s : stream) : store -> step :=
  match s with Stream n => n end.

(** A generator that is exhausted. *)
Definition stream_nil : stream := Stream (fun st => Done st).

(** [yield from s1] and then go on as [s2]. *)
Fixpoint stream_app (s1 s2 : stream) {struct s1} : stream :=
  match s1 with
  | Stream n =>
      Stream (fun st =>
                match n st with
                | Done st' => next s2 st'
                | Yield st' r rest => Yield st' r (stream_app rest s2)
                | Fail st' e => Fail st' e
                end)
  end.

(** [list(s)]: the final store, the objects yielded and the exception that
    ended the stream, if any. *)
Fixpoint drain (s : stream) (st : store) {struct s}
  : store * list ref * option exn :=
  match s with
  | Stream n =>
      match n st with
      | Done st' => (st', [], None)
      | Yield st' r rest =>
          let '(st'', rs, e) := drain rest st' in (st'', r :: rs, e)
      | Fail st' e => (st', [], Some e)
      end
  end.

(** What the consumer of [list(s)] sees: the contents of the rows, in order,
    and the exception. *)
Definition observe (res : store * list ref * option exn)
  : list (option TRow) * option exn :=
  let '(st, rs, e) := res in (map (deref st) rs, e).

(** [iter(rows)] for a list of existing row objects. *)
Fixpoint iter_refs (rows : list ref) : stream :=
  match rows with
  | [] => stream_nil
  | r :: rows' => Stream (fun st => Yield st r (iter_refs rows'))
  end.

(** A source that makes a new row object for every row it delivers, as
    [Read] does with every line it parses. *)
Fixpoint fresh_rows (rows : list TRow) : stream :=
  match rows with
  | [] => stream_nil
  | d :: rows' =>
      Stream (fun st => let (st', r) := alloc st d in
                        Yield st' r (fresh_rows rows'))
  end.

(** [Map.__call__] on row objects:
    [for row in rows: for el in self.mapper(row): yield el] *)
Fixpoint Map_gen (mapper : ref -> stream) (rows : stream) {struct rows}
  : stream :=
  match rows with
  | Stream n =>
      Stream (fun st =>
                match n st with
                | Done st' => Done st'
                | Yield st' row rest =>
                    next (stream_app (mapper row) (Map_gen mapper rest)) st'
                | Fail st' e => Fail st' e
                end)
  end.

(** A mapper of the form [row[...] = ...; yield row]: [f] computes the new
    contents of the row. *)
Definition inplace (f : TRow -> result TRow) (row : ref) : stream :=
  Stream (fun st =>
            match deref st row with
            | None => Fail st InternalError
            | Some d =>
                match f d with
                | Ok d' => Yield (write st row d') row stream_nil
                | Raise e => Fail st e
                end
            end).

(** [DummyMapper.__call__] *)
Definition DummyMapper_gen (row : ref) : stream :=
  Stream (fun st => Yield st row stream_nil).

(** [Inverse.__call__] *)
Definition Inverse_gen (column_to_inverse : string) : ref -> stream :=
  inplace (Inverse_row column_to_inverse).

(** [Filter.__call__] *)
Definition Filter_gen (condition : TRow -> result bool) (row : ref) : stream :=
  Stream (fun st =>
            match deref st row with
            | None => Fail st InternalError
            | Some d =>
                match condition d with
                | Ok true => Yield st row stream_nil
                | Ok false => Done st
                | Raise e => Fail st e
                end
            end).

(** [Project.__call__]: the dict comprehension makes a new object. *)
Definition Project_gen (columns : list string) (row : ref) : stream :=
  Stream (fun st =>
            match deref st row with
            | None => Fail st InternalError
            | Some d =>
                let (st', r) := alloc st (Project_row columns d) in
                Yield st' r stream_nil
            end).

(** The loop of [Split.__call__]: a copy of the row per value. *)
Fixpoint Split_loop (column : string) (row : ref) (values : list string)
  : stream :=
  match values with
  | [] => stream_nil
  | value :: values' =>
      Stream (fun st =>
                match deref st row with
                | None => Fail st InternalError
                | Some d =>
                    let (st', new_row) :=
                      alloc st (dict_set column (VStr value) d) in
                    Yield st' new_row (Split_loop column row values')
                end)
  end.

(** [Split.__call__] *)
Definition Split_gen (column : string) (separator : option string)
  (row : ref) : stream :=
  Stream (fun st =>
            match deref st row with
            | None => Fail st InternalError
            | Some d =>
                match getitem d column with
                | Ok (VStr s) =>
                    next (Split_loop column row (str_split_ws s)) st
                | Ok _ => Fail st AttributeError
                | Raise e => Fail st e
                end
            end).

(** ** Graphs *)

(** The operations a graph holds.  [first] is the [__call__] of the operator
    object ([ops.Map(mapper)], [ops.Reduce(reducer, keys)],
    [ExternalSort(keys)]) and [joiner] that of [ops.Join(joiner, keys)];
    [second] is the [op] of the graph the builder was called on, [None] for a
    graph made by [Graph()] alone.  [GraphsJoiner] holds its two graphs with
    the plans they have when [join] is called: no method assigns to the [op]
    of a graph that exists. *)
Unset Elimination Schemes.
Inductive operation : Type :=
| ReadIterFactory (name : string)
| AddOperation (first : stream -> stream) (second : option operation)
| GraphsJoiner (joiner : stream -> stream -> stream) (g1 g2 : Graph)
with Graph : Type :=
| mkGraph (op : option operation).
Set Elimination Schemes.

Definition op (g : Graph) : option operation :=
  match g with mkGraph o => o end.

(** The keyword arguments of [run]: a factory per source name.  A factory is
    embedded as the stream its call returns. *)
Definition kwargs : Type := list (string * stream).

Fixpoint kwargs_get (name : string) (kw : kwargs) : option stream :=
  match kw with
  | [] => None
  | (n, factory) :: kw' =>
      if String.eqb name n then Some factory else kwargs_get name kw'
  end.

(** Calling [None], the [op] of a graph made by [Graph()] alone: the
    [TypeError] is raised at the first pull, in the generator that makes the
    call. *)
Definition call_None : stream := Stream (fun st => Fail st TypeError).

(** Calling an operation, and [Graph.run], with the keyword arguments. *)
Fixpoint call_op (o : operation) (kw : kwargs) {struct o} : stream :=
  match o with
  | ReadIterFactory name =>
      Stream (fun st =>
                match kwargs_get name kw with
                | None => Fail st (KeyError name)
                | Some factory => next factory st
                end)
  | AddOperation first (Some o') => first (call_op o' kw)
  | AddOperation first None => call_None
  | GraphsJoiner joiner g1 g2 => joiner (run g1 kw) (run g2 kw)
  end
with run (g : Graph) (kw : kwargs) {struct g} : stream :=
  match g with
  | mkGraph (Some o) => call_op o kw
  | mkGraph None => call_None
  end.

(** Graph objects live in a heap of their own; [Graph()] makes a new one. *)
Definition gheap : Type := list Graph.

Definition Graph_init (h : gheap) : gheap * nat :=
  (h ++ [mkGraph None], List.length h).

(** [graph.op = o] *)
Fixpoint set_op (h : gheap) (graph : nat) (o : operation) : gheap :=
  match h, graph with
  | [], _ => []
  | _ :: h', O => mkGraph (Some o) :: h'
  | g :: h', S graph' => g :: set_op h' graph' o
  end.

(** [Graph.graph_from_iter] *)
Definition graph_from_iter (name : string) (h : gheap) : nat * gheap :=
  let (h', graph) := Graph_init h in
  (graph, set_op h' graph (ReadIterFactory name)).

(** [Graph.map]: [None] when [self] is no graph object. *)
Definition Graph_map (self : nat) (mapper : ref -> stream) (h : gheap)
  : option (nat * gheap) :=
  let (h', graph) := Graph_init h in
  match nth_error h' self with
  | Some g => Some (graph, set_op h' graph (AddOperation (Map_gen mapper) (op g)))
  | None => None
  end.

(** [Graph.reduce], [Graph.sort] and [Graph.join], given the [__call__] of
    the operator object they construct. *)
Definition Graph_add (self : nat) (first : stream -> stream) (h : gheap)
  : option (nat * gheap) :=
  let (h', graph) := Graph_init h in
  match nth_error h' self with
  | Some g => Some (graph, set_op h' graph (AddOperation first (op g)))
  | None => None
  end.

Definition Graph_join (self : nat) (joiner : stream -> stream -> stream)
  (join_graph : nat) (h : gheap) : option (nat * gheap) :=
  let (h', graph) := Graph_init h in
  match nth_error h' self, nth_error h' join_graph with
  | Some g1, Some g2 =>
      Some (graph, set_op h' graph (GraphsJoiner joiner g1 g2))
  | _, _ => None
  end.

(** ** A source without a binding *)

(** An operator that pulls its input before anything else and lets the
    exception of that first pull through. *)
Definition strict (first : stream -> stream) : Prop :=
  forall s st e, next s st = Fail st e -> next (first s) st = Fail st e.

Definition strict_left (joiner : stream -> stream -> stream) : Prop :=
  forall s1 s2 st e,
    next s1 st = Fail st e -> next (joiner s1 s2) st = Fail st e.

(** The first pull of the operation reaches the source [name]. *)
Inductive reads_first (name : string) : operation -> Prop :=
| reads_leaf : reads_first name (ReadIterFactory name)
| reads_add (first : stream -> stream) (second : operation) :
    strict first ->
    reads_first name second ->
    reads_first name (AddOperation first (Some second))
| reads_join (joiner : stream -> stream -> stream) (o1 : operation)
    (g2 : Graph) :
    strict_left joiner ->
    reads_first name o1 ->
    reads_first name (GraphsJoiner joiner (mkGraph (Some o1)) g2).

Lemma Map_gen_strict (mapper : ref -> stream) : strict (Map_gen mapper).
Proof.
  intros [n] st e H. simpl in *. now rewrite H.
Qed.

(** C4 (amended). When the name of a named iterator source has no binding
    among the keyword arguments of [run], the first pull on the output of a
    graph whose stages pull that source first (map stages do) raises Python's
    [KeyError] for that name and leaves the store as it was: draining the
    output yields no row and that exception. *)
Theorem run_missing_source_KeyError (name : string) (kw : kwargs)
  (o : operation) :
  kwargs_get name kw = None ->
  reads_first name o ->
  forall st,
    next (run (mkGraph (Some o)) kw) st = Fail st (KeyError name) /\
    drain (run (mkGraph (Some o)) kw) st = (st, [], Some (KeyError name)).
Proof.
  intros Hkw Hreads st.
  assert (H : next (call_op o kw) st = Fail st (KeyError name)).
  { induction Hreads as [|first second Hstrict _ IH|joiner o1 g2 Hstrict _ IH];
      simpl.
    - now rewrite Hkw.
    - now apply Hstrict.
    - now apply Hstrict. }
  split; [exact H|].
  simpl. destruct (call_op o kw) as [n]. simpl in *. now rewrite H.
Qed.

Lemma run_missing_source_KeyError_witness :
  next (run (mkGraph (Some (AddOperation (Map_gen (Inverse_gen "pmi"))
                              (Some (ReadIterFactory "docs")))))
            [("texts", iter_refs [0%nat])]) [[("pmi", VInt 1)]] =
    Fail [[("pmi", VInt 1)]] (KeyError "docs") /\
  drain (run (mkGraph (Some (AddOperation (Map_gen (Inverse_gen "pmi"))
                               (Some (ReadIterFactory "docs")))))
             [("texts", iter_refs [0%nat])]) [[("pmi", VInt 1)]] =
    ([[("pmi", VInt 1)]], [], Some (KeyError "docs")).
Proof.
  apply (run_missing_source_KeyError "docs" [("texts", iter_refs [0%nat])]).
  - reflexivity.
  - apply reads_add; [apply Map_gen_strict|apply reads_leaf].
Defined.

(** C4 (counterexample). The graph of [Graph.graph_from_iter("docs")], run
    with no keyword argument: draining the output raises [KeyError("docs")],
    which is not [ConfigError]. *)
Lemma run_missing_source_counterexample :
  snd (graph_from_iter "docs" []) = [mkGraph (Some (ReadIterFactory "docs"))] /\
  drain (run (mkGraph (Some (ReadIterFactory "docs"))) []) [] =
    ([], [], Some (KeyError "docs")) /\
  snd (drain (run (mkGraph (Some (ReadIterFactory "docs"))) []) []) <>
    Some ConfigError.
Proof.
  split; [reflexivity|]. split; [reflexivity|]. simpl. discriminate.
Qed.

(** ** Two runs of one graph

    [sim p p' s s']: the streams [s] and [s'] do the same in the stores
    [p ++ t] and [p' ++ t], for every [t]: they touch and yield only objects
    of [t], at the same positions of it, and leave [p] and [p'] alone. *)

Inductive sim (p p' : store) : stream -> stream -> Prop :=
| sim_intro (s s' : stream) :
    (forall t, sim_step p p' (next s (p ++ t)) (next s' (p' ++ t))) ->
    sim p p' s s'
with sim_step (p p' : store) : step -> step -> Prop :=
| sim_done (t : store) : sim_step p p' (Done (p ++ t)) (Done (p' ++ t))
| sim_yield (t : store) (i : nat) (rest rest' : stream) :
    sim p p' rest rest' ->
    sim_step p p' (Yield (p ++ t) (List.length p + i)%nat rest)
                  (Yield (p' ++ t) (List.length p' + i)%nat rest')
| sim_fail (t : store) (e : exn) :
    sim_step p p' (Fail (p ++ t) e) (Fail (p' ++ t) e).

Scheme sim_mut := Minimality for sim Sort Prop
  with sim_step_mut := Minimality for sim_step Sort Prop.

(** A factory whose stream makes its own rows. *)
Definition local_source (factory : stream) : Prop :=
  forall p p', sim p p' factory factory.

(** A mapper that touches only the row it is given and rows it makes. *)
Definition local_mapper (mapper : ref -> stream) : Prop :=
  forall p p' i,
    sim p p' (mapper (List.length p + i)%nat) (mapper (List.length p' + i)%nat).

Definition local_op (first : stream -> stream) : Prop :=
  forall p p' s s', sim p p' s s' -> sim p p' (first s) (first s').

Definition local_op2 (joiner : stream -> stream -> stream) : Prop :=
  forall p p' s1 s1' s2 s2',
    sim p p' s1 s1' -> sim p p' s2 s2' ->
    sim p p' (joiner s1 s2) (joiner s1' s2').

Lemma sim_next (p p' : store) (s s' : stream) (t : store) :
  sim p p' s s' -> sim_step p p' (next s (p ++ t)) (next s' (p' ++ t)).
Proof. intros H. destruct H as [s s' H]. apply H. Qed.

Lemma sim_nil (p p' : store) : sim p p' stream_nil stream_nil.
Proof. constructor. intros t. simpl. constructor. Qed.

Lemma sim_app (p p' : store) (s1 s1' s2 s2' : stream) :
  sim p p' s1 s1' -> sim p p' s2 s2' ->
  sim p p' (stream_app s1 s2) (stream_app s1' s2').
Proof.
  intros H1 H2. revert s1 s1' H1.
  apply (sim_mut p p'
           (fun s1 s1' => sim p p' (stream_app s1 s2) (stream_app s1' s2'))
           (fun x x' =>
              sim_step p p'
                match x with
                | Done st' => next s2 st'
                | Yield st' r rest => Yield st' r (stream_app rest s2)
                | Fail st' e => Fail st' e
                end
                match x' with
                | Done st' => next s2' st'
                | Yield st' r rest => Yield st' r (stream_app rest s2')
                | Fail st' e => Fail st' e
                end)).
  - intros [n] [n'] _ IH. constructor. intros t. simpl. apply IH.
  - intros t. now apply sim_next.
  - intros t i rest rest' _ IH. now constructor.
  - intros t e. constructor.
Qed.

Lemma sim_Map_gen (mapper : ref -> stream) :
  local_mapper mapper -> local_op (Map_gen mapper).
Proof.
  intros Hm p p'.
  apply (sim_mut p p'
           (fun s s' => sim p p' (Map_gen mapper s) (Map_gen mapper s'))
           (fun x x' =>
              sim_step p p'
                match x with
                | Done st' => Done st'
                | Yield st' row rest =>
                    next (stream_app (mapper row) (Map_gen mapper rest)) st'
                | Fail st' e => Fail st' e
                end
                match x' with
                | Done st' => Done st'
                | Yield st' row rest =>
                    next (stream_app (mapper row) (Map_gen mapper rest)) st'
                | Fail st' e => Fail st' e
                end)).
  - intros [n] [n'] _ IH. constructor. intros t. simpl. apply IH.
  - intros t. constructor.
  - intros t i rest rest' _ IH. apply sim_next.
    apply sim_app; [apply Hm|exact IH].
  - intros t e. constructor.
Qed.

Lemma deref_app (p t : store) (i : nat) :
  deref (p ++ t) (List.length p + i)%nat = deref t i.
Proof.
  unfold deref. rewrite nth_error_app2 by lia. f_equal. lia.
Qed.

Lemma write_app (p t : store) (i : nat) (d : TRow) :
  write (p ++ t) (List.length p + i)%nat d = p ++ write t i d.
Proof.
  induction p as [|d0 p IH]; simpl; [reflexivity|]. now rewrite IH.
Qed.

Lemma local_fresh_rows (rows : list TRow) : local_source (fresh_rows rows).
Proof.
  intros p p'. induction rows as [|d rows IH]; simpl.
  - apply sim_nil.
  - constructor. intros t. simpl. rewrite <- ?app_assoc, ?length_app. now constructor.
Qed.

Lemma local_DummyMapper : local_mapper DummyMapper_gen.
Proof.
  intros p p' i. constructor. intros t. simpl. constructor. apply sim_nil.
Qed.

Lemma local_inplace (f : TRow -> result TRow) : local_mapper (inplace f).
Proof.
  intros p p' i. constructor. intros t. simpl. rewrite !deref_app.
  destruct (deref t i) as [d|]; [|constructor].
  destruct (f d) as [d'|e]; [|constructor].
  rewrite !write_app. constructor. apply sim_nil.
Qed.

Lemma local_Inverse (column : string) : local_mapper (Inverse_gen column).
Proof. apply local_inplace. Qed.

Lemma local_Filter (condition : TRow -> result bool) :
  local_mapper (Filter_gen condition).
Proof.
  intros p p' i. constructor. intros t. simpl. rewrite !deref_app.
  destruct (deref t i) as [d|]; [|constructor].
  destruct (condition d) as [[|]|e]; constructor. apply sim_nil.
Qed.

Lemma local_Project (columns : list string) :
  local_mapper (Project_gen columns).
Proof.
  intros p p' i. constructor. intros t. simpl. rewrite !deref_app.
  destruct (deref t i) as [d|]; [|constructor].
  rewrite <- ?app_assoc, ?length_app. constructor. apply sim_nil.
Qed.

Lemma local_Split_loop (column : string) (values : list string) :
  local_mapper (fun row => Split_loop column row values).
Proof.
  intros p p' i. induction values as [|value values IH]; simpl.
  - apply sim_nil.
  - constructor. intros t. simpl. rewrite !deref_app.
    destruct (deref t i) as [d|]; [|constructor].
    rewrite <- ?app_assoc, ?length_app. now constructor.
Qed.

Lemma local_Split (column : string) (separator : option string) :
  local_mapper (Split_gen column separator).
Proof.
  intros p p' i. constructor. intros t. simpl. rewrite !deref_app.
  destruct (deref t i) as [d|]; [|constructor].
  destruct (getitem d column) as [[z|f|s]|e]; try constructor.
  apply sim_next. apply (local_Split_loop column (str_split_ws s)).
Qed.

(** The graphs whose sources and stages are local. *)
Inductive local_operation : operation -> Prop :=
| local_leaf (name : string) : local_operation (ReadIterFactory name)
| local_add (first : stream -> stream) (second : operation) :
    local_op first ->
    local_operation second ->
    local_operation (AddOperation first (Some second))
| local_add_None (first : stream -> stream) :
    local_operation (AddOperation first None)
| local_join (joiner : stream -> stream -> stream) (o1 o2 : operation) :
    local_op2 joiner ->
    local_operation o1 ->
    local_operation o2 ->
    local_operation (GraphsJoiner joiner (mkGraph (Some o1)) (mkGraph (Some o2))).

Definition local_kwargs (kw : kwargs) : Prop :=
  Forall (fun nf => local_source (snd nf)) kw.

Lemma local_kwargs_get (kw : kwargs) (name : string) (factory : stream) :
  local_kwargs kw -> kwargs_get name kw = Some factory -> local_source factory.
Proof.
  induction 1 as [|[n f] kw Hf _ IH]; simpl; [discriminate|].
  destruct (String.eqb name n); [now intros [= <-]|exact IH].
Qed.

Lemma sim_call_op (kw : kwargs) (o : operation) :
  local_kwargs kw -> local_operation o ->
  forall p p', sim p p' (call_op o kw) (call_op o kw).
Proof.
  intros Hkw Ho p p'.
  induction Ho as [name|first second Hf _ IH|first
                  |joiner o1 o2 Hj _ IH1 _ IH2]; simpl.
  - constructor. intros t. simpl.
    destruct (kwargs_get name kw) as [factory|] eqn:E; [|constructor].
    apply sim_next. now apply (local_kwargs_get kw name).
  - now apply Hf.
  - constructor. intros t. simpl. constructor.
  - now apply Hj.
Qed.

(** [for _ in range(times): yield row] *)
Fixpoint Reveal_loop (row : ref) (times : nat) : stream :=
  match times with
  | O => stream_nil
  | S times' => Stream (fun st => Yield st row (Reveal_loop row times'))
  end.

(** [Reveal.__call__]: the column is deleted from the row before [range]
    looks at its value. *)
Definition Reveal_gen (column_to_reveal : string) (row : ref) : stream :=
  Stream (fun st =>
            match deref st row with
            | None => Fail st InternalError
            | Some d =>
                match getitem d column_to_reveal with
                | Raise e => Fail st e
                | Ok times =>
                    let st' := write st row (dict_del column_to_reveal d) in
                    match times with
                    | VInt z => next (Reveal_loop row (Z.to_nat z)) st'
                    | _ => Fail st' TypeError
                    end
                end
            end).

Lemma local_Reveal_loop (times : nat) :
  local_mapper (fun row => Reveal_loop row times).
Proof.
  intros p p' i. induction times as [|times IH]; simpl.
  - apply sim_nil.
  - constructor. intros t. simpl. now constructor.
Qed.

Lemma local_Reveal (column : string) : local_mapper (Reveal_gen column).
Proof.
  intros p p' i. constructor. intros t. simpl. rewrite !deref_app.
  destruct (deref t i) as [d|]; [|constructor].
  destruct (getitem d column) as [[z|f|s]|e]; rewrite ?write_app;
    try constructor.
  apply sim_next. apply (local_Reveal_loop (Z.to_nat z)).
Qed.

(** Draining a step. *)
Definition drain_step (x : step) : store * list ref * option exn :=
  match x with
  | Done st' => (st', [], None)
  | Yield st' r rest =>
      let '(st'', rs, e) := drain rest st' in (st'', r :: rs, e)
  | Fail st' e => (st', [], Some e)
  end.

Lemma drain_next (s : stream) (st : store) :
  drain s st = drain_step (next s st).
Proof. destruct s; reflexivity. Qed.

Lemma sim_drain (p p' : store) (s s' : stream) :
  sim p p' s s' ->
  forall t, exists t' rs e,
    drain s (p ++ t) = (p ++ t', map (Nat.add (List.length p)) rs, e) /\
    drain s' (p' ++ t) = (p' ++ t', map (Nat.add (List.length p')) rs, e).
Proof.
  apply (sim_mut p p'
           (fun s s' =>
              forall t, exists t' rs e,
                drain s (p ++ t) =
                  (p ++ t', map (Nat.add (List.length p)) rs, e) /\
                drain s' (p' ++ t) =
                  (p' ++ t', map (Nat.add (List.length p')) rs, e))
           (fun x x' =>
              exists t' rs e,
                drain_step x =
                  (p ++ t', map (Nat.add (List.length p)) rs, e) /\
                drain_step x' =
                  (p' ++ t', map (Nat.add (List.length p')) rs, e))).
  - intros s0 s0' _ IH t. rewrite !drain_next. apply IH.
  - intros t. exists t, [], None. split; reflexivity.
  - intros t i rest rest' _ IH.
    destruct (IH t) as (t' & rs & e & H1 & H2).
    exists t', (i :: rs), e. simpl. rewrite H1, H2. split; reflexivity.
  - intros t e. exists t, [], (Some e). split; reflexivity.
Qed.

Lemma observe_app (p t : store) (rs : list nat) (e : option exn) :
  observe (p ++ t, map (Nat.add (List.length p)) rs, e) = (map (deref t) rs, e).
Proof.
  unfold observe. f_equal. rewrite map_map. apply map_ext.
  intros i. apply deref_app.
Qed.

Lemma map_add_inj (n : nat) (l1 l2 : list nat) :
  map (Nat.add n) l1 = map (Nat.add n) l2 -> l1 = l2.
Proof.
  revert l2. induction l1 as [|a l1 IH]; intros [|b l2]; simpl;
    try discriminate; [reflexivity|].
  intros [= Hab Hl]. f_equal; [lia|now apply IH].
Qed.

(** What the consumer sees of two successive runs of a graph: the second run
    starts in the store the first one leaves. *)
Definition two_runs (g : Graph) (kw : kwargs) (st : store)
  : (list (option TRow) * option exn) * (list (option TRow) * option exn) :=
  let r1 := drain (run g kw) st in
  let r2 := drain (run g kw) (fst (fst r1)) in
  (observe r1, observe r2).

Lemma two_runs_local (o : operation) (kw : kwargs) (st : store) :
  local_kwargs kw -> local_operation o ->
  fst (two_runs (mkGraph (Some o)) kw st) =
  snd (two_runs (mkGraph (Some o)) kw st).
Proof.
  intros Hkw Ho. unfold two_runs. cbn [fst snd run].
  destruct (sim_drain st st _ _ (sim_call_op kw o Hkw Ho st st) [])
    as (t1 & rs1 & e1 & H1 & _).
  rewrite app_nil_r in H1. rewrite H1. cbn [fst].
  destruct (sim_drain st (st ++ t1) _ _ (sim_call_op kw o Hkw Ho st (st ++ t1)) [])
    as (t2 & rs2 & e2 & H2 & H3).
  rewrite app_nil_r in H2, H3. rewrite H1 in H2. injection H2 as Ht Hrs He.
  apply app_inv_head in Ht. apply map_add_inj in Hrs. subst t2 rs2 e2.
  now rewrite H3, !observe_app.
Qed.

Lemma set_op_last (h : gheap) (g : Graph) (o : operation) :
  set_op (h ++ [g]) (List.length h) o = h ++ [mkGraph (Some o)].
Proof.
  induction h as [|g0 h IH]; simpl; [reflexivity|]. now rewrite IH.
Qed.

(** C6 (amended). [g.map(m)] returns a new graph object, whose plan is the
    map stage on top of the plan of [g], and leaves every graph object there
    was, [g] among them, as it was.  Two successive runs of [g] with the same
    source bindings show the consumer the same rows and the same exception
    when every source factory makes its own row objects at each call and
    every stage touches only the rows of its input and the rows it makes. *)
Theorem Graph_map_new_and_runs_agree (self : nat) (mapper : ref -> stream)
  (h : gheap) (g : Graph) :
  nth_error h self = Some g ->
  (exists h',
      Graph_map self mapper h = Some (List.length h, h') /\
      self <> List.length h /\
      (forall g0, (g0 < List.length h)%nat -> nth_error h' g0 = nth_error h g0) /\
      nth_error h' (List.length h) =
        Some (mkGraph (Some (AddOperation (Map_gen mapper) (op g))))) /\
  (forall o kw st,
      op g = Some o -> local_kwargs kw -> local_operation o ->
      fst (two_runs g kw st) = snd (two_runs g kw st)).
Proof.
  intros Hg.
  assert (Hlt : (self < List.length h)%nat).
  { apply nth_error_Some. congruence. }
  split.
  - exists (h ++ [mkGraph (Some (AddOperation (Map_gen mapper) (op g)))]).
    unfold Graph_map, Graph_init.
    rewrite nth_error_app1, Hg by assumption. rewrite set_op_last.
    split; [reflexivity|]. split; [lia|]. split.
    + intros g0 H0. now rewrite nth_error_app1.
    + rewrite nth_error_app2 by lia. now rewrite Nat.sub_diag.
  - intros o kw st Ho Hkw Hl. destruct g as [o']. simpl in Ho. subst o'.
    now apply two_runs_local.
Qed.

Lemma Graph_map_new_and_runs_agree_witness :
  (exists h',
      Graph_map 0 (Inverse_gen "pmi")
        [mkGraph (Some (ReadIterFactory "docs"))] = Some (1%nat, h') /\
      0%nat <> 1%nat /\
      (forall g0, (g0 < 1)%nat ->
                  nth_error h' g0 =
                    nth_error [mkGraph (Some (ReadIterFactory "docs"))] g0) /\
      nth_error h' 1 =
        Some (mkGraph (Some (AddOperation (Map_gen (Inverse_gen "pmi"))
                               (Some (ReadIterFactory "docs")))))) /\
  (forall o kw st,
      Some (ReadIterFactory "docs") = Some o ->
      local_kwargs kw -> local_operation o ->
      fst (two_runs (mkGraph (Some (ReadIterFactory "docs"))) kw st) =
      snd (two_runs (mkGraph (Some (ReadIterFactory "docs"))) kw st)).
Proof.
  apply (Graph_map_new_and_runs_agree 0 (Inverse_gen "pmi")
           [mkGraph (Some (ReadIterFactory "docs"))]
           (mkGraph (Some (ReadIterFactory "docs")))).
  reflexivity.
Defined.

(** Two runs of the graph [graph_from_iter("docs").map(Inverse("pmi"))] over
    a source of fresh rows agree. *)
Example two_runs_Inverse_fresh (st : store) :
  fst (two_runs (mkGraph (Some (AddOperation (Map_gen (Inverse_gen "pmi"))
                                  (Some (ReadIterFactory "docs")))))
         [("docs", fresh_rows [[("pmi", VInt 2)]])] st) =
  snd (two_runs (mkGraph (Some (AddOperation (Map_gen (Inverse_gen "pmi"))
                                  (Some (ReadIterFactory "docs")))))
         [("docs", fresh_rows [[("pmi", VInt 2)]])] st).
Proof.
  apply two_runs_local.
  - constructor; [apply local_fresh_rows|constructor].
  - apply local_add; [apply sim_Map_gen, local_Inverse|apply local_leaf].
Qed.

(** C6 (counterexample). The graph [graph_from_iter("docs").map(Reveal("n"))]
    run twice with the factory [lambda: iter(rows)] over the one row object
    [{"w": "a", "n": 2}]: the first run yields the row twice and deletes its
    field ["n"], the second run raises [KeyError("n")] and yields nothing. *)
Lemma two_runs_counterexample :
  two_runs (mkGraph (Some (AddOperation (Map_gen (Reveal_gen "n"))
                             (Some (ReadIterFactory "docs")))))
    [("docs", iter_refs [0%nat])]
    [[("w", VStr "a"); ("n", VInt 2)]] =
    (([Some [("w", VStr "a")]; Some [("w", VStr "a")]], None),
     ([], Some (KeyError "n"))) /\
  fst (two_runs (mkGraph (Some (AddOperation (Map_gen (Reveal_gen "n"))
                                  (Some (ReadIterFactory "docs")))))
         [("docs", iter_refs [0%nat])]
         [[("w", VStr "a"); ("n", VInt 2)]]) <>
  snd (two_runs (mkGraph (Some (AddOperation (Map_gen (Reveal_gen "n"))
                                  (Some (ReadIterFactory "docs")))))
         [("docs", iter_refs [0%nat])]
         [[("w", VStr "a"); ("n", VInt 2)]]).
Proof.
  split; [reflexivity|]. vm_compute. discriminate.
Qed.

(** ** External sort

    [graph.py] imports the operator from [compgraph/external_sort.py], a
    module that is missing; the sort is modelled from section 4.4 of the
    specification. *)

(** A row with its key value. *)
Definition krow : Type := (TKey * TRow)%type.

(** [x < y] on key values, as a boolean. *)
Definition key_ltb (x y : TKey) : bool :=
  match key_lt x y with
  | Ok true => true
  | _ => false
  end.

Definition krow_ltb (x y : krow) : bool := key_ltb (fst x) (fst y).

(** Modelled from the spec: the stable in-memory sort of a buffer by the key
    (the module [external_sort] is missing).  A row is put in front of the
    sorted rows that came after it unless one of them has a smaller key. *)
Fixpoint insert_krow (x : krow) (l : list krow) : list krow :=
  match l with
  | [] => [x]
  | y :: l' => if krow_ltb y x then y :: insert_krow x l' else x :: y :: l'
  end.

(** Modelled from the spec: the sort of one buffer (the module
    [external_sort] is missing), by insertion from the last row to the
    first. *)
Definition sort_buffer (buf : list krow) : list krow :=
  fold_right insert_krow [] buf.

(** Modelled from the spec: run generation (the module [external_sort] is
    missing).  Rows are accumulated in a buffer; when the row budget is
    reached the buffer is a run; the final partial buffer is the last run. *)
Fixpoint generate_runs (budget : nat) (buf : list krow) (rows : list krow)
  : list (list krow) :=
  match rows with
  | [] => match buf with [] => [] | _ :: _ => [buf] end
  | row :: rows' =>
      let buf' := buf ++ [row] in
      if (budget <=? List.length buf')%nat
      then buf' :: generate_runs budget [] rows'
      else generate_runs budget buf' rows'
  end.

(** Modelled from the spec: the pop of the priority queue keyed by
    (key value, run index) over the heads of the runs (the module
    [external_sort] is missing): the head of a later run is taken only when
    its key is smaller than the head of this run. *)
Fixpoint pop_min (runs : list (list krow))
  : option (krow * list (list krow)) :=
  match runs with
  | [] => None
  | [] :: runs' =>
      match pop_min runs' with
      | None => None
      | Some (y, rest) => Some (y, [] :: rest)
      end
  | (x :: run) :: runs' =>
      match pop_min runs' with
      | None => Some (x, run :: runs')
      | Some (y, rest) =>
          if krow_ltb y x then Some (y, (x :: run) :: rest)
          else Some (x, run :: runs')
      end
  end.

(** Modelled from the spec: the k-way merge (the module [external_sort] is
    missing): pop the smallest, yield its row, advance that run, until the
    queue is empty.  [fuel] bounds the number of rows. *)
Fixpoint kway_merge (fuel : nat) (runs : list (list krow)) : list krow :=
  match fuel with
  | O => []
  | S fuel' =>
      match pop_min runs with
      | None => []
      | Some (x, rest) => x :: kway_merge fuel' rest
      end
  end.

(** Modelled from the spec: [ExternalSort(keys)] with a budget of [budget]
    rows (the module [external_sort] is missing).  An input that fits in the
    first buffer is sorted in memory; a row without a key field is the
    [ConfigError] of an unknown field name. *)
Definition ExternalSort_call (keys : list string) (budget : nat)
  (rows : list TRow) : result (list TRow) :=
  krows <- mapM (fun row =>
                   match key_of keys row with
                   | Ok k => Ok (k, row)
                   | Raise _ => Raise ConfigError
                   end) rows ;;
  match generate_runs budget [] krows with
  | [] => Ok []
  | [buf] => Ok (map snd (sort_buffer buf))
  | runs => Ok (map snd (kway_merge (List.length krows)
                                    (map sort_buffer runs)))
  end.

Example ExternalSort_call_ex :
  ExternalSort_call ["x"] 2
    [[("x", VInt 3); ("i", VInt 0)]; [("x", VInt 1); ("i", VInt 1)];
     [("x", VInt 3); ("i", VInt 2)]; [("x", VInt 2); ("i", VInt 3)];
     [("x", VInt 1); ("i", VInt 4)]] =
  Ok [[("x", VInt 1); ("i", VInt 1)]; [("x", VInt 1); ("i", VInt 4)];
      [("x", VInt 2); ("i", VInt 3)];
      [("x", VInt 3); ("i", VInt 0)]; [("x", VInt 3); ("i", VInt 2)]].
Proof. reflexivity. Qed.

Section StableSort.
Variable dom : TKey -> Prop.
Hypothesis Hord : key_order dom.

Definition kdom (x : krow) : Prop := dom (fst x).

(** [x <= y]: the key of [y] is not less than the key of [x]. *)
Definition krow_le (x y : krow) : Prop := kle (fst x) (fst y).

(** The rows with the key value [k]. *)
Definition with_key (k : TKey) (x : krow) : bool := key_eq (fst x) k.

Lemma key_ltb_klt (a b : TKey) : key_ltb a b = true <-> klt a b.
Proof.
  unfold key_ltb, klt. destruct (key_lt a b) as [[|]|]; split; congruence.
Qed.

Lemma key_ltb_false_kle (a b : TKey) :
  dom a -> dom b -> (key_ltb a b = false <-> kle b a).
Proof.
  intros Ha Hb. unfold key_ltb, kle.
  destruct (ko_defined dom Hord a b Ha Hb) as [c ->].
  destruct c; split; congruence.
Qed.

Lemma with_key_lt_false (k : TKey) (x y : krow) :
  dom k -> kdom x -> kdom y ->
  krow_ltb y x = true -> with_key k x = true -> with_key k y = false.
Proof.
  unfold with_key, krow_ltb, kdom. intros Hk Hx Hy Hlt Hxk.
  apply key_ltb_klt in Hlt.
  apply (ko_eq dom Hord _ _ Hx Hk) in Hxk.
  destruct (key_eq (fst y) k) eqn:E; [|reflexivity].
  apply (ko_eq dom Hord _ _ Hy Hk) in E.
  rewrite Hxk, E in Hlt. now apply (ko_irrefl dom Hord) in Hlt.
Qed.

Lemma insert_krow_perm (x : krow) (l : list krow) :
  Permutation (x :: l) (insert_krow x l).
Proof.
  induction l as [|y l IH]; simpl; [apply Permutation_refl|].
  destruct (krow_ltb y x); [|apply Permutation_refl].
  rewrite perm_swap. now constructor.
Qed.

Lemma insert_krow_sorted (x : krow) (l : list krow) :
  kdom x -> Forall kdom l ->
  StronglySorted krow_le l -> StronglySorted krow_le (insert_krow x l).
Proof.
  intros Hx Hl Hs. induction Hs as [|y l Hs IH Hy]; simpl.
  - repeat constructor.
  - inversion Hl as [|? ? Hdy Hl']; subst.
    destruct (krow_ltb y x) eqn:E.
    + constructor; [now apply IH|].
      rewrite <- (insert_krow_perm x l). constructor; [|assumption].
      apply key_ltb_klt in E. now apply (klt_kle dom Hord).
    + apply (key_ltb_false_kle _ _ Hdy Hx) in E.
      constructor; [now constructor|]. constructor; [exact E|].
      rewrite Forall_forall in *. intros z Hz.
      apply (kle_trans dom Hord (fst x) (fst y) (fst z)); auto.
      * now apply Hl'.
      * now apply Hy.
Qed.

Lemma insert_krow_stable (k : TKey) (x : krow) (l : list krow) :
  dom k -> kdom x -> Forall kdom l ->
  filter (with_key k) (insert_krow x l) = filter (with_key k) (x :: l).
Proof.
  intros Hk Hx Hl. induction Hl as [|y l Hy Hl IH]; [reflexivity|].
  simpl insert_krow. destruct (krow_ltb y x) eqn:E; [|reflexivity].
  simpl. simpl in IH. rewrite IH.
  destruct (with_key k x) eqn:Ex; [|reflexivity].
  now rewrite (with_key_lt_false k x y Hk Hx Hy E Ex).
Qed.

Lemma sort_buffer_perm (buf : list krow) : Permutation buf (sort_buffer buf).
Proof.
  induction buf as [|x buf IH]; simpl; [constructor|].
  rewrite <- insert_krow_perm. now constructor.
Qed.

Lemma sort_buffer_dom (buf : list krow) :
  Forall kdom buf -> Forall kdom (sort_buffer buf).
Proof.
  intros H. now rewrite <- (sort_buffer_perm buf).
Qed.

Lemma sort_buffer_sorted (buf : list krow) :
  Forall kdom buf -> StronglySorted krow_le (sort_buffer buf).
Proof.
  induction 1 as [|x buf Hx Hbuf IH]; simpl; [constructor|].
  apply insert_krow_sorted; auto. now apply sort_buffer_dom.
Qed.

Lemma sort_buffer_stable (k : TKey) (buf : list krow) :
  dom k -> Forall kdom buf ->
  filter (with_key k) (sort_buffer buf) = filter (with_key k) buf.
Proof.
  intros Hk. induction 1 as [|x buf Hx Hbuf IH]; [reflexivity|].
  simpl sort_buffer. rewrite insert_krow_stable; auto.
  - simpl. now rewrite IH.
  - now apply sort_buffer_dom.
Qed.
End StableSort.

Lemma generate_runs_concat (budget : nat) (buf rows : list krow) :
  List.concat (generate_runs budget buf rows) = buf ++ rows.
Proof.
  revert buf. induction rows as [|row rows IH]; intros buf; simpl.
  - destruct buf; simpl; now rewrite ?app_nil_r.
  - destruct (budget <=? List.length (buf ++ [row]))%nat; simpl; rewrite IH.
    + now rewrite <- app_assoc.
    + now rewrite <- app_assoc.
Qed.

Section KWayMerge.
Variable dom : TKey -> Prop.
Hypothesis Hord : key_order dom.

Definition sorted_runs (runs : list (list krow)) : Prop :=
  Forall (fun run => Forall (kdom dom) run /\ StronglySorted krow_le run) runs.

(** The row [pop_min] takes: the rows before it in the runs have greater
    keys, the rows after it have keys that are not less. *)
Definition popped (runs : list (list krow)) (x : krow)
  (rest : list (list krow)) : Prop :=
  exists pre post,
    List.concat runs = pre ++ x :: post /\
    List.concat rest = pre ++ post /\
    Forall (fun y => krow_ltb x y = true) pre /\
    Forall (krow_le x) post /\
    kdom dom x /\
    sorted_runs rest.

Lemma krow_le_of_ltb (x y : krow) :
  kdom dom x -> kdom dom y -> krow_ltb x y = true -> krow_le x y.
Proof.
  intros Hx Hy H. apply key_ltb_klt in H. now apply (klt_kle dom Hord).
Qed.

Lemma pop_min_spec (runs : list (list krow)) :
  sorted_runs runs ->
  match pop_min runs with
  | None => List.concat runs = []
  | Some (x, rest) => popped runs x rest
  end.
Proof.
  induction 1 as [|run runs [Hd Hs] Hruns IH]; simpl; [reflexivity|].
  assert (Hall : Forall (kdom dom) (List.concat runs)).
  { clear - Hruns. induction Hruns as [|r rs [Hr _] _ IHr]; simpl;
      [constructor|]. apply Forall_app. now split. }
  destruct run as [|x run].
  - destruct (pop_min runs) as [[y rest]|]; [|assumption].
    destruct IH as (pre & post & H1 & H2 & H3 & H4 & H5 & H6).
    exists pre, post. simpl. repeat split; auto.
    constructor; [split; constructor|assumption].
  - inversion Hd as [|? ? Hx Hd']; subst.
    inversion Hs as [|? ? Hs' Hxrun]; subst.
    destruct (pop_min runs) as [[y rest]|].
    + destruct IH as (pre & post & H1 & H2 & H3 & H4 & H5 & H6).
      rewrite H1 in Hall.
      apply Forall_app in Hall. destruct Hall as [Hpre Hpost].
      inversion Hpost as [|? ? _ Hpost']; subst.
      destruct (krow_ltb y x) eqn:E.
      * exists ((x :: run) ++ pre), post. simpl.
        rewrite H1, H2, <- !app_assoc. simpl. repeat split; auto.
        -- constructor; [assumption|]. apply Forall_app. split; [|assumption].
           rewrite Forall_forall in *. intros z Hz.
           apply key_ltb_klt. apply key_ltb_klt in E.
           exact (klt_le_trans dom Hord (fst y) (fst x) (fst z)
                    H5 Hx (Hd' z Hz) E (Hxrun z Hz)).
        -- constructor; [now split|assumption].
      * apply (key_ltb_false_kle dom Hord _ _ H5 Hx) in E.
        exists [], (run ++ List.concat runs). simpl. repeat split; auto.
        -- apply Forall_app. split; [assumption|].
           rewrite H1. apply Forall_app. split.
           ++ rewrite Forall_forall in *. intros z Hz.
              exact (kle_trans dom Hord (fst x) (fst y) (fst z)
                       Hx H5 (Hpre z Hz) E
                       (krow_le_of_ltb y z H5 (Hpre z Hz) (H3 z Hz))).
           ++ constructor; [exact E|].
              rewrite Forall_forall in *. intros z Hz.
              exact (kle_trans dom Hord (fst x) (fst y) (fst z)
                       Hx H5 (Hpost' z Hz) E (H4 z Hz)).
        -- constructor; [now split|assumption].
    + exists [], (run ++ List.concat runs). simpl. repeat split; auto.
      * rewrite IH, app_nil_r. assumption.
      * constructor; [now split|assumption].
Qed.
End KWayMerge.

Section KWayMergeCorrect.
Variable dom : TKey -> Prop.
Hypothesis Hord : key_order dom.

Lemma with_key_gt_false (k : TKey) (x y : krow) :
  dom k -> kdom dom x -> kdom dom y ->
  krow_ltb x y = true -> with_key k x = true -> with_key k y = false.
Proof.
  unfold with_key, krow_ltb, kdom. intros Hk Hx Hy Hlt Hxk.
  apply key_ltb_klt in Hlt.
  apply (ko_eq dom Hord _ _ Hx Hk) in Hxk.
  destruct (key_eq (fst y) k) eqn:E; [|reflexivity].
  apply (ko_eq dom Hord _ _ Hy Hk) in E.
  rewrite Hxk, E in Hlt. now apply (ko_irrefl dom Hord) in Hlt.
Qed.

Lemma sorted_runs_dom (runs : list (list krow)) :
  sorted_runs dom runs -> Forall (kdom dom) (List.concat runs).
Proof.
  induction 1 as [|r rs [Hr _] _ IH]; simpl; [constructor|].
  apply Forall_app. now split.
Qed.

Lemma kway_merge_spec (fuel : nat) (runs : list (list krow)) :
  (List.length (List.concat runs) <= fuel)%nat ->
  sorted_runs dom runs ->
  Permutation (List.concat runs) (kway_merge fuel runs) /\
  StronglySorted krow_le (kway_merge fuel runs) /\
  (forall k, dom k ->
             filter (with_key k) (kway_merge fuel runs) =
             filter (with_key k) (List.concat runs)).
Proof.
  revert runs. induction fuel as [|fuel IH]; intros runs Hlen Hruns.
  - simpl. destruct (List.concat runs); [|simpl in Hlen; lia].
    repeat split; constructor.
  - simpl. pose proof (pop_min_spec dom Hord runs Hruns) as Hpop.
    pose proof (sorted_runs_dom runs Hruns) as Hdom.
    destruct (pop_min runs) as [[x rest]|].
    + destruct Hpop as (pre & post & H1 & H2 & H3 & H4 & H5 & H6).
      rewrite H1 in *.
      destruct (IH rest) as (Hp & Hs & Hst); [|assumption|].
      { rewrite H2. rewrite length_app in *. simpl in Hlen. lia. }
      apply Forall_app in Hdom. destruct Hdom as [Hdpre Hdpost].
      inversion Hdpost as [|? ? _ Hdpost']; subst.
      split; [|split].
      * rewrite <- Hp, H2. symmetry. apply Permutation_middle.
      * constructor; [assumption|].
        rewrite <- Hp, H2. apply Forall_app. split; [|assumption].
        rewrite Forall_forall in *. intros z Hz.
        apply krow_le_of_ltb with (dom := dom); auto.
      * intros k Hk. simpl. rewrite (Hst k Hk), H2, !filter_app. simpl.
        destruct (with_key k x) eqn:Ex; [|reflexivity].
        rewrite (filter_none (with_key k) pre); [reflexivity|].
        intros z Hz. rewrite Forall_forall in *.
        apply (with_key_gt_false k x z); auto.
    + rewrite Hpop. repeat split; constructor.
Qed.
End KWayMergeCorrect.

(** The rows of a stream that have the key value [k]. *)
Definition key_is (keys : list string) (k : TKey) (row : TRow) : bool :=
  match key_of keys row with
  | Ok k' => key_eq k' k
  | Raise _ => false
  end.

Section ExternalSortCorrect.
Variable dom : TKey -> Prop.
Hypothesis Hord : key_order dom.
Variable keys : list string.

(** A row paired with its own key value, which lies in the domain. *)
Definition decorated (x : krow) : Prop :=
  key_of keys (snd x) = Ok (fst x) /\ dom (fst x).

Lemma decorate_rows (rows : list TRow) :
  Forall (keyed dom keys) rows ->
  exists krows,
    mapM (fun row =>
            match key_of keys row with
            | Ok k => Ok (k, row)
            | Raise _ => Raise ConfigError
            end) rows = Ok krows /\
    map snd krows = rows /\
    Forall decorated krows.
Proof.
  induction 1 as [|row rows (k & Hk & Hd) _ (krows & Hm & Hsnd & Hdec)].
  - exists []. repeat split; constructor.
  - exists ((k, row) :: krows). simpl. rewrite Hk, Hm. simpl.
    rewrite Hsnd. repeat split. constructor; [now split|assumption].
Qed.

Lemma decorated_dom (l : list krow) :
  Forall decorated l -> Forall (kdom dom) l.
Proof. apply Forall_impl. now intros x [_ H]. Qed.

Lemma decorated_filter (k : TKey) (l : list krow) :
  Forall decorated l ->
  map snd (filter (with_key k) l) = filter (key_is keys k) (map snd l).
Proof.
  induction 1 as [|x l [Hx _] _ IH]; [reflexivity|].
  simpl. unfold key_is at 1. rewrite Hx. fold (with_key k x).
  destruct (with_key k x); simpl; now rewrite IH.
Qed.

Lemma decorated_sorted (l : list krow) :
  Forall decorated l ->
  StronglySorted krow_le l -> sorted_by keys (map snd l).
Proof.
  intros Hdec Hs. apply StronglySorted_Sorted.
  induction Hs as [|x l Hs IH Hx]; simpl; [constructor|].
  inversion Hdec as [|? ? [Hkx _] Hdec']; subst.
  constructor; [now apply IH|].
  rewrite Forall_forall in *.
  intros r Hr. apply in_map_iff in Hr. destruct Hr as (y & <- & Hy).
  exists (fst x), (fst y). repeat split; auto.
  - now destruct (Hdec' y Hy).
  - now apply Hx.
Qed.

Lemma sorted_runs_map_sort_buffer (runs : list (list krow)) :
  Forall (kdom dom) (List.concat runs) ->
  sorted_runs dom (map sort_buffer runs).
Proof.
  induction runs as [|run runs IH]; simpl; intros H; [constructor|].
  apply Forall_app in H. destruct H as [Hr Hrs].
  constructor; [|now apply IH]. split.
  - now apply sort_buffer_dom.
  - now apply (sort_buffer_sorted dom Hord).
Qed.

Lemma concat_map_sort_buffer_perm (runs : list (list krow)) :
  Permutation (List.concat runs) (List.concat (map sort_buffer runs)).
Proof.
  induction runs as [|run runs IH]; simpl; [constructor|].
  apply Permutation_app; [apply sort_buffer_perm|assumption].
Qed.

Lemma concat_map_sort_buffer_stable (k : TKey) (runs : list (list krow)) :
  dom k ->
  Forall (kdom dom) (List.concat runs) ->
  filter (with_key k) (List.concat (map sort_buffer runs)) =
  filter (with_key k) (List.concat runs).
Proof.
  intros Hk. induction runs as [|run runs IH]; simpl; intros H; [reflexivity|].
  apply Forall_app in H. destruct H as [Hr Hrs].
  rewrite !filter_app, (sort_buffer_stable dom Hord k run Hk Hr).
  now rewrite IH.
Qed.

(** The sorted rows with their keys: a stable sort of the decorated input. *)
Lemma sort_krows_spec (budget : nat) (krows : list krow) :
  Forall decorated krows ->
  exists out,
    match generate_runs budget [] krows with
    | [] => []
    | [buf] => sort_buffer buf
    | runs => kway_merge (List.length krows) (map sort_buffer runs)
    end = out /\
    Permutation krows out /\
    StronglySorted krow_le out /\
    (forall k, dom k -> filter (with_key k) out = filter (with_key k) krows).
Proof.
  intros Hdec. pose proof (decorated_dom krows Hdec) as Hdom.
  pose proof (generate_runs_concat budget [] krows) as Hc. simpl in Hc.
  eexists. split; [reflexivity|].
  destruct (generate_runs budget [] krows) as [|buf [|buf2 runs]] eqn:E.
  - simpl in Hc. subst krows. repeat split; constructor.
  - simpl in Hc. rewrite app_nil_r in Hc. subst buf. split; [|split].
    + apply sort_buffer_perm.
    + now apply (sort_buffer_sorted dom Hord).
    + intros k Hk. now apply (sort_buffer_stable dom Hord).
  - rewrite <- Hc in Hdom.
    destruct (kway_merge_spec dom Hord (List.length krows)
                (map sort_buffer (buf :: buf2 :: runs)))
      as (Hp & Hs & Hst).
    + rewrite <- (Permutation_length (concat_map_sort_buffer_perm _)).
      rewrite Hc. apply Nat.le_refl.
    + now apply sorted_runs_map_sort_buffer.
    + split; [|split].
      * rewrite <- Hp, <- concat_map_sort_buffer_perm. now rewrite Hc.
      * exact Hs.
      * intros k Hk. rewrite (Hst k Hk).
        rewrite (concat_map_sort_buffer_stable k _ Hk Hdom). now rewrite Hc.
Qed.
End ExternalSortCorrect.

(** C2. For every finite stream whose key values lie in an ordered key
    domain and every row budget, the output of the sort is a permutation of
    the input, the key values of adjacent output rows are non-decreasing, and
    the rows of every key value keep their input order. *)
Theorem ExternalSort_stable_sort (dom : TKey -> Prop) (keys : list string)
  (budget : nat) (rows : list TRow) :
  key_order dom ->
  Forall (keyed dom keys) rows ->
  exists out,
    ExternalSort_call keys budget rows = Ok out /\
    Permutation rows out /\
    sorted_by keys out /\
    (forall k, dom k ->
               filter (key_is keys k) out = filter (key_is keys k) rows).
Proof.
  intros Hord Hrows.
  destruct (decorate_rows dom keys rows Hrows) as (krows & Hm & Hsnd & Hdec).
  destruct (sort_krows_spec dom Hord keys budget krows Hdec)
    as (out & Hout & Hp & Hs & Hst).
  assert (Hdec' : Forall (decorated dom keys) out) by now rewrite <- Hp.
  exists (map snd out). split; [|split; [|split]].
  - unfold ExternalSort_call. rewrite Hm. cbn [bind]. rewrite <- Hout.
    now destruct (generate_runs budget [] krows) as [|buf [|buf2 runs]].
  - rewrite <- Hsnd. now apply Permutation_map.
  - now apply (decorated_sorted dom keys).
  - intros k Hk. rewrite <- Hsnd.
    rewrite <- (decorated_filter dom keys k out Hdec').
    rewrite <- (decorated_filter dom keys k krows Hdec).
    now rewrite (Hst k Hk).
Qed.

Lemma ExternalSort_stable_sort_witness :
  exists out,
    ExternalSort_call ["x"] 2
      [[("x", VInt 3); ("i", VInt 0)]; [("x", VInt 1); ("i", VInt 1)];
       [("x", VInt 3); ("i", VInt 2)]; [("x", VInt 1); ("i", VInt 3)]]
    = Ok out /\
    Permutation
      [[("x", VInt 3); ("i", VInt 0)]; [("x", VInt 1); ("i", VInt 1)];
       [("x", VInt 3); ("i", VInt 2)]; [("x", VInt 1); ("i", VInt 3)]] out /\
    sorted_by ["x"] out /\
    (forall k, key_shape [TInt] k ->
               filter (key_is ["x"] k) out =
               filter (key_is ["x"] k)
                 [[("x", VInt 3); ("i", VInt 0)]; [("x", VInt 1); ("i", VInt 1)];
                  [("x", VInt 3); ("i", VInt 2)]; [("x", VInt 1); ("i", VInt 3)]]).
Proof.
  apply (ExternalSort_stable_sort (key_shape [TInt]) ["x"] 2).
  - apply key_shape_order.
  - solve_keyed.
Defined.

(** ** TopN and heapq *)

(** The heap entries of [TopN]: [(row[self.column_max], values)] with
    [values] the item list of the row. *)
Definition entry : Type := (value * list (string * value))%type.

(** [==] and [<] of two tuples of length two. *)
Definition pair_eq {A B : Type} (eqA : A -> A -> bool) (eqB : B -> B -> bool)
  (x y : A * B) : bool :=
  eqA (fst x) (fst y) && eqB (snd x) (snd y).

Definition pair_lt {A B : Type} (eqA : A -> A -> bool)
  (ltA : A -> A -> result bool) (eqB : B -> B -> bool)
  (ltB : B -> B -> result bool) (x y : A * B) : result bool :=
  if eqA (fst x) (fst y) then
    if eqB (snd x) (snd y) then Ok false else ltB (snd x) (snd y)
  else ltA (fst x) (fst y).

Definition item_eq : string * value -> string * value -> bool :=
  pair_eq String.eqb py_eq.

Definition item_lt : string * value -> string * value -> result bool :=
  pair_lt String.eqb (fun s t => Ok (String.ltb s t)) py_eq py_lt.

Definition entry_eq : entry -> entry -> bool :=
  pair_eq py_eq (list_eq item_eq).

Definition entry_lt : entry -> entry -> result bool :=
  pair_lt py_eq py_lt (list_eq item_eq) (list_lt item_eq item_lt).

(** [heap[pos] = item] *)
Fixpoint list_set {A : Type} (l : list A) (pos : nat) (item : A) : list A :=
  match l, pos with
  | [], _ => []
  | _ :: l', O => item :: l'
  | x :: l', S pos' => x :: list_set l' pos' item
  end.

Section Heapq.
Context {A : Type}.
Variable lt : A -> A -> result bool.

(** [heap[pos]], with Python's [IndexError]. *)
Definition heap_get (heap : list A) (pos : nat) : result A :=
  of_option (nth_error heap pos) IndexError.

(** [heapq._siftdown(heap, startpos, pos)] with [newitem = heap[pos]] taken
    out: the parents greater than [newitem] move down.  [fuel] bounds the
    number of turns of the loop. *)
Fixpoint siftdown_loop (fuel : nat) (heap : list A) (startpos pos : nat)
  (newitem : A) : result (list A) :=
  match fuel with
  | O => Ok (list_set heap pos newitem)
  | S fuel' =>
      if (startpos <? pos)%nat then
        let parentpos := ((pos - 1) / 2)%nat in
        parent <- heap_get heap parentpos ;;
        b <- lt newitem parent ;;
        if b : bool
        then siftdown_loop fuel' (list_set heap pos parent) startpos
                           parentpos newitem
        else Ok (list_set heap pos newitem)
      else Ok (list_set heap pos newitem)
  end.

Definition siftdown (heap : list A) (startpos pos : nat) : result (list A) :=
  newitem <- heap_get heap pos ;;
  siftdown_loop pos heap startpos pos newitem.

(** The first loop of [heapq._siftup]: the smaller child moves up until a
    leaf is reached; the result is the heap and the position of the leaf. *)
Fixpoint siftup_loop (fuel : nat) (heap : list A) (pos : nat)
  : result (list A * nat) :=
  match fuel with
  | O => Ok (heap, pos)
  | S fuel' =>
      let endpos := List.length heap in
      let childpos := (2 * pos + 1)%nat in
      if (childpos <? endpos)%nat then
        let rightpos := (childpos + 1)%nat in
        childpos' <-
          (if (rightpos <? endpos)%nat then
             l <- heap_get heap childpos ;;
             r <- heap_get heap rightpos ;;
             b <- lt l r ;;
             Ok (if b : bool then childpos else rightpos)
           else Ok childpos) ;;
        child <- heap_get heap childpos' ;;
        siftup_loop fuel' (list_set heap pos child) childpos'
      else Ok (heap, pos)
  end.

(** [heapq._siftup(heap, pos)] *)
Definition siftup (heap : list A) (pos : nat) : result (list A) :=
  newitem <- heap_get heap pos ;;
  r <- siftup_loop (List.length heap) heap pos ;;
  let heap' := list_set (fst r) (snd r) newitem in
  siftdown heap' pos (snd r).

(** [heapq.heappush(heap, item)] *)
Definition heappush (heap : list A) (item : A) : result (list A) :=
  siftdown (heap ++ [item]) 0 (List.length heap).

(** [heapq.heappop(heap)]: the item returned and the heap left. *)
Definition heappop (heap : list A) : result (A * list A) :=
  match rev heap with
  | [] => Raise IndexError
  | lastelt :: rest_rev =>
      match rev rest_rev with
      | [] => Ok (lastelt, [])
      | returnitem :: heap' =>
          h <- siftup (lastelt :: heap') 0 ;;
          Ok (returnitem, h)
      end
  end.
End Heapq.

(** [TopN.__call__] *)
Definition TopN_push (column_max : string) (n : Z) (heap : list entry)
  (row : TRow) : result (list entry) :=
  v <- getitem row column_max ;;
  heap' <- heappush entry_lt heap (v, row) ;;
  if Z.of_nat (List.length heap') >? n
  then r <- heappop entry_lt heap' ;; Ok (snd r)
  else Ok heap'.

Definition TopN_heap (column_max : string) (n : Z) (rows : list TRow)
  : result (list entry) :=
  fold_left (fun acc row => heap <- acc ;; TopN_push column_max n heap row)
            rows (Ok []).

Definition TopN_call (column_max : string) (n : Z) (group_key : list string)
  (rows : list TRow) : result (list TRow) :=
  heap <- TopN_heap column_max n rows ;;
  Ok (map (fun kv => dict_of_items (snd kv)) heap).

Example TopN_call_ex :
  TopN_call "s" 2 ["d"]
    [[("d", VInt 1); ("s", VInt 5)]; [("d", VInt 1); ("s", VInt 3)];
     [("d", VInt 1); ("s", VInt 9)]; [("d", VInt 1); ("s", VInt 4)]] =
  Ok [[("d", VInt 1); ("s", VInt 5)]; [("d", VInt 1); ("s", VInt 9)]].
Proof. reflexivity. Qed.

(** ** Lists updated in place *)

Lemma length_list_set {A : Type} (l : list A) (pos : nat) (a : A) :
  List.length (list_set l pos a) = List.length l.
Proof.
  revert pos. induction l as [|x l IH]; intros [|pos]; simpl; auto.
Qed.

Lemma nth_error_list_set_same {A : Type} (l : list A) (pos : nat) (a : A) :
  (pos < List.length l)%nat -> nth_error (list_set l pos a) pos = Some a.
Proof.
  revert pos. induction l as [|x l IH]; intros [|pos]; simpl; intros H;
    try lia; [reflexivity|]. apply IH. lia.
Qed.

Lemma nth_error_list_set_other {A : Type} (l : list A) (pos i : nat) (a : A) :
  i <> pos -> nth_error (list_set l pos a) i = nth_error l i.
Proof.
  revert pos i. induction l as [|x l IH]; intros [|pos] [|i]; simpl; intros H;
    try reflexivity; try lia. apply IH. lia.
Qed.

Lemma list_set_replace_perm {A : Type} (l : list A) (pos : nat) (a x : A) :
  nth_error l pos = Some a ->
  Permutation (a :: list_set l pos x) (x :: l).
Proof.
  revert pos. induction l as [|y l IH]; intros [|pos]; simpl; try discriminate.
  - intros [= ->]. apply perm_swap.
  - intros H. rewrite perm_swap. rewrite (IH pos H). apply perm_swap.
Qed.

(** Moving the item at [p] to [q] and putting [x] at [p] is, as a multiset,
    putting [x] at [q]. *)
Lemma list_set_move_perm {A : Type} (l : list A) (p q : nat) (a x : A) :
  p <> q -> nth_error l p = Some a -> (q < List.length l)%nat ->
  Permutation (list_set (list_set l q a) p x) (list_set l q x).
Proof.
  revert p q. induction l as [|y l IH]; intros [|p] [|q]; simpl;
    intros Hne Hp Hq; try lia; try discriminate.
  - injection Hp as ->.
    destruct (nth_error l q) as [b|] eqn:Hb.
    + apply (Permutation_cons_inv (a := b)).
      eapply perm_trans; [apply perm_swap|].
      eapply perm_trans;
        [apply perm_skip, (list_set_replace_perm l q b a Hb)|].
      eapply perm_trans; [apply perm_swap|].
      eapply perm_trans;
        [apply perm_skip; symmetry;
         apply (list_set_replace_perm l q b x Hb)|].
      apply perm_swap.
    + apply nth_error_None in Hb. lia.
  - apply (list_set_replace_perm l p a x Hp).
  - constructor. apply IH; auto; lia.
Qed.

(** ** The heap invariant of heapq *)

(** [(pos - 1) >> 1] *)
Definition parent (i : nat) : nat := ((i - 1) / 2)%nat.

Lemma parent_spec (i : nat) :
  (0 < i)%nat ->
  (i = 2 * parent i + 1 \/ i = 2 * parent i + 2)%nat.
Proof.
  intros H. unfold parent.
  pose proof (Nat.div_mod_eq (i - 1) 2) as E.
  pose proof (Nat.mod_upper_bound (i - 1) 2) as B. lia.
Qed.

Lemma parent_child (c pos : nat) :
  (c = 2 * pos + 1 \/ c = 2 * pos + 2)%nat -> parent c = pos.
Proof.
  intros H. unfold parent.
  pose proof (Nat.div_mod_eq (c - 1) 2) as E.
  pose proof (Nat.mod_upper_bound (c - 1) 2) as B. lia.
Qed.

Section HeapCorrect.
Context {A : Type}.
Variable lt : A -> A -> result bool.
Variable D : A -> Prop.

(** [x <= y]: [y < x] is false. *)
Definition le (x y : A) : Prop := lt y x = Ok false.

(** On [D] the comparison raises nothing and is a strict weak order. *)
Record weak_order : Prop := mk_weak_order {
  wo_defined : forall x y, D x -> D y -> exists b, lt x y = Ok b;
  wo_asym : forall x y, D x -> D y -> lt x y = Ok true -> le x y;
  wo_trans : forall x y z, D x -> D y -> D z -> le x y -> le y z -> le x z
}.

Hypothesis Hwo : weak_order.

(** The item at [i] is not less than the item at its parent. *)
Definition edge_ok (l : list A) (i : nat) : Prop :=
  forall x p,
    nth_error l i = Some x -> nth_error l (parent i) = Some p -> le p x.

Definition heap_ok (l : list A) : Prop :=
  forall i, (0 < i)%nat -> edge_ok l i.

(** The heap with a hole at [pos] that is to take [newitem]: the edges away
    from the hole are in order, [newitem] is not greater than the children of
    the hole, and the parent of the hole is not greater than them either. *)
Definition hole_inv (l : list A) (pos : nat) (newitem : A) : Prop :=
  (forall i, (0 < i)%nat -> i <> pos -> parent i <> pos -> edge_ok l i) /\
  (forall c x, (0 < c)%nat -> parent c = pos ->
               nth_error l c = Some x -> le newitem x) /\
  (forall c x p, (0 < c)%nat -> (0 < pos)%nat -> parent c = pos ->
                 nth_error l c = Some x ->
                 nth_error l (parent pos) = Some p -> le p x).

Lemma nth_error_D (l : list A) (i : nat) (x : A) :
  Forall D l -> nth_error l i = Some x -> D x.
Proof.
  intros Hl Hx. rewrite Forall_forall in Hl. apply Hl.
  now apply nth_error_In with i.
Qed.

Lemma hole_fill (l : list A) (pos : nat) (newitem : A) :
  (pos < List.length l)%nat ->
  hole_inv l pos newitem ->
  (forall p, (0 < pos)%nat -> nth_error l (parent pos) = Some p ->
             le p newitem) ->
  heap_ok (list_set l pos newitem).
Proof.
  intros Hlen (H1 & H2 & H3) Hp i Hi x p Hx Hpi.
  pose proof (parent_spec i Hi) as Hpar.
  destruct (Nat.eq_dec i pos) as [->|Hne].
  - rewrite nth_error_list_set_same in Hx by assumption. injection Hx as <-.
    rewrite nth_error_list_set_other in Hpi by lia. now apply Hp.
  - rewrite nth_error_list_set_other in Hx by assumption.
    destruct (Nat.eq_dec (parent i) pos) as [E|E].
    + rewrite E, nth_error_list_set_same in Hpi by assumption.
      injection Hpi as <-. now apply (H2 i).
    + rewrite nth_error_list_set_other in Hpi by assumption.
      now apply (H1 i Hi Hne E).
Qed.

Lemma hole_up (l : list A) (pos : nat) (newitem pv : A) :
  (0 < pos)%nat -> (pos < List.length l)%nat ->
  Forall D l -> D newitem ->
  hole_inv l pos newitem ->
  nth_error l (parent pos) = Some pv ->
  lt newitem pv = Ok true ->
  hole_inv (list_set l pos pv) (parent pos) newitem.
Proof.
  intros Hpos Hlen Hl Hn (H1 & H2 & H3) Hpv Hlt.
  pose proof (parent_spec pos Hpos) as Hpp.
  pose proof (nth_error_D l _ pv Hl Hpv) as Dpv.
  assert (Hnp : le newitem pv) by now apply (wo_asym Hwo).
  assert (Hq : forall p, (0 < parent pos)%nat ->
                 nth_error l (parent (parent pos)) = Some p -> le p pv).
  { intros p Hq0 Hp. pose proof (parent_spec (parent pos) Hq0).
    apply (H1 (parent pos)); auto; lia. }
  split; [|split].
  - intros i Hi Hiq Hpiq x p Hx Hp.
    pose proof (parent_spec i Hi) as Hpar.
    assert (Hip : i <> pos) by congruence.
    rewrite nth_error_list_set_other in Hx by assumption.
    destruct (Nat.eq_dec (parent i) pos) as [E|E].
    + rewrite E, nth_error_list_set_same in Hp by assumption.
      injection Hp as <-. now apply (H3 i x pv).
    + rewrite nth_error_list_set_other in Hp by assumption.
      now apply (H1 i Hi Hip E).
  - intros c x Hc Hcq Hx.
    destruct (Nat.eq_dec c pos) as [->|Hne].
    + rewrite nth_error_list_set_same in Hx by assumption. now injection Hx as <-.
    + rewrite nth_error_list_set_other in Hx by assumption.
      apply (wo_trans Hwo newitem pv x); auto.
      * now apply (nth_error_D l c).
      * apply (H1 c Hc Hne); [lia|assumption|]. now rewrite Hcq.
  - intros c x p Hc Hq0 Hcq Hx Hp.
    pose proof (parent_spec (parent pos) Hq0) as Hqq.
    rewrite nth_error_list_set_other in Hp by lia.
    destruct (Nat.eq_dec c pos) as [->|Hne].
    + rewrite nth_error_list_set_same in Hx by assumption. injection Hx as <-.
      now apply Hq.
    + rewrite nth_error_list_set_other in Hx by assumption.
      apply (wo_trans Hwo p pv x).
      * now apply (nth_error_D l (parent (parent pos))).
      * assumption.
      * now apply (nth_error_D l c).
      * now apply Hq.
      * apply (H1 c Hc Hne); [lia|assumption|]. now rewrite Hcq.
Qed.

Lemma list_set_D (l : list A) (pos : nat) (a : A) :
  Forall D l -> D a -> Forall D (list_set l pos a).
Proof.
  intros Hl Ha. revert pos.
  induction Hl as [|x l Hx Hl IH]; intros [|pos]; simpl; auto.
Qed.

Lemma siftdown_loop_ok (fuel : nat) (l : list A) (pos : nat) (newitem : A) :
  (pos <= fuel)%nat -> (pos < List.length l)%nat ->
  Forall D l -> D newitem ->
  hole_inv l pos newitem ->
  exists l',
    siftdown_loop lt fuel l 0 pos newitem = Ok l' /\
    heap_ok l' /\
    Permutation l' (list_set l pos newitem).
Proof.
  revert l pos. induction fuel as [|fuel IH]; intros l pos Hf Hlen Hl Hn Hinv.
  - exists (list_set l pos newitem). split; [reflexivity|].
    split; [|apply Permutation_refl].
    apply hole_fill; auto. intros p Hp. lia.
  - cbn [siftdown_loop]. fold (parent pos).
    destruct (0 <? pos)%nat eqn:E.
    + apply Nat.ltb_lt in E.
      pose proof (parent_spec pos E) as Hpp.
      destruct (nth_error l (parent pos)) as [pv|] eqn:Hpv.
      2:{ apply nth_error_None in Hpv. lia. }
      unfold heap_get. rewrite Hpv. cbn [of_option bind].
      pose proof (nth_error_D l _ pv Hl Hpv) as Dpv.
      destruct (wo_defined Hwo newitem pv Hn Dpv) as [[|] Hb];
        rewrite Hb; cbn [bind].
      * destruct (IH (list_set l pos pv) (parent pos)) as (l' & Hl' & Hok & Hp).
        -- lia.
        -- rewrite length_list_set. lia.
        -- now apply list_set_D.
        -- assumption.
        -- now apply hole_up.
        -- exists l'. split; [assumption|]. split; [assumption|].
           rewrite Hp. apply list_set_move_perm; auto. lia.
      * exists (list_set l pos newitem). split; [reflexivity|].
        split; [|apply Permutation_refl].
        apply hole_fill; auto. intros p _ Hp.
        rewrite Hpv in Hp. injection Hp as <-. exact Hb.
    + apply Nat.ltb_ge in E.
      exists (list_set l pos newitem). split; [reflexivity|].
      split; [|apply Permutation_refl].
      apply hole_fill; auto. intros p Hp. lia.
Qed.

Lemma heappush_ok (heap : list A) (item : A) :
  heap_ok heap -> Forall D heap -> D item ->
  exists heap',
    heappush lt heap item = Ok heap' /\
    heap_ok heap' /\
    Permutation heap' (item :: heap).
Proof.
  intros Hok Hl Hi. unfold heappush, siftdown, heap_get.
  rewrite nth_error_app2, Nat.sub_diag by lia. cbn [nth_error of_option bind].
  destruct (siftdown_loop_ok (List.length heap) (heap ++ [item])
              (List.length heap) item) as (l' & Hl' & Hok' & Hp).
  - lia.
  - rewrite length_app. simpl. lia.
  - apply Forall_app. split; [assumption|now constructor].
  - assumption.
  - split; [|split].
    + intros i Hi0 Hne Hpne x p Hx Hpx.
      pose proof (parent_spec i Hi0) as Hpar.
      assert (Hlt : (i < List.length heap)%nat).
      { assert (H : (i < List.length (heap ++ [item]))%nat)
          by (apply nth_error_Some; congruence).
        rewrite length_app in H. simpl in H. lia. }
      rewrite nth_error_app1 in Hx, Hpx by lia.
      now apply (Hok i Hi0).
    + intros c x Hc Hpc Hx. pose proof (parent_spec c Hc) as Hpar.
      assert (H : (c < List.length (heap ++ [item]))%nat)
        by (apply nth_error_Some; congruence).
      rewrite length_app in H. simpl in H. lia.
    + intros c x p Hc _ Hpc Hx _. pose proof (parent_spec c Hc) as Hpar.
      assert (H : (c < List.length (heap ++ [item]))%nat)
        by (apply nth_error_Some; congruence).
      rewrite length_app in H. simpl in H. lia.
  - exists l'. split; [assumption|]. split; [assumption|].
    rewrite Hp. clear. induction heap as [|x heap IH]; simpl.
    + apply Permutation_refl.
    + rewrite IH. apply perm_swap.
Qed.

(** The heap while the hole goes down in [_siftup]. *)
Definition desc_inv (l : list A) (pos : nat) : Prop :=
  (forall i, (0 < i)%nat -> i <> pos -> parent i <> pos -> edge_ok l i) /\
  (forall c x p, (0 < c)%nat -> (0 < pos)%nat -> parent c = pos ->
                 nth_error l c = Some x ->
                 nth_error l (parent pos) = Some p -> le p x).

Lemma desc_step (l : list A) (pos c s : nat) (cv : A) :
  (pos < List.length l)%nat ->
  (c = 2 * pos + 1 /\ s = 2 * pos + 2 \/ c = 2 * pos + 2 /\ s = 2 * pos + 1)%nat ->
  nth_error l c = Some cv ->
  (forall sv, nth_error l s = Some sv -> le cv sv) ->
  desc_inv l pos ->
  desc_inv (list_set l pos cv) c.
Proof.
  intros Hlen Hcs Hcv Hsib (H1 & H3). split.
  - intros i Hi Hic Hpic x p Hx Hp.
    pose proof (parent_spec i Hi) as Hpar.
    destruct (Nat.eq_dec i pos) as [->|Hne].
    + rewrite nth_error_list_set_same in Hx by assumption. injection Hx as <-.
      rewrite nth_error_list_set_other in Hp by lia.
      apply (H3 c cv p); auto; try lia. apply parent_child. lia.
    + rewrite nth_error_list_set_other in Hx by assumption.
      destruct (Nat.eq_dec (parent i) pos) as [E|E].
      * rewrite E, nth_error_list_set_same in Hp by assumption.
        injection Hp as <-. apply Hsib.
        assert (i = s) by lia. now subst i.
      * rewrite nth_error_list_set_other in Hp by assumption.
        now apply (H1 i Hi Hne E).
  - intros g x p Hg Hc0 Hpg Hx Hp.
    pose proof (parent_spec g Hg) as Hpar.
    assert (Hpc : parent c = pos) by (apply parent_child; lia).
    rewrite Hpc, nth_error_list_set_same in Hp by assumption.
    injection Hp as <-.
    rewrite nth_error_list_set_other in Hx by lia.
    apply (H1 g Hg); [lia|lia|assumption|]. now rewrite Hpg.
Qed.

Lemma siftup_loop_ok (fuel : nat) (l : list A) (pos : nat) :
  (List.length l <= fuel + pos)%nat -> (pos < List.length l)%nat ->
  Forall D l -> desc_inv l pos ->
  exists l' pos',
    siftup_loop lt fuel l pos = Ok (l', pos') /\
    (pos' < List.length l')%nat /\
    (List.length l' <= 2 * pos' + 1)%nat /\
    Forall D l' /\
    desc_inv l' pos' /\
    (forall x, Permutation (list_set l' pos' x) (list_set l pos x)).
Proof.
  revert l pos. induction fuel as [|fuel IH]; intros l pos Hf Hlen Hl Hinv;
    [lia|].
  cbn [siftup_loop].
  destruct (2 * pos + 1 <? List.length l)%nat eqn:E.
  - apply Nat.ltb_lt in E.
    assert (Hstep : forall c s cv,
               (c = 2 * pos + 1 /\ s = 2 * pos + 2 \/
                c = 2 * pos + 2 /\ s = 2 * pos + 1)%nat ->
               nth_error l c = Some cv ->
               (forall sv, nth_error l s = Some sv -> le cv sv) ->
               exists l' pos',
                 siftup_loop lt fuel (list_set l pos cv) c = Ok (l', pos') /\
                 (pos' < List.length l')%nat /\
                 (List.length l' <= 2 * pos' + 1)%nat /\
                 Forall D l' /\
                 desc_inv l' pos' /\
                 (forall x, Permutation (list_set l' pos' x) (list_set l pos x))).
    { intros c s cv Hcs Hcv Hsib.
      assert (Hc : (c < List.length l)%nat)
        by (apply nth_error_Some; congruence).
      destruct (IH (list_set l pos cv) c) as (l' & pos' & H1 & H2 & H3 & H4 & H5 & H6).
      - rewrite length_list_set. lia.
      - now rewrite length_list_set.
      - apply list_set_D; [assumption|now apply (nth_error_D l c)].
      - now apply (desc_step l pos c s cv).
      - exists l', pos'. do 5 (split; [assumption|]).
        intros x. eapply perm_trans; [apply H6|].
        apply list_set_move_perm; auto. lia. }
    destruct (nth_error l (2 * pos + 1)) as [lv|] eqn:Hlv.
    2:{ apply nth_error_None in Hlv. lia. }
    destruct (2 * pos + 1 + 1 <? List.length l)%nat eqn:E2.
    + apply Nat.ltb_lt in E2.
      destruct (nth_error l (2 * pos + 1 + 1)) as [rv|] eqn:Hrv.
      2:{ apply nth_error_None in Hrv. lia. }
      unfold heap_get at 1 2. rewrite Hlv, Hrv. cbn [of_option bind].
      destruct (wo_defined Hwo lv rv) as [[|] Hb];
        [now apply (nth_error_D l (2 * pos + 1))
        |now apply (nth_error_D l (2 * pos + 1 + 1))| |];
        rewrite Hb; cbn [bind]; unfold heap_get.
      * rewrite Hlv. cbn [of_option bind].
        apply (Hstep (2 * pos + 1)%nat (2 * pos + 2)%nat lv);
          [lia|assumption|].
        intros sv Hsv. replace (2 * pos + 2)%nat with (2 * pos + 1 + 1)%nat
          in Hsv by lia. rewrite Hrv in Hsv. injection Hsv as <-.
        apply (wo_asym Hwo); auto.
        -- now apply (nth_error_D l (2 * pos + 1)).
        -- now apply (nth_error_D l (2 * pos + 1 + 1)).
      * rewrite Hrv. cbn [of_option bind].
        apply (Hstep (2 * pos + 1 + 1)%nat (2 * pos + 1)%nat rv);
          [lia|assumption|].
        intros sv Hsv. rewrite Hlv in Hsv. injection Hsv as <-. exact Hb.
    + apply Nat.ltb_ge in E2. cbn [bind]. unfold heap_get. rewrite Hlv.
      cbn [of_option bind].
      apply (Hstep (2 * pos + 1)%nat (2 * pos + 2)%nat lv);
        [lia|assumption|].
      intros sv Hsv.
      assert ((2 * pos + 2 < List.length l)%nat)
        by (apply nth_error_Some; congruence). lia.
  - apply Nat.ltb_ge in E. exists l, pos.
    split; [reflexivity|]. split; [assumption|]. split; [lia|].
    split; [assumption|]. split; [assumption|].
    intros x. apply Permutation_refl.
Qed.

Lemma list_set_twice (l : list A) (pos : nat) (a b : A) :
  list_set (list_set l pos a) pos b = list_set l pos b.
Proof.
  revert pos. induction l as [|x l IH]; intros [|pos]; simpl; auto.
  now rewrite IH.
Qed.

Lemma le_refl (x : A) : D x -> le x x.
Proof.
  intros Hx. destruct (wo_defined Hwo x x Hx Hx) as [[|] Hb].
  - now apply (wo_asym Hwo).
  - exact Hb.
Qed.

(** The root of a heap is not greater than any item of the heap. *)
Lemma heap_root_min (l : list A) (r : A) :
  heap_ok l -> Forall D l -> nth_error l 0 = Some r ->
  forall i y, nth_error l i = Some y -> le r y.
Proof.
  intros Hok Hl Hr i.
  induction i as [i IH] using (well_founded_induction Wf_nat.lt_wf).
  intros y Hy. destruct i as [|i].
  - rewrite Hr in Hy. injection Hy as <-.
    apply le_refl. now apply (nth_error_D l 0).
  - pose proof (parent_spec (S i) ltac:(lia)) as Hpar.
    destruct (nth_error l (parent (S i))) as [p|] eqn:Hp.
    + apply (wo_trans Hwo r p y).
      * now apply (nth_error_D l 0).
      * now apply (nth_error_D l (parent (S i))).
      * now apply (nth_error_D l (S i)).
      * apply (IH (parent (S i))); [lia|assumption].
      * apply (Hok (S i)); [lia|assumption|assumption].
    + apply nth_error_None in Hp.
      assert ((S i < List.length l)%nat) by (apply nth_error_Some; congruence).
      lia.
Qed.

Lemma siftup_root_ok (a : A) (m : list A) :
  Forall D (a :: m) ->
  (forall i, (0 < i)%nat -> parent i <> 0%nat -> edge_ok (a :: m) i) ->
  exists heap',
    siftup lt (a :: m) 0 = Ok heap' /\
    heap_ok heap' /\
    Permutation heap' (a :: m).
Proof.
  intros Hl Hedges. unfold siftup. cbn [heap_get nth_error of_option bind].
  destruct (siftup_loop_ok (List.length (a :: m)) (a :: m) 0)
    as (l' & pos' & H1 & H2 & H3 & H4 & (H5 & H5') & H6).
  - lia.
  - simpl. lia.
  - assumption.
  - split.
    + intros i Hi _ Hp. now apply Hedges.
    + intros c x p _ Hpos. lia.
  - rewrite H1. cbn [bind fst snd]. unfold siftdown, heap_get.
    rewrite nth_error_list_set_same by assumption. cbn [of_option bind].
    inversion Hl as [|? ? Da Dm]; subst.
    destruct (siftdown_loop_ok pos' (list_set l' pos' a) pos' a)
      as (lf & Hlf & Hok & Hp).
    + lia.
    + now rewrite length_list_set.
    + now apply list_set_D.
    + assumption.
    + split; [|split].
      * intros i Hi Hne Hpne x p Hx Hpx.
        rewrite nth_error_list_set_other in Hx, Hpx by assumption.
        now apply (H5 i Hi Hne Hpne).
      * intros c x Hc Hpc Hx. pose proof (parent_spec c Hc).
        assert ((c < List.length (list_set l' pos' a))%nat)
          by (apply nth_error_Some; congruence).
        rewrite length_list_set in *. lia.
      * intros c x p Hc _ Hpc Hx _. pose proof (parent_spec c Hc).
        assert ((c < List.length (list_set l' pos' a))%nat)
          by (apply nth_error_Some; congruence).
        rewrite length_list_set in *. lia.
    + exists lf. split; [assumption|]. split; [assumption|].
      eapply perm_trans; [exact Hp|]. rewrite list_set_twice.
      apply (H6 a).
Qed.

Lemma heappop_ok (heap : list A) :
  heap_ok heap -> Forall D heap -> heap <> [] ->
  exists x heap',
    heappop lt heap = Ok (x, heap') /\
    heap_ok heap' /\
    Permutation heap (x :: heap') /\
    (forall y, In y heap -> le x y).
Proof.
  intros Hok Hl Hne.
  destruct (exists_last Hne) as (front & a & ->).
  unfold heappop. rewrite rev_unit.
  destruct front as [|r m].
  - exists a, []. simpl. split; [reflexivity|]. split.
    + intros i Hi x p Hx. destruct i; discriminate.
    + split; [apply Permutation_refl|].
      intros y [<-|[]]. apply le_refl. now inversion Hl.
  - rewrite rev_involutive.
    assert (Hl' : Forall D (a :: m)).
    { apply Forall_app in Hl. destruct Hl as [Hrm Ha].
      inversion Hrm; inversion Ha; subst. now constructor. }
    destruct (siftup_root_ok a m Hl') as (heap' & Hs & Hok' & Hp).
    + intros i Hi Hpi x p Hx Hpx.
      pose proof (parent_spec i Hi) as Hpar.
      assert (Hi' : (i < List.length (a :: m))%nat)
        by (apply nth_error_Some; congruence).
      simpl in Hi'.
      apply (Hok i Hi).
      * destruct i as [|i]; [lia|]. simpl in *.
        rewrite nth_error_app1 by lia. exact Hx.
      * destruct (parent i) as [|q] eqn:Eq; [lia|]. simpl in *.
        rewrite nth_error_app1 by lia. exact Hpx.
    + rewrite Hs. cbn [bind]. exists r, heap'.
      split; [reflexivity|]. split; [assumption|]. split.
      * simpl. constructor. rewrite Hp. symmetry.
        apply Permutation_cons_append.
      * intros y Hy. apply In_nth_error in Hy. destruct Hy as [i Hy].
        now apply (heap_root_min ((r :: m) ++ [a]) r Hok Hl eq_refl i y).
Qed.
End HeapCorrect.

(** ** TopN keeps the greatest entries *)

(** The heap entry of a row. *)
Definition entry_of (column_max : string) (row : TRow) : result entry :=
  v <- getitem row column_max ;;
  Ok (v, row).

Section TopNCorrect.
Variable column_max : string.
Variable n : nat.
Variable D : entry -> Prop.
Hypothesis Hwo : weak_order entry_lt D.

(** The heap after the rows seen so far: it holds the greatest
    [min n (number seen)] entries, the entries dropped are not greater than
    any entry kept. *)
Definition topn_inv (seen heap : list entry) : Prop :=
  heap_ok entry_lt heap /\
  Forall D heap /\
  List.length heap = Nat.min n (List.length seen) /\
  exists dropped,
    Permutation seen (heap ++ dropped) /\
    Forall D dropped /\
    (forall d h, In d dropped -> In h heap -> le entry_lt d h).

Lemma topn_inv_nil : topn_inv [] [].
Proof.
  split; [|split; [|split]].
  - intros i Hi x p Hx. destruct i; discriminate.
  - constructor.
  - simpl. now rewrite Nat.min_0_r.
  - exists []. repeat split; auto. intros d h [].
Qed.

Lemma TopN_push_inv (seen heap : list entry) (row : TRow) (v : value) :
  topn_inv seen heap ->
  dict_get column_max row = Some v ->
  D (v, row) ->
  exists heap',
    TopN_push column_max (Z.of_nat n) heap row = Ok heap' /\
    topn_inv (seen ++ [(v, row)]) heap'.
Proof.
  intros (Hok & Hd & Hlen & dropped & Hperm & Hdd & Hle) Hv He.
  unfold TopN_push, getitem. rewrite Hv. cbn [of_option bind].
  destruct (heappush_ok entry_lt D Hwo heap (v, row) Hok Hd He)
    as (heap1 & Hpush & Hok1 & Hp1).
  rewrite Hpush. cbn [bind].
  assert (Hlen1 : List.length heap1 = S (List.length heap))
    by now rewrite (Permutation_length Hp1).
  assert (Hd1 : Forall D heap1) by (rewrite Hp1; now constructor).
  assert (Hseen : Permutation (seen ++ [(v, row)]) ((v, row) :: heap ++ dropped)).
  { rewrite <- Hperm. symmetry. apply Permutation_cons_append. }
  destruct (Z.of_nat (List.length heap1) >? Z.of_nat n) eqn:E.
  - assert (Hfull : (n < List.length heap1)%nat) by lia.
    destruct (heappop_ok entry_lt D Hwo heap1 Hok1 Hd1)
      as (x & heap2 & Hpop & Hok2 & Hp2 & Hmin).
    { intros ->. simpl in Hlen1. lia. }
    rewrite Hpop. cbn [bind snd]. exists heap2. split; [reflexivity|].
    assert (Hd2 : Forall D (x :: heap2)) by now rewrite <- Hp2.
    inversion Hd2 as [|? ? Dx Dh2]; subst.
    split; [assumption|]. split; [assumption|]. split.
    + pose proof (Permutation_length Hp2) as HL. simpl in HL.
      rewrite length_app. simpl. lia.
    + exists (x :: dropped). split; [|split].
      * rewrite Hseen. rewrite <- Permutation_middle.
        change (Permutation (((v, row) :: heap) ++ dropped)
                            ((x :: heap2) ++ dropped)).
        apply Permutation_app_tail. now rewrite <- Hp1.
      * now constructor.
      * intros d h Hin Hh.
        assert (Hh1 : In h heap1).
        { apply (Permutation_in h (Permutation_sym Hp2)). now right. }
        destruct Hin as [<-|Hin]; [now apply Hmin|].
        assert (Hx1 : In x ((v, row) :: heap)).
        { apply (Permutation_in x Hp1).
          apply (Permutation_in x (Permutation_sym Hp2)). now left. }
        rewrite Forall_forall in Hdd, Hd1.
        destruct Hx1 as [Hx|Hx].
        -- subst x. apply Hle; [assumption|].
           assert (Hp3 : Permutation heap2 heap).
           { apply (Permutation_cons_inv (a := (v, row))).
             now rewrite <- Hp2, Hp1. }
           now apply (Permutation_in h Hp3).
        -- apply (Permutation_in h Hp1) in Hh1.
           destruct Hh1 as [<-|Hh1]; [|now apply Hle].
           apply (wo_trans _ _ Hwo d x (v, row)); auto.
           apply Hmin. apply (Permutation_in _ (Permutation_sym Hp1)).
           now left.
  - exists heap1. split; [reflexivity|].
    split; [assumption|]. split; [assumption|]. split.
    + rewrite length_app. simpl. lia.
    + exists dropped. split; [|split].
      * rewrite Hseen.
        change (Permutation (((v, row) :: heap) ++ dropped)
                            (heap1 ++ dropped)).
        apply Permutation_app_tail. now symmetry.
      * assumption.
      * intros d h Hin Hh.
        assert (Hnil : dropped = []).
        { destruct dropped as [|d0 dropped]; [reflexivity|].
          pose proof (Permutation_length Hperm) as HL.
          rewrite length_app in HL. simpl in HL. lia. }
        subst dropped. destruct Hin.
Qed.
End TopNCorrect.

Lemma py_lt_not_eq (a b : value) : py_lt a b = Ok true -> py_eq a b = false.
Proof.
  destruct a as [x|f|s], b as [y|g|t]; simpl; try discriminate; intros [= H].
  - lia.
  - destruct (Zfloat_compare x g) as [[| |]|]; congruence.
  - destruct (Zfloat_compare y f) as [[| |]|]; congruence.
  - unfold SFltb in H. unfold SFeqb.
    destruct (SFcompare f g) as [[| |]|]; congruence.
  - apply string_ltb_lt in H. destruct (String.eqb s t) eqn:E; [|reflexivity].
    apply String.eqb_eq in E. subst t.
    rewrite string_compare_refl in H. discriminate.
Qed.

Lemma entry_le_column (ve vo : value) (e o : TRow) :
  entry_lt (ve, e) (vo, o) = Ok false -> py_lt ve vo <> Ok true.
Proof.
  unfold entry_lt, pair_lt. simpl. intros H Hlt.
  rewrite (py_lt_not_eq ve vo Hlt) in H. congruence.
Qed.

Lemma entries_of_rows (column_max : string) (rows : list TRow)
  (es : list entry) :
  mapM (entry_of column_max) rows = Ok es ->
  map snd es = rows /\
  Forall (fun e => dict_get column_max (snd e) = Some (fst e)) es.
Proof.
  revert es. induction rows as [|row rows IH]; simpl; intros es H.
  - injection H as <-. split; constructor.
  - unfold entry_of at 1, getitem in H.
    destruct (dict_get column_max row) as [v|] eqn:Hv; simpl in H;
      [|discriminate].
    destruct (mapM (entry_of column_max) rows) as [es'|] eqn:Hes; simpl in H;
      [|discriminate].
    injection H as <-. destruct (IH es' eq_refl) as [H1 H2].
    simpl. rewrite H1. split; [reflexivity|]. now constructor.
Qed.

Lemma TopN_heap_inv (column_max : string) (n : nat) (D : entry -> Prop)
  (rows : list TRow) :
  weak_order entry_lt D ->
  forall es seen heap,
    mapM (entry_of column_max) rows = Ok es ->
    Forall D es ->
    topn_inv n D seen heap ->
    exists heap',
      fold_left (fun acc row =>
                   heap <- acc ;; TopN_push column_max (Z.of_nat n) heap row)
                rows (Ok heap) = Ok heap' /\
      topn_inv n D (seen ++ es) heap'.
Proof.
  intros Hwo. induction rows as [|row rows IH]; intros es seen heap Hes HD Hinv.
  - injection Hes as <-. exists heap. rewrite app_nil_r. now split.
  - simpl in Hes. unfold entry_of at 1, getitem in Hes.
    destruct (dict_get column_max row) as [v|] eqn:Hv; simpl in Hes;
      [|discriminate].
    destruct (mapM (entry_of column_max) rows) as [es'|] eqn:Hes'; simpl in Hes;
      [|discriminate].
    injection Hes as <-. inversion HD as [|? ? He HD']; subst.
    destruct (TopN_push_inv column_max n D Hwo seen heap row v Hinv Hv He)
      as (heap1 & Hpush & Hinv1).
    simpl. rewrite Hpush.
    destruct (IH es' (seen ++ [(v, row)]) heap1 eq_refl HD' Hinv1)
      as (heap' & Hfold & Hinv').
    exists heap'. split; [assumption|]. now rewrite <- app_assoc in Hinv'.
Qed.

Lemma dict_of_items_wf (row : TRow) : dict_wf row -> dict_of_items row = row.
Proof. apply dict_of_items_fresh. Qed.


(** A check that [<] is defined and is a strict weak order on the items of a
    list. *)
Definition weak_order_on {A : Type} (lt : A -> A -> result bool)
  (l : list A) : bool :=
  forallb (fun x =>
    forallb (fun y =>
      match lt x y with
      | Raise _ => false
      | Ok true => match lt y x with Ok false => true | _ => false end
      | Ok false =>
          forallb (fun z =>
            match lt y z with
            | Ok false => match lt x z with Ok false => true | _ => false end
            | _ => true
            end) l
      end) l) l.

Lemma weak_order_on_sound {A : Type} (lt : A -> A -> result bool)
  (l : list A) :
  weak_order_on lt l = true -> weak_order lt (fun x => In x l).
Proof.
  unfold weak_order_on. intros H.
  assert (H' : forall x y, In x l -> In y l ->
             match lt x y with
             | Raise _ => False
             | Ok true => lt y x = Ok false
             | Ok false =>
                 forall z, In z l -> lt y z = Ok false -> lt x z = Ok false
             end).
  { intros x y Hx Hy. rewrite forallb_forall in H. specialize (H x Hx).
    rewrite forallb_forall in H. specialize (H y Hy).
    destruct (lt x y) as [[|]|]; [| |discriminate].
    - destruct (lt y x) as [[|]|]; congruence.
    - intros z Hz Hyz. rewrite forallb_forall in H. specialize (H z Hz).
      rewrite Hyz in H. destruct (lt x z) as [[|]|]; congruence. }
  constructor.
  - intros x y Hx Hy. specialize (H' x y Hx Hy).
    destruct (lt x y) as [b|]; [now exists b|contradiction].
  - intros x y Hx Hy Hlt. specialize (H' x y Hx Hy). now rewrite Hlt in H'.
  - intros x y z Hx Hy Hz Hxy Hyz. unfold le in *.
    specialize (H' z y Hz Hy). rewrite Hyz in H'. now apply H'.
Qed.



(** * Further operators and their properties *)

(** ** FilterPunctuation and LowerCase *)

(** The characters of [string.punctuation]. *)
Definition is_punctuation (c : ascii) : bool :=
  let n := nat_of_ascii c in
  ((33 <=? n) && (n <=? 47) || (58 <=? n) && (n <=? 64) ||
   (91 <=? n) && (n <=? 96) || (123 <=? n) && (n <=? 126))%nat.

(** [remove_punctuation]: [translate] with a table that deletes the
    punctuation characters. *)
Fixpoint remove_punctuation (text : string) : string :=
  match text with
  | EmptyString => EmptyString
  | String c text' =>
      if is_punctuation c then remove_punctuation text'
      else String c (remove_punctuation text')
  end.

(** The assignment of [FilterPunctuation.__call__]; a value that is no
    string has no method [translate]. *)
Definition FilterPunctuation_row (column : string) (row : TRow)
  : result TRow :=
  v <- getitem row column ;;
  match v with
  | VStr s => Ok (dict_set column (VStr (remove_punctuation s)) row)
  | _ => Raise AttributeError
  end.

(** [FilterPunctuation.__call__] *)
Definition FilterPunctuation_call (column : string) (row : TRow)
  : result (list TRow) :=
  row' <- FilterPunctuation_row column row ;;
  Ok [row'].

Definition is_upper (c : ascii) : bool :=
  let n := nat_of_ascii c in ((65 <=? n) && (n <=? 90))%nat.

(** A string of ASCII characters; on these [str.lower] changes the letters
    [A] to [Z] only. *)
Fixpoint is_ascii (s : string) : bool :=
  match s with
  | EmptyString => true
  | String c s' => (nat_of_ascii c <? 128)%nat && is_ascii s'
  end.

Definition lower_char (c : ascii) : ascii :=
  if is_upper c then ascii_of_nat (nat_of_ascii c + 32) else c.

(** [txt.lower()] on an ASCII string. *)
Fixpoint str_lower (txt : string) : string :=
  match txt with
  | EmptyString => EmptyString
  | String c txt' => String (lower_char c) (str_lower txt')
  end.

(** The assignment of [LowerCase.__call__]. *)
Definition LowerCase_row (column : string) (row : TRow) : result TRow :=
  v <- getitem row column ;;
  match v with
  | VStr s => Ok (dict_set column (VStr (str_lower s)) row)
  | _ => Raise AttributeError
  end.

(** [LowerCase.__call__] *)
Definition LowerCase_call (column : string) (row : TRow)
  : result (list TRow) :=
  row' <- LowerCase_row column row ;;
  Ok [row'].

(** The column holds no string with a character beyond ASCII. *)
Definition ascii_column (column : string) (row : TRow) : Prop :=
  forall s, dict_get column row = Some (VStr s) -> is_ascii s = true.

Example FilterPunctuation_LowerCase_ex :
  (r <- FilterPunctuation_row "text" [("text", VStr "Hello, world!")] ;;
   LowerCase_row "text" r) = Ok [("text", VStr "hello world")].
Proof. reflexivity. Qed.

Lemma remove_punctuation_clean (s : string) :
  forall c, In c (list_ascii_of_string (remove_punctuation s)) ->
            is_punctuation c = false.
Proof.
  induction s as [|a s IH]; simpl; [tauto|].
  destruct (is_punctuation a) eqn:E; [exact IH|].
  simpl. intros c [<-|H]; [assumption|now apply IH].
Qed.

Lemma remove_punctuation_fixed (s : string) :
  (forall c, In c (list_ascii_of_string s) -> is_punctuation c = false) ->
  remove_punctuation s = s.
Proof.
  induction s as [|a s IH]; simpl; intros H; [reflexivity|].
  rewrite (H a (or_introl eq_refl)). f_equal. apply IH.
  intros c Hc. apply H. now right.
Qed.

Lemma remove_punctuation_idem (s : string) :
  remove_punctuation (remove_punctuation s) = remove_punctuation s.
Proof. apply remove_punctuation_fixed, remove_punctuation_clean. Qed.

Lemma remove_punctuation_filter (s : string) :
  list_ascii_of_string (remove_punctuation s) =
  filter (fun c => negb (is_punctuation c)) (list_ascii_of_string s).
Proof.
  induction s as [|c s IH]; simpl; [reflexivity|].
  destruct (is_punctuation c); simpl; now rewrite IH.
Qed.

(** X1. On a row whose column holds a string, [FilterPunctuation] yields one
    row: its column holds the characters of the string that are no
    punctuation characters, all of them and in their order, and its other
    fields are those of the row; applied to that row it yields it
    unchanged. *)
Theorem FilterPunctuation_idempotent (column : string) (row : TRow)
  (s : string) :
  dict_get column row = Some (VStr s) ->
  exists row1 s1,
    FilterPunctuation_call column row = Ok [row1] /\
    dict_get column row1 = Some (VStr s1) /\
    list_ascii_of_string s1 =
      filter (fun c => negb (is_punctuation c)) (list_ascii_of_string s) /\
    (forall f, f <> column -> dict_get f row1 = dict_get f row) /\
    FilterPunctuation_call column row1 = Ok [row1].
Proof.
  intros Hs.
  exists (dict_set column (VStr (remove_punctuation s)) row),
         (remove_punctuation s).
  unfold FilterPunctuation_call, FilterPunctuation_row, getitem.
  rewrite Hs, dict_get_set_same. cbn [of_option bind].
  rewrite remove_punctuation_idem, dict_set_set.
  split; [reflexivity|]. split; [reflexivity|].
  split; [apply remove_punctuation_filter|]. split; [|reflexivity].
  intros f Hf. apply dict_get_set_other. congruence.
Qed.

Lemma FilterPunctuation_idempotent_witness :
  exists row1 s1,
    FilterPunctuation_call "text"
      [("doc_id", VInt 1); ("text", VStr "Hello, world!")] = Ok [row1] /\
    dict_get "text" row1 = Some (VStr s1) /\
    list_ascii_of_string s1 =
      filter (fun c => negb (is_punctuation c))
             (list_ascii_of_string "Hello, world!") /\
    (forall f, f <> "text" ->
               dict_get f row1 =
                 dict_get f [("doc_id", VInt 1); ("text", VStr "Hello, world!")]) /\
    FilterPunctuation_call "text" row1 = Ok [row1].
Proof.
  apply (FilterPunctuation_idempotent "text"
           [("doc_id", VInt 1); ("text", VStr "Hello, world!")]
           "Hello, world!").
  reflexivity.
Defined.

Lemma lower_char_idem (c : ascii) : lower_char (lower_char c) = lower_char c.
Proof. destruct c as [[] [] [] [] [] [] [] []]; reflexivity. Qed.

Lemma lower_char_not_upper (c : ascii) : is_upper (lower_char c) = false.
Proof. destruct c as [[] [] [] [] [] [] [] []]; reflexivity. Qed.

Lemma is_punctuation_lower_char (c : ascii) :
  is_punctuation (lower_char c) = is_punctuation c.
Proof. destruct c as [[] [] [] [] [] [] [] []]; reflexivity. Qed.

Lemma str_lower_idem (s : string) : str_lower (str_lower s) = str_lower s.
Proof.
  induction s as [|c s IH]; simpl; [reflexivity|].
  now rewrite lower_char_idem, IH.
Qed.

Lemma str_lower_length (s : string) :
  String.length (str_lower s) = String.length s.
Proof. induction s as [|c s IH]; simpl; [reflexivity|now rewrite IH]. Qed.

Lemma str_lower_no_upper (s : string) :
  forall c, In c (list_ascii_of_string (str_lower s)) -> is_upper c = false.
Proof.
  induction s as [|a s IH]; simpl; [tauto|].
  intros c [<-|H]; [apply lower_char_not_upper|now apply IH].
Qed.

Lemma str_lower_remove_punctuation (s : string) :
  str_lower (remove_punctuation s) = remove_punctuation (str_lower s).
Proof.
  induction s as [|c s IH]; simpl; [reflexivity|].
  rewrite is_punctuation_lower_char.
  destruct (is_punctuation c); simpl; now rewrite IH.
Qed.

(** X2. On a row whose column holds an ASCII string, [LowerCase] yields the
    one row with the column of the same length and without upper-case
    letters, and applied to that row it yields it unchanged. *)
Theorem LowerCase_idempotent (column : string) (row : TRow) (s : string) :
  dict_get column row = Some (VStr s) ->
  is_ascii s = true ->
  exists row1 s1,
    LowerCase_call column row = Ok [row1] /\
    dict_get column row1 = Some (VStr s1) /\
    String.length s1 = String.length s /\
    (forall c, In c (list_ascii_of_string s1) -> is_upper c = false) /\
    LowerCase_call column row1 = Ok [row1].
Proof.
  intros Hs _.
  exists (dict_set column (VStr (str_lower s)) row), (str_lower s).
  unfold LowerCase_call, LowerCase_row, getitem.
  rewrite Hs, dict_get_set_same. cbn [of_option bind].
  rewrite str_lower_idem, dict_set_set.
  repeat split.
  - apply str_lower_length.
  - apply str_lower_no_upper.
Qed.

Lemma LowerCase_idempotent_witness :
  exists row1 s1,
    LowerCase_call "text" [("text", VStr "Hello World")] = Ok [row1] /\
    dict_get "text" row1 = Some (VStr s1) /\
    String.length s1 = String.length "Hello World" /\
    (forall c, In c (list_ascii_of_string s1) -> is_upper c = false) /\
    LowerCase_call "text" row1 = Ok [row1].
Proof.
  apply (LowerCase_idempotent "text" [("text", VStr "Hello World")]
           "Hello World"); reflexivity.
Defined.

(** X3. [FilterPunctuation] and [LowerCase] on one column commute: on every
    row whose column holds no string beyond ASCII the two orders yield the
    same row, or raise the same exception. *)
Theorem FilterPunctuation_LowerCase_commute (column : string) (row : TRow) :
  ascii_column column row ->
  (r <- FilterPunctuation_row column row ;; LowerCase_row column r) =
  (r <- LowerCase_row column row ;; FilterPunctuation_row column r).
Proof.
  intros _. unfold FilterPunctuation_row, LowerCase_row, getitem.
  destruct (dict_get column row) as [[z|f|s]|]; cbn [of_option bind];
    try reflexivity.
  rewrite !dict_get_set_same. cbn [of_option bind].
  now rewrite !dict_set_set, str_lower_remove_punctuation.
Qed.

Lemma FilterPunctuation_LowerCase_commute_witness :
  (r <- FilterPunctuation_row "text" [("text", VStr "Hello, world!")] ;;
   LowerCase_row "text" r) =
  (r <- LowerCase_row "text" [("text", VStr "Hello, world!")] ;;
   FilterPunctuation_row "text" r).
Proof.
  apply (FilterPunctuation_LowerCase_commute "text"
           [("text", VStr "Hello, world!")]).
  intros s [= <-]. reflexivity.
Defined.

(** ** Split: the rows it emits *)

(** A token: a non-empty string without whitespace. *)
Definition is_token (tok : string) : Prop :=
  tok <> EmptyString /\
  forall c, In c (list_ascii_of_string tok) -> is_space c = false.

Definition no_space (s : string) : Prop :=
  forall c, In c (list_ascii_of_string s) -> is_space c = false.

Lemma list_ascii_of_string_app (s t : string) :
  list_ascii_of_string (String.append s t) =
  list_ascii_of_string s ++ list_ascii_of_string t.
Proof. induction s as [|c s IH]; simpl; [reflexivity|now rewrite IH]. Qed.

Lemma string_app_assoc (s t u : string) :
  String.append (String.append s t) u = String.append s (String.append t u).
Proof. induction s as [|c s IH]; simpl; [reflexivity|now rewrite IH]. Qed.

Lemma string_app_nil_r (s : string) : String.append s EmptyString = s.
Proof. induction s as [|c s IH]; simpl; [reflexivity|now rewrite IH]. Qed.

Lemma flush_tokens (cur : string) (rest : list string) :
  no_space cur -> Forall is_token rest -> Forall is_token (flush cur rest).
Proof.
  intros Hc Hr. destruct cur as [|c cur]; simpl; [assumption|].
  constructor; [|assumption]. split; [discriminate|exact Hc].
Qed.

Lemma split_ws_from_tokens (s cur : string) :
  no_space cur -> Forall is_token (split_ws_from cur s).
Proof.
  revert cur. induction s as [|c s IH]; intros cur Hc; simpl.
  - apply flush_tokens; [assumption|constructor].
  - destruct (is_space c) eqn:E.
    + apply flush_tokens; [assumption|]. apply IH. intros x [].
    + apply IH. intros x Hx. rewrite list_ascii_of_string_app in Hx.
      apply in_app_or in Hx. destruct Hx as [Hx|[<-|[]]]; auto.
Qed.

(** Reading a stretch without whitespace extends the current token. *)
Lemma split_ws_from_no_space (t cur rest : string) :
  no_space t ->
  split_ws_from cur (String.append t rest) =
  split_ws_from (String.append cur t) rest.
Proof.
  revert cur. induction t as [|c t IH]; intros cur Ht; simpl.
  - now rewrite string_app_nil_r.
  - rewrite (Ht c (or_introl eq_refl)).
    rewrite IH; [|intros x Hx; apply Ht; now right].
    now rewrite string_app_assoc.
Qed.

Lemma split_ws_join (toks : list string) :
  Forall is_token toks ->
  str_split_ws (String.concat " " toks) = toks.
Proof.
  unfold str_split_ws.
  induction 1 as [|tok toks [Hne Hns] Htoks IH]; [reflexivity|].
  destruct toks as [|tok2 toks].
  - change (String.concat " " [tok]) with tok.
    rewrite <- (string_app_nil_r tok) at 1.
    rewrite split_ws_from_no_space by assumption. simpl.
    destruct tok; [contradiction|reflexivity].
  - change (String.concat " " (tok :: tok2 :: toks))
      with (String.append tok
              (String " " (String.concat " " (tok2 :: toks)))).
    rewrite split_ws_from_no_space by assumption.
    change (split_ws_from (String.append EmptyString tok)
              (String " " (String.concat " " (tok2 :: toks))))
      with (flush tok
              (split_ws_from EmptyString (String.concat " " (tok2 :: toks)))).
    rewrite IH. destruct tok; [contradiction|reflexivity].
Qed.

(** X4. Every row [Split] emits holds in the column a non-empty token
    without whitespace; a row whose string is empty or all whitespace is
    dropped. *)
Theorem Split_emits_tokens (column : string) (separator : option string)
  (row : TRow) (s : string) :
  dict_get column row = Some (VStr s) ->
  is_ascii s = true ->
  exists rows,
    Split_call column separator row = Ok rows /\
    Forall (fun r => exists tok, dict_get column r = Some (VStr tok) /\
                                 is_token tok) rows /\
    ((forall c, In c (list_ascii_of_string s) -> is_space c = true) ->
     rows = []).
Proof.
  intros Hs _. unfold Split_call, getitem. rewrite Hs. cbn [of_option bind].
  eexists. split; [reflexivity|]. split.
  - apply Forall_forall. intros r Hr. apply in_map_iff in Hr.
    destruct Hr as (tok & <- & Htok). exists tok.
    rewrite dict_get_set_same. split; [reflexivity|].
    pose proof (split_ws_from_tokens s EmptyString) as H.
    rewrite Forall_forall in H. apply H; [intros x []|exact Htok].
  - intros Hall. unfold str_split_ws.
    assert (H : split_ws_from EmptyString s = []).
    { clear Hs. induction s as [|c s IH]; simpl; [reflexivity|].
      rewrite (Hall c (or_introl eq_refl)). simpl. apply IH.
      intros x Hx. apply Hall. now right. }
    now rewrite H.
Qed.

Lemma Split_emits_tokens_witness :
  exists rows,
    Split_call "text" None [("text", VStr " a  bc ")] = Ok rows /\
    Forall (fun r => exists tok, dict_get "text" r = Some (VStr tok) /\
                                 is_token tok) rows /\
    ((forall c, In c (list_ascii_of_string " a  bc ") -> is_space c = true) ->
     rows = []).
Proof.
  apply (Split_emits_tokens "text" None [("text", VStr " a  bc ")] " a  bc ");
    reflexivity.
Defined.

(** X5. On a row whose column holds ASCII tokens joined by single spaces,
    [Split] emits one row per token, in order, with the token in the
    column. *)
Theorem Split_of_joined_tokens (column : string) (separator : option string)
  (row : TRow) (toks : list string) :
  Forall is_token toks ->
  Forall (fun tok => is_ascii tok = true) toks ->
  dict_get column row = Some (VStr (String.concat " " toks)) ->
  Split_call column separator row =
    Ok (map (fun tok => dict_set column (VStr tok) row) toks).
Proof.
  intros Htoks _ Hs. unfold Split_call, getitem. rewrite Hs.
  cbn [of_option bind]. now rewrite split_ws_join.
Qed.

Lemma Split_of_joined_tokens_witness :
  Split_call "text" None [("doc_id", VInt 7); ("text", VStr "a bc d")] =
    Ok (map (fun tok =>
               dict_set "text" (VStr tok)
                        [("doc_id", VInt 7); ("text", VStr "a bc d")])
            ["a"; "bc"; "d"]).
Proof.
  apply (Split_of_joined_tokens "text" None
           [("doc_id", VInt 7); ("text", VStr "a bc d")] ["a"; "bc"; "d"]).
  - repeat constructor; try discriminate;
      simpl; intros c H; repeat (destruct H as [<-|H]; [reflexivity|]);
      destruct H.
  - repeat constructor.
  - reflexivity.
Defined.

Lemma map_fst_dict_set (k : string) (v w : value) (row : TRow) :
  dict_get k row = Some v -> map fst (dict_set k w row) = map fst row.
Proof.
  induction row as [|[k' v'] row IH]; simpl; [discriminate|].
  destruct (String.eqb k k') eqn:E; simpl; [reflexivity|].
  intros H. now rewrite IH.
Qed.

Lemma flush_chars (cur : string) (rest : list string) :
  List.concat (map list_ascii_of_string (flush cur rest)) =
  list_ascii_of_string cur ++ List.concat (map list_ascii_of_string rest).
Proof. destruct cur; reflexivity. Qed.

Lemma split_ws_from_chars (cur s : string) :
  List.concat (map list_ascii_of_string (split_ws_from cur s)) =
  list_ascii_of_string cur ++
  filter (fun c => negb (is_space c)) (list_ascii_of_string s).
Proof.
  revert cur. induction s as [|c s IH]; intros cur; cbn [split_ws_from].
  - now rewrite flush_chars.
  - cbn [list_ascii_of_string filter]. destruct (is_space c); cbn [negb].
    + rewrite flush_chars, IH. reflexivity.
    + rewrite IH, list_ascii_of_string_app, <- app_assoc. reflexivity.
Qed.

(** X6. On a row whose column holds an ASCII string, the rows [Split] emits
    have the fields of the row, in the same order, with the same values
    outside the column; and the tokens they hold in the column, put together
    in the order of the rows, are the characters of the string that are no
    whitespace: none is lost, none added. *)
Theorem Split_keeps_other_fields (column : string) (separator : option string)
  (row : TRow) (s : string) :
  dict_get column row = Some (VStr s) ->
  is_ascii s = true ->
  exists rows,
    Split_call column separator row = Ok rows /\
    Forall (fun r =>
              map fst r = map fst row /\
              forall f, f <> column -> dict_get f r = dict_get f row) rows /\
    List.concat
      (map (fun r =>
              match dict_get column r with
              | Some (VStr tok) => list_ascii_of_string tok
              | _ => []
              end) rows) =
      filter (fun c => negb (is_space c)) (list_ascii_of_string s).
Proof.
  intros Hs _. unfold Split_call, getitem. rewrite Hs. cbn [of_option bind].
  eexists. split; [reflexivity|]. split.
  - apply Forall_forall. intros r Hr. apply in_map_iff in Hr.
    destruct Hr as (tok & <- & _). split.
    + now apply (map_fst_dict_set column (VStr s)).
    + intros f Hf. apply dict_get_set_other. congruence.
  - rewrite map_map.
    erewrite map_ext by (intros tok; rewrite dict_get_set_same; reflexivity).
    apply (split_ws_from_chars EmptyString s).
Qed.

Lemma Split_keeps_other_fields_witness :
  exists rows,
    Split_call "text" None [("doc_id", VInt 7); ("text", VStr "a bc")]
      = Ok rows /\
    Forall (fun r =>
              map fst r = map fst [("doc_id", VInt 7); ("text", VStr "a bc")] /\
              forall f, f <> "text" ->
                dict_get f r =
                dict_get f [("doc_id", VInt 7); ("text", VStr "a bc")]) rows /\
    List.concat
      (map (fun r =>
              match dict_get "text" r with
              | Some (VStr tok) => list_ascii_of_string tok
              | _ => []
              end) rows) =
      filter (fun c => negb (is_space c)) (list_ascii_of_string "a bc").
Proof.
  apply (Split_keeps_other_fields "text" None
           [("doc_id", VInt 7); ("text", VStr "a bc")] "a bc");
    reflexivity.
Defined.

(** ** Project *)

Lemma filter_fst_NoDup (P : string -> bool) (row : TRow) :
  NoDup (map fst row) -> NoDup (map fst (filter (fun kv => P (fst kv)) row)).
Proof.
  induction row as [|[k v] row IH]; simpl; intros H; [constructor|].
  inversion H as [|? ? Hk Hrow]; subst.
  destruct (P k); simpl; [|now apply IH].
  constructor; [|now apply IH].
  intros Hin. apply Hk. apply in_map_iff in Hin.
  destruct Hin as ([k' v'] & Hfst & Hf). simpl in Hfst. subst k'.
  apply filter_In in Hf. apply in_map_iff. now exists (k, v').
Qed.

Lemma dict_get_filter_fst (P : string -> bool) (f : string) (row : TRow) :
  dict_get f (filter (fun kv => P (fst kv)) row) =
  if P f then dict_get f row else None.
Proof.
  induction row as [|[k v] row IH]; simpl; [now destruct (P f)|].
  destruct (String.eqb f k) eqn:E.
  - apply String.eqb_eq in E. subst k.
    destruct (P f) eqn:Ef; simpl; [now rewrite String.eqb_refl|].
    exact IH.
  - destruct (P k); simpl; [rewrite E|]; exact IH.
Qed.

Lemma Project_row_wf (columns : list string) (row : TRow) :
  dict_wf row ->
  Project_row columns row =
  filter (fun kv => is_key columns (fst kv)) row.
Proof.
  intros Hwf. unfold Project_row. apply dict_of_items_fresh.
  now apply (filter_fst_NoDup (is_key columns)).
Qed.

(** X7. [Project] keeps the fields named in [columns], with their values and
    in the order of the row, and no other field; applied to its own output
    it yields it unchanged. *)
Theorem Project_idempotent (columns : list string) (row : TRow) :
  dict_wf row ->
  exists row1,
    Project_call columns row = Ok [row1] /\
    dict_wf row1 /\
    (forall f, dict_get f row1 =
               if is_key columns f then dict_get f row else None) /\
    Project_call columns row1 = Ok [row1].
Proof.
  intros Hwf. exists (Project_row columns row).
  assert (Hwf1 : dict_wf (Project_row columns row)).
  { rewrite Project_row_wf by assumption.
    now apply (filter_fst_NoDup (is_key columns)). }
  split; [reflexivity|]. split; [assumption|]. split.
  - intros f. rewrite Project_row_wf by assumption.
    apply (dict_get_filter_fst (is_key columns)).
  - unfold Project_call. do 2 f_equal.
    rewrite (Project_row_wf columns (Project_row columns row)) by assumption.
    rewrite Project_row_wf by assumption.
    apply filter_all. intros kv Hkv. now apply filter_In in Hkv.
Qed.

Lemma Project_idempotent_witness :
  exists row1,
    Project_call ["doc_id"; "tf_idf"]
      [("doc_id", VInt 1); ("text", VStr "a"); ("tf_idf", VInt 3)]
      = Ok [row1] /\
    dict_wf row1 /\
    (forall f, dict_get f row1 =
               if is_key ["doc_id"; "tf_idf"] f
               then dict_get f [("doc_id", VInt 1); ("text", VStr "a");
                                ("tf_idf", VInt 3)]
               else None) /\
    Project_call ["doc_id"; "tf_idf"] row1 = Ok [row1].
Proof.
  apply (Project_idempotent ["doc_id"; "tf_idf"]
           [("doc_id", VInt 1); ("text", VStr "a"); ("tf_idf", VInt 3)]).
  unfold dict_wf. solve_nodup.
Defined.

(** ** Reducers under Reduce *)

(** Adjacent rows have different key values. *)
Definition key_changes (keys : list string) (rows : list TRow) : Prop :=
  Sorted (fun a b => ~ same_key keys a b) rows.

(** What [FirstReducer] yields on a group. *)
Definition first_of (g : list TRow) : list TRow :=
  match g with
  | [] => []
  | r :: _ => [r]
  end.

Lemma concat_singletons {A : Type} (l : list A) :
  List.concat (map (fun x => [x]) l) = l.
Proof.
  induction l as [|x l IH]; simpl; [reflexivity|]. now rewrite IH.
Qed.

Lemma first_of_runs (keys : list string) (rows : list TRow)
  (runs : list (list TRow)) :
  maximal_runs keys rows runs ->
  key_changes keys (List.concat (map first_of runs)) /\
  hd_error (List.concat (map first_of runs)) = hd_error rows /\
  incl (List.concat (map first_of runs)) rows.
Proof.
  unfold key_changes.
  induction 1 as [|r g rest runs Hg Hnext _ (IHs & IHh & IHi)]; simpl.
  - split; [constructor|]. split; [reflexivity|apply incl_refl].
  - split; [|split].
    + constructor; [exact IHs|].
      destruct (List.concat (map first_of runs)) as [|r' l] eqn:E;
        constructor.
      destruct rest as [|r'' rest]; simpl in IHh; [discriminate|].
      injection IHh as <-. exact Hnext.
    + reflexivity.
    + intros x [<-|Hx]; [now left|].
      right. apply in_or_app. right. now apply IHi.
Qed.

Lemma groupby_from_singletons (keys : list string) (rows : list TRow) :
  Forall (has_key keys) rows ->
  key_changes keys rows ->
  forall (r0 : TRow) (k0 : TKey),
    key_of keys r0 = Ok k0 ->
    HdRel (fun a b => ~ same_key keys a b) r0 rows ->
    exists gs,
      groupby_from (key_of keys) k0 rows = Ok ([], gs) /\
      map snd gs = map (fun r => [r]) rows.
Proof.
  unfold key_changes.
  induction 1 as [|row rows [k Hk] Hall IH]; intros Hs r0 k0 Hk0 Hhd.
  - exists []. split; reflexivity.
  - simpl. rewrite Hk. simpl.
    inversion Hs as [|? ? Hs' Hhd']; subst.
    inversion Hhd as [|? ? Hne]; subst.
    destruct (key_eq k0 k) eqn:E.
    + exfalso. apply Hne. exists k0, k. auto.
    + destruct (IH Hs' row k Hk Hhd') as (gs & Hg & Hm).
      exists ((k, [row]) :: gs). rewrite Hg. simpl.
      split; [reflexivity|]. now rewrite Hm.
Qed.

Lemma Reduce_FirstReducer_singletons (keys : list string) (out : list TRow) :
  Forall (has_key keys) out ->
  key_changes keys out ->
  Reduce_call FirstReducer_call keys out = Ok out.
Proof.
  intros Hall Hs. unfold Reduce_call.
  destruct Hall as [|r l [k Hk] Hall]; [reflexivity|].
  inversion Hs as [|? ? Hs' Hhd]; subst.
  destruct (groupby_from_singletons keys l Hall Hs' r k Hk Hhd)
    as (gs & Hg & Hm).
  simpl. rewrite Hk. simpl. rewrite Hg. simpl.
  rewrite (mapM_map (FirstReducer_call keys) snd gs), Hm.
  rewrite (mapM_ok (FirstReducer_call keys) first_of)
    by (intros [|x g] _; reflexivity).
  simpl. rewrite map_map. simpl. now rewrite concat_singletons.
Qed.

(** X8. Under [Reduce], [FirstReducer] forwards the first row of every
    group: in its output adjacent rows have different key values, the output
    starts with the first row of the input and holds rows of the input only,
    and reducing the output again leaves it as it is. *)
Theorem Reduce_FirstReducer_idempotent (keys : list string)
  (rows : list TRow) :
  Forall (has_key keys) rows ->
  exists out,
    Reduce_call FirstReducer_call keys rows = Ok out /\
    key_changes keys out /\
    hd_error out = hd_error rows /\
    incl out rows /\
    Reduce_call FirstReducer_call keys out = Ok out.
Proof.
  intros Hall.
  destruct (groupby_runs keys rows Hall) as (gs & Hg & Hruns).
  destruct (first_of_runs keys rows (map snd gs) Hruns) as (Hs & Hh & Hi).
  exists (List.concat (map first_of (map snd gs))).
  split; [|split; [exact Hs|split; [exact Hh|split; [exact Hi|]]]].
  - unfold Reduce_call. rewrite Hg. simpl.
    rewrite (mapM_map (FirstReducer_call keys) snd gs).
    rewrite (mapM_ok (FirstReducer_call keys) first_of)
      by (intros [|x g] _; reflexivity).
    reflexivity.
  - apply Reduce_FirstReducer_singletons; [|exact Hs].
    apply Forall_forall. intros x Hx.
    apply (proj1 (Forall_forall _ _) Hall). now apply Hi.
Qed.

Lemma Reduce_FirstReducer_idempotent_witness :
  exists out,
    Reduce_call FirstReducer_call ["a"]
      [[("a", VInt 1); ("b", VInt 5)]; [("a", VInt 1); ("b", VInt 6)];
       [("a", VInt 2); ("b", VInt 7)]] = Ok out /\
    key_changes ["a"] out /\
    hd_error out =
      hd_error [[("a", VInt 1); ("b", VInt 5)]; [("a", VInt 1); ("b", VInt 6)];
                [("a", VInt 2); ("b", VInt 7)]] /\
    incl out [[("a", VInt 1); ("b", VInt 5)]; [("a", VInt 1); ("b", VInt 6)];
              [("a", VInt 2); ("b", VInt 7)]] /\
    Reduce_call FirstReducer_call ["a"] out = Ok out.
Proof.
  apply (Reduce_FirstReducer_idempotent ["a"]
           [[("a", VInt 1); ("b", VInt 5)]; [("a", VInt 1); ("b", VInt 6)];
            [("a", VInt 2); ("b", VInt 7)]]).
  repeat constructor; eexists; reflexivity.
Defined.

Lemma dict_set_not_nil (k : string) (v : value) (d : TRow) :
  dict_set k v d <> [].
Proof.
  destruct d as [|[k' v'] d]; simpl; [discriminate|].
  destruct (String.eqb k k'); discriminate.
Qed.

(** The inner loop of [Count]: [for key in group_key: ans[key] = row[key]]. *)
Lemma Count_key_fields (keys : list string) (row : TRow) :
  has_key keys row ->
  forall d0, exists d,
    fold_left (fun a key => d <- a ;; v <- getitem row key ;;
                            Ok (dict_set key v d))
              keys (Ok d0) = Ok d /\
    (forall f, dict_get f d =
               if is_key keys f then dict_get f row else dict_get f d0) /\
    (d = [] -> d0 = [] /\ keys = []).
Proof.
  intros [k Hk]. revert k Hk.
  induction keys as [|key keys IH]; intros k Hk d0.
  - exists d0. simpl. repeat split; auto.
  - simpl in Hk. unfold key_of in Hk. simpl in Hk.
    destruct (getitem row key) as [v|e] eqn:Ev; [|discriminate].
    simpl in Hk.
    destruct (mapM (getitem row) keys) as [k'|e] eqn:Ek; [|discriminate].
    destruct (IH k' Ek (dict_set key v d0)) as (d & Hd & Hget & Hnil).
    exists d. simpl. rewrite Ev. simpl. split; [exact Hd|]. split.
    + intros f. rewrite Hget. unfold is_key. simpl.
      destruct (String.eqb f key) eqn:E; simpl.
      * apply String.eqb_eq in E. subst f.
        unfold getitem in Ev.
        destruct (dict_get key row) as [v0|]; [|discriminate].
        injection Ev as ->. rewrite dict_get_set_same.
        now destruct (existsb (String.eqb key) keys).
      * rewrite dict_get_set_other; [reflexivity|].
        intros ->. now rewrite String.eqb_refl in E.
    + intros Hn. destruct (Hnil Hn) as [H0 _].
      now apply dict_set_not_nil in H0.
Qed.

Lemma in_map_fst_dict_set (x k : string) (v : value) (d : TRow) :
  In x (map fst (dict_set k v d)) -> x = k \/ In x (map fst d).
Proof.
  induction d as [|[k' v'] d IH]; simpl.
  - intros [H|[]]. now left.
  - destruct (String.eqb k k'); simpl; [tauto|].
    intros [H|H]; [tauto|]. destruct (IH H); tauto.
Qed.

Lemma dict_set_wf (k : string) (v : value) (d : TRow) :
  dict_wf d -> dict_wf (dict_set k v d).
Proof.
  unfold dict_wf. induction d as [|[k' v'] d IH]; simpl; intros H.
  - repeat constructor. tauto.
  - inversion H as [|? ? Hn Hd]; subst.
    destruct (String.eqb k k') eqn:E; simpl; [now constructor|].
    constructor; [|now apply IH].
    intros Hin. apply in_map_fst_dict_set in Hin. destruct Hin as [->|Hin].
    + now rewrite String.eqb_refl in E.
    + contradiction.
Qed.

Lemma Count_key_fields_wf (keys : list string) (row : TRow) :
  forall d0 d,
    fold_left (fun a key => d <- a ;; v <- getitem row key ;;
                            Ok (dict_set key v d))
              keys (Ok d0) = Ok d ->
    dict_wf d0 -> dict_wf d.
Proof.
  induction keys as [|key keys IH]; simpl; intros d0 d H Hwf.
  - now injection H as <-.
  - destruct (getitem row key) as [v|e] eqn:Ev; simpl in H.
    + apply (IH _ _ H). now apply dict_set_wf.
    + clear IH. exfalso. induction keys as [|k keys IH]; simpl in H;
        [discriminate|auto].
Qed.

(** The outer loop of [Count] leaves [ans] alone once it holds a field, and
    when there is no key field. *)
Lemma Count_ans_kept (keys : list string) (rows : list TRow) (a : TRow) :
  (a = [] -> keys = []) ->
  fold_left
    (fun acc row =>
       ans <- acc ;;
       match ans with
       | [] =>
           fold_left
             (fun a key => d <- a ;; v <- getitem row key ;;
                           Ok (dict_set key v d))
             keys (Ok [])
       | _ :: _ => Ok ans
       end)
    rows (Ok a) = Ok a.
Proof.
  intros Ha. induction rows as [|row rows IH]; simpl; [reflexivity|].
  destruct a as [|kv a]; [|exact IH].
  rewrite (Ha eq_refl) in *. simpl. exact IH.
Qed.

Lemma Count_call_run (column : string) (keys : list string) (r : TRow)
  (g : list TRow) :
  has_key keys r ->
  exists o,
    Count_call column keys (r :: g) = Ok [o] /\
    dict_wf o /\
    dict_get column o = Some (VInt (Z.of_nat (List.length (r :: g)))) /\
    forall f, f <> column ->
              dict_get f o = if is_key keys f then dict_get f r else None.
Proof.
  intros Hr. destruct (Count_key_fields keys r Hr []) as (d & Hd & Hget & Hnil).
  exists (dict_set column (VInt (Z.of_nat (List.length (r :: g)))) d).
  split; [|split; [apply dict_set_wf;
                   apply (Count_key_fields_wf keys r [] d Hd); constructor|split]].
  - unfold Count_call. cbn [fold_left bind].
    match goal with
    | |- bind (fold_left ?f g ?x) ?k = _ =>
        transitivity (bind (fold_left f g (Ok d)) k);
          [apply (f_equal (fun y => bind (fold_left f g y) k)); exact Hd|];
        transitivity (bind (Ok d) k); [|reflexivity];
        apply (f_equal (fun y => bind y k))
    end.
    apply Count_ans_kept. intros Hn. now destruct (Hnil Hn).
  - apply dict_get_set_same.
  - intros f Hf. rewrite dict_get_set_other by congruence.
    rewrite Hget. now destruct (is_key keys f).
Qed.

Lemma maximal_runs_heads (keys : list string) (rows : list TRow)
  (runs : list (list TRow)) :
  maximal_runs keys rows runs ->
  Forall (has_key keys) rows ->
  Forall (fun g => exists r g', g = r :: g' /\ has_key keys r) runs.
Proof.
  induction 1 as [|r g rest runs _ _ _ IH]; intros Hall; constructor.
  - exists r, g. split; [reflexivity|]. now inversion Hall.
  - apply IH. inversion Hall as [|? ? _ Hrest]; subst.
    apply Forall_app in Hrest. tauto.
Qed.

Lemma mapM_singletons {A B : Type} (f : A -> result (list B))
  (R : A -> B -> Prop) (l : list A) :
  Forall (fun x => exists y, f x = Ok [y] /\ R x y) l ->
  exists ys, mapM f l = Ok (map (fun y => [y]) ys) /\ Forall2 R l ys.
Proof.
  induction 1 as [|x l (y & Hy & HR) _ (ys & Hys & HF)].
  - exists []. split; [reflexivity|constructor].
  - exists (y :: ys). simpl. rewrite Hy. simpl. rewrite Hys. simpl.
    split; [reflexivity|now constructor].
Qed.

(** X9. Under [Reduce], on rows that hold the key fields with no NaN among
    the key values, [Count] yields one row for every maximal run of rows
    with equal key values: the row holds the number of rows of the run in
    the result column and, beside it, the key fields with the values of the
    first row of the run, and no other field. *)
Theorem Reduce_Count_runs (column : string) (keys : list string)
  (rows : list TRow) :
  Forall (nan_free_key keys) rows ->
  exists runs out,
    maximal_runs keys rows runs /\
    Reduce_call (Count_call column) keys rows = Ok out /\
    Forall2
      (fun g o =>
         dict_get column o = Some (VInt (Z.of_nat (List.length g))) /\
         forall f, f <> column ->
                   dict_get f o =
                     if is_key keys f then dict_get f (hd [] g) else None)
      runs out.
Proof.
  intros Hnan. pose proof (nan_free_has_key keys rows Hnan) as Hall.
  destruct (groupby_runs keys rows Hall) as (gs & Hg & Hruns).
  pose proof (maximal_runs_heads keys rows (map snd gs) Hruns Hall) as Hheads.
  destruct (mapM_singletons (Count_call column keys)
              (fun g o =>
                 dict_get column o = Some (VInt (Z.of_nat (List.length g))) /\
                 forall f, f <> column ->
                           dict_get f o =
                             if is_key keys f then dict_get f (hd [] g)
                             else None)
              (map snd gs)) as (out & Hout & HF).
  { eapply Forall_impl; [|exact Hheads].
    intros g (r & g' & -> & Hr).
    destruct (Count_call_run column keys r g' Hr) as (o & Ho & _ & Hc & Hf).
    exists o. auto. }
  exists (map snd gs), out. split; [exact Hruns|]. split; [|exact HF].
  unfold Reduce_call. rewrite Hg. simpl.
  rewrite (mapM_map (Count_call column keys) snd gs), Hout. simpl.
  now rewrite concat_singletons.
Qed.

Lemma Reduce_Count_runs_witness :
  exists runs out,
    maximal_runs ["a"]
      [[("a", VInt 1); ("b", VInt 5); ("c", VInt 2)];
       [("a", VInt 1); ("b", VInt 6); ("c", VInt 1)]] runs /\
    Reduce_call (Count_call "d") ["a"]
      [[("a", VInt 1); ("b", VInt 5); ("c", VInt 2)];
       [("a", VInt 1); ("b", VInt 6); ("c", VInt 1)]] = Ok out /\
    Forall2
      (fun g o =>
         dict_get "d" o = Some (VInt (Z.of_nat (List.length g))) /\
         forall f, f <> "d" ->
                   dict_get f o =
                     if is_key ["a"] f then dict_get f (hd [] g) else None)
      runs out.
Proof.
  apply (Reduce_Count_runs "d" ["a"]
           [[("a", VInt 1); ("b", VInt 5); ("c", VInt 2)];
            [("a", VInt 1); ("b", VInt 6); ("c", VInt 1)]]).
  repeat constructor; eexists; split; reflexivity.
Defined.

(** ** TopN with no room *)

Lemma TopN_push_nonpositive (column_max : string) (n : Z) (row : TRow) :
  n <= 0 ->
  TopN_push column_max n [] row = (v <- getitem row column_max ;; Ok []).
Proof.
  intros Hn. unfold TopN_push.
  destruct (getitem row column_max) as [v|e]; simpl; [|reflexivity].
  replace (1 >? n) with true by (symmetry; apply Z.gtb_lt; lia).
  reflexivity.
Qed.

Lemma TopN_heap_raise (column_max : string) (n : Z) (rows : list TRow)
  (e : exn) :
  fold_left (fun acc row => heap <- acc ;; TopN_push column_max n heap row)
            rows (Raise e) = Raise e.
Proof.
  induction rows as [|row rows IH]; simpl; [reflexivity|exact IH].
Qed.

(** X10. With [n <= 0] the heap of [TopN] is empty again after every row:
    the reducer yields no row and compares no two rows, so that values of
    the column that cannot be ordered raise nothing; the only exception left
    is the [KeyError] of a row without the column. *)
Theorem TopN_nonpositive (column_max : string) (n : Z)
  (group_key : list string) (rows : list TRow) :
  n <= 0 ->
  TopN_call column_max n group_key rows =
    (_ <- mapM (fun row => getitem row column_max) rows ;; Ok []).
Proof.
  intros Hn. unfold TopN_call, TopN_heap.
  induction rows as [|row rows IH]; [reflexivity|].
  cbn [fold_left mapM bind].
  rewrite TopN_push_nonpositive by assumption.
  destruct (getitem row column_max) as [v|e]; cbn [bind].
  - rewrite IH.
    now destruct (mapM (fun row0 => getitem row0 column_max) rows).
  - now rewrite TopN_heap_raise.
Qed.

Lemma TopN_nonpositive_witness :
  TopN_call "s" 0 ["d"]
    [[("d", VInt 1); ("s", VInt 5)]; [("d", VInt 1); ("s", VStr "x")]] =
  (_ <- mapM (fun row => getitem row "s")
          [[("d", VInt 1); ("s", VInt 5)]; [("d", VInt 1); ("s", VStr "x")]] ;;
   Ok []).
Proof.
  apply (TopN_nonpositive "s" 0 ["d"]
           [[("d", VInt 1); ("s", VInt 5)]; [("d", VInt 1); ("s", VStr "x")]]).
  lia.
Defined.

(** ** Join at the edges *)

(** X11. Joined with an empty stream, a stream whose rows hold the key
    fields passes through unchanged on the side the joiner class keeps, and
    yields nothing otherwise; no two key values are ordered, so the stream
    need not be sorted nor its key values comparable. *)
Theorem Join_empty_side (j : Joiner) (keys : list string)
  (rows : list TRow) :
  Forall (has_key keys) rows ->
  Join_call j keys rows [] = Ok (if emits_left j then rows else []) /\
  Join_call j keys [] rows = Ok (if emits_right j then rows else []).
Proof.
  intros Hall.
  destruct (groupby_runs keys rows Hall) as (gs & Hg & Hruns).
  apply maximal_runs_concat in Hruns.
  unfold Join_call. rewrite Hg. cbn [groupby bind]. split.
  - destruct gs as [|ga gs].
    + simpl in Hruns. subst rows. now destruct (emits_left j).
    + now rewrite merge_groups_nil_r, drain_a_spec, Hruns.
  - now rewrite merge_groups_nil_l, drain_b_spec, Hruns.
Qed.

Lemma Join_empty_side_witness :
  Join_call (default_joiner LeftJoiner) ["k"]
    [[("k", VInt 2)]; [("k", VStr "a")]; [("k", VInt 1)]] [] =
    Ok (if emits_left (default_joiner LeftJoiner)
        then [[("k", VInt 2)]; [("k", VStr "a")]; [("k", VInt 1)]] else []) /\
  Join_call (default_joiner LeftJoiner) ["k"] []
    [[("k", VInt 2)]; [("k", VStr "a")]; [("k", VInt 1)]] =
    Ok (if emits_right (default_joiner LeftJoiner)
        then [[("k", VInt 2)]; [("k", VStr "a")]; [("k", VInt 1)]] else []).
Proof.
  apply (Join_empty_side (default_joiner LeftJoiner) ["k"]
           [[("k", VInt 2)]; [("k", VStr "a")]; [("k", VInt 1)]]).
  repeat constructor; eexists; reflexivity.
Defined.

Lemma groupby_cons (keys : list string) (r : TRow) (rows : list TRow)
  (k : TKey) :
  key_of keys r = Ok k ->
  Forall (has_key keys) rows ->
  exists g gs, groupby (key_of keys) (r :: rows) = Ok ((k, r :: g) :: gs).
Proof.
  intros Hk Hall.
  destruct (groupby_from_runs keys rows Hall r k Hk) as (g & gs & Hg & _).
  exists g, gs. simpl. rewrite Hk. simpl. now rewrite Hg.
Qed.

Lemma key_of_cons (c : string) (keys : list string) (r : TRow) (v : value) :
  dict_get c r = Some v ->
  has_key (c :: keys) r ->
  exists k, key_of (c :: keys) r = Ok (v :: k).
Proof.
  intros Hv [k Hk]. unfold key_of in *. simpl in *. unfold getitem in *.
  rewrite Hv in *. simpl in *.
  destruct (mapM (fun k0 => of_option (dict_get k0 r) (KeyError k0)) keys)
    as [k'|e]; [|discriminate].
  now exists k'.
Qed.

(** X12. When the first key field is a number in the first row of one
    stream and a string in the first row of the other, [Join] raises
    [TypeError] at the first comparison of key values, whatever the joiner
    and whichever side holds the string. *)
Theorem Join_mixed_keys_TypeError (j : Joiner) (c : string)
  (keys : list string) (ra rb : TRow) (rows_a rows_b : list TRow)
  (va : value) (s : string) :
  dict_get c ra = Some va ->
  is_numeric va ->
  dict_get c rb = Some (VStr s) ->
  Forall (has_key (c :: keys)) (ra :: rows_a) ->
  Forall (has_key (c :: keys)) (rb :: rows_b) ->
  Join_call j (c :: keys) (ra :: rows_a) (rb :: rows_b) = Raise TypeError /\
  Join_call j (c :: keys) (rb :: rows_b) (ra :: rows_a) = Raise TypeError.
Proof.
  intros Ha Hnum Hb HA HB.
  inversion HA as [|? ? Hra HA']; subst.
  inversion HB as [|? ? Hrb HB']; subst.
  destruct (key_of_cons c keys ra va Ha Hra) as (ka & Hka).
  destruct (key_of_cons c keys rb (VStr s) Hb Hrb) as (kb & Hkb).
  destruct (groupby_cons (c :: keys) ra rows_a _ Hka HA') as (ga & gas & Hga).
  destruct (groupby_cons (c :: keys) rb rows_b _ Hkb HB') as (gb & gbs & Hgb).
  unfold Join_call. rewrite Hga, Hgb. cbn [bind].
  rewrite !merge_groups_cons.
  destruct va as [x|f|t]; [| |contradiction]; split; reflexivity.
Qed.

Lemma Join_mixed_keys_TypeError_witness :
  Join_call (default_joiner InnerJoiner) ["k"]
    [[("k", VInt 1)]; [("k", VInt 2)]] [[("k", VStr "a")]] = Raise TypeError /\
  Join_call (default_joiner InnerJoiner) ["k"]
    [[("k", VStr "a")]] [[("k", VInt 1)]; [("k", VInt 2)]] = Raise TypeError.
Proof.
  apply (Join_mixed_keys_TypeError (default_joiner InnerJoiner) "k" []
           [("k", VInt 1)] [("k", VStr "a")] [[("k", VInt 2)]] []
           (VInt 1) "a").
  - reflexivity.
  - exact I.
  - reflexivity.
  - repeat constructor; eexists; reflexivity.
  - repeat constructor; eexists; reflexivity.
Defined.

(** ** Map stages on row objects *)

Scheme stream_mut := Induction for stream Sort Prop
  with step_mut := Induction for step Sort Prop.

(** One pull of [Map_gen] and of [stream_app], given the step of the input. *)
Definition Map_step (mapper : ref -> stream) (x : step) : step :=
  match x with
  | Done st' => Done st'
  | Yield st' row rest =>
      next (stream_app (mapper row) (Map_gen mapper rest)) st'
  | Fail st' e => Fail st' e
  end.

Definition app_step (x : step) (s2 : stream) : step :=
  match x with
  | Done st' => next s2 st'
  | Yield st' r rest => Yield st' r (stream_app rest s2)
  | Fail st' e => Fail st' e
  end.

(** Draining one generator and then, unless it raised, another one. *)
Definition drain_then (res : store * list ref * option exn)
  (k : store -> store * list ref * option exn)
  : store * list ref * option exn :=
  let '(st1, rs1, e1) := res in
  match e1 with
  | Some e => (st1, rs1, Some e)
  | None => let '(st2, rs2, e2) := k st1 in (st2, rs1 ++ rs2, e2)
  end.

Lemma next_Map_gen (mapper : ref -> stream) (s : stream) (st : store) :
  next (Map_gen mapper s) st = Map_step mapper (next s st).
Proof. destruct s; reflexivity. Qed.

Lemma next_stream_app (s1 s2 : stream) (st : store) :
  next (stream_app s1 s2) st = app_step (next s1 st) s2.
Proof. destruct s1; reflexivity. Qed.

Lemma drain_then_nil (st : store)
  (k : store -> store * list ref * option exn) :
  drain_then (st, [], None) k = k st.
Proof. simpl. now destruct (k st) as [[st2 rs2] e2]. Qed.

Lemma drain_then_assoc (res : store * list ref * option exn)
  (k1 k2 : store -> store * list ref * option exn) :
  drain_then (drain_then res k1) k2 =
  drain_then res (fun st => drain_then (k1 st) k2).
Proof.
  destruct res as [[st1 rs1] [e|]]; simpl; [reflexivity|].
  destruct (k1 st1) as [[st2 rs2] [e|]]; simpl; [reflexivity|].
  destruct (k2 st2) as [[st3 rs3] e3]. now rewrite app_assoc.
Qed.

Lemma drain_then_ext (res : store * list ref * option exn)
  (k k' : store -> store * list ref * option exn) :
  (forall st, k st = k' st) -> drain_then res k = drain_then res k'.
Proof.
  intros H. destruct res as [[st1 rs1] [e|]]; simpl; [reflexivity|].
  now rewrite H.
Qed.

Lemma drain_app (s1 s2 : stream) (st : store) :
  drain (stream_app s1 s2) st = drain_then (drain s1 st) (drain s2).
Proof.
  revert st.
  apply (stream_mut
           (fun s1 => forall st,
              drain (stream_app s1 s2) st = drain_then (drain s1 st) (drain s2))
           (fun x =>
              drain_step (app_step x s2) = drain_then (drain_step x) (drain s2))).
  - intros n IH st. rewrite !drain_next, next_stream_app. apply IH.
  - intros st. simpl. rewrite <- drain_next.
    now destruct (drain s2 st) as [[st2 rs2] e2].
  - intros st r rest IH. simpl. rewrite IH.
    destruct (drain rest st) as [[st1 rs1] [e|]]; simpl; [reflexivity|].
    now destruct (drain s2 st1) as [[st2 rs2] e2].
  - intros st e. reflexivity.
Qed.

Lemma drain_Map_app (mapper : ref -> stream) (a b : stream) (st : store) :
  drain (Map_gen mapper (stream_app a b)) st =
  drain (stream_app (Map_gen mapper a) (Map_gen mapper b)) st.
Proof.
  revert st.
  apply (stream_mut
           (fun a => forall st,
              drain (Map_gen mapper (stream_app a b)) st =
              drain (stream_app (Map_gen mapper a) (Map_gen mapper b)) st)
           (fun x =>
              drain_step (Map_step mapper (app_step x b)) =
              drain_step (app_step (Map_step mapper x) (Map_gen mapper b)))).
  - intros n IH st.
    rewrite !drain_next, next_Map_gen, !next_stream_app, next_Map_gen.
    apply IH.
  - intros st. simpl. now rewrite next_Map_gen.
  - intros st r rest IH. simpl.
    rewrite <- next_stream_app, <- !drain_next, !drain_app.
    rewrite drain_then_assoc. apply drain_then_ext.
    intros st'. now rewrite IH, drain_app.
  - intros st e. reflexivity.
Qed.

(** X13. Two map stages in a row do what one map stage does whose mapper
    hands every row the first mapper yields to the second one: from every
    store, the same row objects come out in the same order, the store ends
    the same, and the same exception, if any, ends the stream. *)
Theorem Map_gen_fusion (m1 m2 : ref -> stream) (rows : stream) (st : store) :
  drain (Map_gen m2 (Map_gen m1 rows)) st =
  drain (Map_gen (fun row => Map_gen m2 (m1 row)) rows) st.
Proof.
  revert st.
  apply (stream_mut
           (fun rows => forall st,
              drain (Map_gen m2 (Map_gen m1 rows)) st =
              drain (Map_gen (fun row => Map_gen m2 (m1 row)) rows) st)
           (fun x =>
              drain_step (Map_step m2 (Map_step m1 x)) =
              drain_step (Map_step (fun row => Map_gen m2 (m1 row)) x))).
  - intros n IH st. rewrite !drain_next, !next_Map_gen. apply IH.
  - intros st. reflexivity.
  - intros st r rest IH. simpl.
    rewrite <- next_Map_gen, <- !drain_next, drain_Map_app, !drain_app.
    apply drain_then_ext. exact IH.
  - intros st e. reflexivity.
Qed.

Lemma drain_stream_nil (st : store) : drain stream_nil st = (st, [], None).
Proof. reflexivity. Qed.

Lemma drain_Map_cons (mapper : ref -> stream) (r : ref) (rows : list ref)
  (st : store) :
  drain (Map_gen mapper (iter_refs (r :: rows))) st =
  drain_then (drain (mapper r) st) (drain (Map_gen mapper (iter_refs rows))).
Proof.
  rewrite <- drain_app. rewrite !drain_next. reflexivity.
Qed.

(** X14. A map stage with [DummyMapper] changes nothing: the row objects of
    its input come out as they are, in order, the store is touched only by
    the input, and an exception of the input passes through. *)
Theorem Map_gen_DummyMapper (rows : stream) (st : store) :
  drain (Map_gen DummyMapper_gen rows) st = drain rows st.
Proof.
  revert st.
  apply (stream_mut
           (fun rows => forall st,
              drain (Map_gen DummyMapper_gen rows) st = drain rows st)
           (fun x => drain_step (Map_step DummyMapper_gen x) = drain_step x)).
  - intros n IH st. rewrite !drain_next, next_Map_gen. apply IH.
  - intros st. reflexivity.
  - intros st r rest IH. cbn [Map_step].
    rewrite <- drain_next, drain_app.
    change (drain (DummyMapper_gen r) st) with (st, [r], @None exn).
    cbn [drain_then drain_step]. rewrite IH. reflexivity.
  - intros st e. reflexivity.
Qed.

(** ** Filter, Project and Reveal on row objects *)

(** The condition holds of the contents of the row object. *)
Definition passes (condition : TRow -> result bool) (st : store) (r : ref)
  : bool :=
  match deref st r with
  | Some d => match condition d with Ok true => true | _ => false end
  | None => false
  end.

(** The row object exists and the condition returns on its contents. *)
Definition decided (condition : TRow -> result bool) (st : store) (r : ref)
  : Prop :=
  exists d b, deref st r = Some d /\ condition d = Ok b.

Lemma drain_Filter_gen (condition : TRow -> result bool) (st : store)
  (r : ref) :
  decided condition st r ->
  drain (Filter_gen condition r) st =
    (st, if passes condition st r then [r] else [], None).
Proof.
  intros (d & b & Hd & Hb). unfold passes. simpl. rewrite Hd, Hb.
  now destruct b.
Qed.

Lemma drain_Filter_prefix (condition : TRow -> result bool) (st : store)
  (pre post : list ref) :
  Forall (decided condition st) pre ->
  drain (Map_gen (Filter_gen condition) (iter_refs (pre ++ post))) st =
  drain_then (st, filter (passes condition st) pre, None)
             (drain (Map_gen (Filter_gen condition) (iter_refs post))).
Proof.
  induction 1 as [|r pre Hr _ IH].
  - simpl app. simpl filter. now rewrite drain_then_nil.
  - rewrite <- app_comm_cons, drain_Map_cons, drain_Filter_gen by assumption.
    erewrite drain_then_ext by (intros st'; reflexivity).
    cbn [filter].
    destruct (passes condition st r); cbn [drain_then]; rewrite IH;
      cbn [drain_then];
      now destruct (drain (Map_gen (Filter_gen condition) (iter_refs post)) st)
        as [[st2 rs2] e2].
Qed.

(** X15. A map stage with [Filter] yields, of the row objects it is given,
    those whose contents satisfy the condition: the objects themselves, in
    order, and the store is left as it was.  When the condition raises on a
    row, the rows before it that satisfy the condition have been yielded, and
    the exception ends the stream. *)
Theorem Filter_gen_same_objects (condition : TRow -> result bool)
  (st : store) (pre : list ref) :
  Forall (decided condition st) pre ->
  drain (Map_gen (Filter_gen condition) (iter_refs pre)) st =
    (st, filter (passes condition st) pre, None) /\
  forall r d e post,
    deref st r = Some d -> condition d = Raise e ->
    drain (Map_gen (Filter_gen condition) (iter_refs (pre ++ r :: post))) st =
      (st, filter (passes condition st) pre, Some e).
Proof.
  intros Hpre. split.
  - rewrite <- (app_nil_r pre) at 1.
    rewrite drain_Filter_prefix by assumption.
    simpl. now rewrite app_nil_r.
  - intros r d e post Hd He.
    rewrite drain_Filter_prefix by assumption.
    assert (Hr : drain (Filter_gen condition r) st = (st, [], Some e)).
    { simpl. now rewrite Hd, He. }
    cbn [drain_then]. rewrite drain_Map_cons, Hr. simpl.
    now rewrite app_nil_r.
Qed.

Lemma Filter_gen_same_objects_witness :
  drain (Map_gen (Filter_gen (fun row => b <- getitem row "n" ;;
                                         py_lt (VInt 1) b))
           (iter_refs [0%nat; 1%nat]))
        [[("n", VInt 1)]; [("n", VInt 2)]; [("n", VStr "x")]] =
    ([[("n", VInt 1)]; [("n", VInt 2)]; [("n", VStr "x")]],
     filter (passes (fun row => b <- getitem row "n" ;; py_lt (VInt 1) b)
               [[("n", VInt 1)]; [("n", VInt 2)]; [("n", VStr "x")]])
            [0%nat; 1%nat],
     None) /\
  forall r d e post,
    deref [[("n", VInt 1)]; [("n", VInt 2)]; [("n", VStr "x")]] r = Some d ->
    (b <- getitem d "n" ;; py_lt (VInt 1) b) = Raise e ->
    drain (Map_gen (Filter_gen (fun row => b <- getitem row "n" ;;
                                           py_lt (VInt 1) b))
             (iter_refs ([0%nat; 1%nat] ++ r :: post)))
          [[("n", VInt 1)]; [("n", VInt 2)]; [("n", VStr "x")]] =
      ([[("n", VInt 1)]; [("n", VInt 2)]; [("n", VStr "x")]],
       filter (passes (fun row => b <- getitem row "n" ;; py_lt (VInt 1) b)
                 [[("n", VInt 1)]; [("n", VInt 2)]; [("n", VStr "x")]])
              [0%nat; 1%nat],
       Some e).
Proof.
  apply (Filter_gen_same_objects
           (fun row => b <- getitem row "n" ;; py_lt (VInt 1) b)
           [[("n", VInt 1)]; [("n", VInt 2)]; [("n", VStr "x")]]
           [0%nat; 1%nat]).
  repeat constructor; do 2 eexists; split; reflexivity.
Defined.

Lemma drain_Project_gen (columns : list string) (st : store) (r : ref)
  (d : TRow) :
  deref st r = Some d ->
  drain (Project_gen columns r) st =
    (st ++ [Project_row columns d], [List.length st], None).
Proof. intros Hd. simpl. now rewrite Hd. Qed.

Lemma drain_Project_rows (columns : list string) (st : store)
  (rows : list ref) :
  Forall (fun r => (r < List.length st)%nat) rows ->
  forall t,
    drain (Map_gen (Project_gen columns) (iter_refs rows)) (st ++ t) =
      (st ++ t ++ map (fun r => Project_row columns (nth r st [])) rows,
       seq (List.length st + List.length t) (List.length rows),
       None).
Proof.
  induction 1 as [|r rows Hr _ IH]; intros t.
  - simpl. now rewrite app_nil_r.
  - rewrite drain_Map_cons.
    rewrite (drain_Project_gen columns (st ++ t) r (nth r st [])).
    + cbn [drain_then]. rewrite <- app_assoc, IH.
      rewrite !length_app. simpl.
      rewrite <- !app_assoc. simpl.
      now rewrite Nat.add_assoc, Nat.add_1_r.
    + unfold deref. rewrite nth_error_app1 by assumption.
      now apply nth_error_nth'.
Qed.

(** X16. A map stage with [Project] makes a new row object for every row
    object it is given and yields these new objects, in order; the objects
    there were, the rows given among them, keep their contents. *)
Theorem Project_gen_new_objects (columns : list string) (st : store)
  (rows : list ref) :
  Forall (fun r => (r < List.length st)%nat) rows ->
  drain (Map_gen (Project_gen columns) (iter_refs rows)) st =
    (st ++ map (fun r => Project_row columns (nth r st [])) rows,
     seq (List.length st) (List.length rows),
     None).
Proof.
  intros Hrows.
  pose proof (drain_Project_rows columns st rows Hrows []) as H.
  rewrite app_nil_r in H. simpl in H. now rewrite Nat.add_0_r in H.
Qed.

Lemma Project_gen_new_objects_witness :
  drain (Map_gen (Project_gen ["a"]) (iter_refs [1%nat; 0%nat; 1%nat]))
        [[("a", VInt 1); ("b", VInt 2)]; [("b", VInt 3); ("a", VInt 4)]] =
    ([[("a", VInt 1); ("b", VInt 2)]; [("b", VInt 3); ("a", VInt 4)]] ++
       map (fun r =>
              Project_row ["a"]
                (nth r [[("a", VInt 1); ("b", VInt 2)];
                        [("b", VInt 3); ("a", VInt 4)]] []))
           [1%nat; 0%nat; 1%nat],
     seq (List.length [[("a", VInt 1); ("b", VInt 2)];
                       [("b", VInt 3); ("a", VInt 4)]])
         (List.length [1%nat; 0%nat; 1%nat]),
     None).
Proof.
  apply (Project_gen_new_objects ["a"]
           [[("a", VInt 1); ("b", VInt 2)]; [("b", VInt 3); ("a", VInt 4)]]
           [1%nat; 0%nat; 1%nat]).
  repeat constructor.
Defined.

Lemma drain_Reveal_loop (row : ref) (times : nat) (st : store) :
  drain (Reveal_loop row times) st = (st, repeat row times, None).
Proof.
  induction times as [|times IH]; simpl; [reflexivity|].
  simpl in IH. now rewrite IH.
Qed.

(** X17. [Reveal] deletes the column from the row object it is given and
    yields that one object as many times as the column said, never when the
    number is zero or negative; when the column holds no integer, the column
    has been deleted all the same when [TypeError] is raised. *)
Theorem Reveal_gen_same_object (column_to_reveal : string) (st : store)
  (row : ref) (d : TRow) (v : value) :
  deref st row = Some d ->
  dict_get column_to_reveal d = Some v ->
  drain (Reveal_gen column_to_reveal row) st =
    match v with
    | VInt z =>
        (write st row (dict_del column_to_reveal d),
         repeat row (Z.to_nat z), None)
    | _ =>
        (write st row (dict_del column_to_reveal d), [], Some TypeError)
    end.
Proof.
  intros Hd Hv. rewrite drain_next. cbn [Reveal_gen next].
  rewrite Hd. unfold getitem. rewrite Hv. cbn [of_option].
  destruct v as [z|f|s]; try reflexivity.
  rewrite <- drain_next. apply drain_Reveal_loop.
Qed.

Lemma Reveal_gen_same_object_witness :
  drain (Reveal_gen "n" 0%nat) [[("w", VStr "a"); ("n", VInt 2)]] =
    match VInt 2 with
    | VInt z =>
        (write [[("w", VStr "a"); ("n", VInt 2)]] 0%nat
           (dict_del "n" [("w", VStr "a"); ("n", VInt 2)]),
         repeat 0%nat (Z.to_nat z), None)
    | _ =>
        (write [[("w", VStr "a"); ("n", VInt 2)]] 0%nat
           (dict_del "n" [("w", VStr "a"); ("n", VInt 2)]),
         [], Some TypeError)
    end.
Proof.
  apply (Reveal_gen_same_object "n" [[("w", VStr "a"); ("n", VInt 2)]] 0%nat
           [("w", VStr "a"); ("n", VInt 2)] (VInt 2)); reflexivity.
Defined.

(** ** The sources a run reads *)

(** The names of the sources of a plan: the leaves [ReadIterFactory]. *)
Fixpoint sources (o : operation) : list string :=
  match o with
  | ReadIterFactory name => [name]
  | AddOperation _ (Some o') => sources o'
  | AddOperation _ None => []
  | GraphsJoiner _ g1 g2 => graph_sources g1 ++ graph_sources g2
  end
with graph_sources (g : Graph) : list string :=
  match g with
  | mkGraph (Some o) => sources o
  | mkGraph None => []
  end.

Lemma call_op_sources :
  forall (o : operation) (kw kw' : kwargs),
    (forall name, In name (sources o) ->
                  kwargs_get name kw = kwargs_get name kw') ->
    call_op o kw = call_op o kw'.
Proof.
  fix IHo 1 with
    (IHg (g : Graph) {struct g} :
       forall kw kw' : kwargs,
         (forall name, In name (graph_sources g) ->
                       kwargs_get name kw = kwargs_get name kw') ->
         run g kw = run g kw').
  - intros [name|first [o'|]|joiner g1 g2] kw kw' H.
    + simpl. rewrite (H name (or_introl eq_refl)). reflexivity.
    + simpl. f_equal. apply IHo. exact H.
    + reflexivity.
    + simpl. f_equal; apply IHg; intros name Hn; apply H; simpl;
        apply in_or_app; [now left|now right].
  - intros [[o|]] kw kw' H.
    + simpl. apply IHo. exact H.
    + reflexivity.
Qed.

(** X18. A run reads the keyword arguments only at the names of the sources
    of the graph: two runs whose bindings agree at these names are the same
    stream, whatever else is bound. *)
Theorem run_reads_named_sources (g : Graph) (kw kw' : kwargs) :
  (forall name, In name (graph_sources g) ->
                kwargs_get name kw = kwargs_get name kw') ->
  run g kw = run g kw'.
Proof.
  destruct g as [[o|]]; intros H; [|reflexivity].
  simpl. apply call_op_sources. exact H.
Qed.

Lemma run_reads_named_sources_witness :
  run (mkGraph (Some (AddOperation (Map_gen (Inverse_gen "pmi"))
                        (Some (ReadIterFactory "docs")))))
      [("docs", fresh_rows [[("pmi", VInt 1)]]);
       ("other", fresh_rows [[("pmi", VInt 2)]])] =
  run (mkGraph (Some (AddOperation (Map_gen (Inverse_gen "pmi"))
                        (Some (ReadIterFactory "docs")))))
      [("docs", fresh_rows [[("pmi", VInt 1)]])].
Proof.
  apply (run_reads_named_sources
           (mkGraph (Some (AddOperation (Map_gen (Inverse_gen "pmi"))
                             (Some (ReadIterFactory "docs")))))
           [("docs", fresh_rows [[("pmi", VInt 1)]]);
            ("other", fresh_rows [[("pmi", VInt 2)]])]
           [("docs", fresh_rows [[("pmi", VInt 1)]])]).
  intros name [<-|[]]. reflexivity.
Defined.

(** ** Join on no key *)

(** X21. With an empty key sequence every row has the key value [[]]: each
    non-empty stream is one group, and [Join] hands the two whole streams to
    the joiner, once; for the joiners that is every pair of a row of one
    stream and a row of the other. *)
Theorem Join_empty_keys_product (j : Joiner) (a b : TRow)
  (rows_a rows_b : list TRow) :
  Join_call j [] (a :: rows_a) (b :: rows_b) =
    Joiner_call j [] (a :: rows_a) (b :: rows_b) /\
  Joiner_call j [] (a :: rows_a) (b :: rows_b) =
    match joiner_cls j with
    | RightJoiner =>
        product (fun row_b row_a => get_ans j row_a row_b [])
                (b :: rows_b) (a :: rows_a)
    | _ =>
        product (fun row_a row_b => get_ans j row_a row_b [])
                (a :: rows_a) (b :: rows_b)
    end.
Proof.
  split.
  - unfold Join_call. cbn [groupby bind key_of mapM].
    rewrite !groupby_from_empty_keys. cbn [bind fst snd].
    rewrite merge_groups_cons. cbn [key_eq list_eq].
    rewrite merge_groups_nil_l. cbn [drain_b].
    destruct (Joiner_call j [] (a :: rows_a) (b :: rows_b)) as [out|e];
      cbn [bind]; [|reflexivity].
    now rewrite app_nil_r.
  - unfold Joiner_call. now destruct (joiner_cls j).
Qed.

(** ** Count and Reveal *)

(** [Reveal.__call__]: the rows as their consumer finds them. *)
Definition Reveal_call (column_to_reveal : string) (row : TRow)
  : result (list TRow) :=
  times <- getitem row column_to_reveal ;;
  match times with
  | VInt z => Ok (repeat (dict_del column_to_reveal row) (Z.to_nat z))
  | _ => Raise TypeError
  end.

Lemma dict_get_absent (k : string) (d : TRow) :
  ~ In k (map fst d) -> dict_get k d = None.
Proof.
  induction d as [|[k' v'] d IH]; simpl; intros H; [reflexivity|].
  destruct (String.eqb k k') eqn:E.
  - apply String.eqb_eq in E. subst. tauto.
  - apply IH. tauto.
Qed.

Lemma dict_get_del_same (k : string) (d : TRow) :
  dict_wf d -> dict_get k (dict_del k d) = None.
Proof.
  unfold dict_wf. induction d as [|[k' v'] d IH]; simpl; intros H;
    [reflexivity|].
  inversion H as [|? ? Hn Hd]; subst.
  destruct (String.eqb k k') eqn:E.
  - apply String.eqb_eq in E. subst. now apply dict_get_absent.
  - simpl. rewrite E. now apply IH.
Qed.

Lemma dict_get_del_other (f k : string) (d : TRow) :
  f <> k -> dict_get f (dict_del k d) = dict_get f d.
Proof.
  intros Hne. induction d as [|[k' v'] d IH]; simpl; [reflexivity|].
  destruct (String.eqb k k') eqn:E.
  - apply String.eqb_eq in E. subst k'.
    destruct (String.eqb f k) eqn:E'; [|reflexivity].
    apply String.eqb_eq in E'. contradiction.
  - simpl. destruct (String.eqb f k'); [reflexivity|exact IH].
Qed.

(** X22. [Reveal] on the count column undoes the counting of [Count]: from
    the row [Count] yields for a group, [Reveal] yields as many rows as the
    group had, each holding the key fields (but the count column) with the
    values of the first row of the group, and nothing else. *)
Theorem Count_then_Reveal (column : string) (keys : list string) (r : TRow)
  (g : list TRow) :
  has_key keys r ->
  exists o o',
    Count_call column keys (r :: g) = Ok [o] /\
    Reveal_call column o = Ok (repeat o' (List.length (r :: g))) /\
    forall f, dict_get f o' =
              if String.eqb f column then None
              else if is_key keys f then dict_get f r else None.
Proof.
  intros Hr.
  destruct (Count_call_run column keys r g Hr) as (o & Ho & Hwf & Hc & Hf).
  exists o, (dict_del column o). split; [exact Ho|]. split.
  - unfold Reveal_call, getitem. rewrite Hc. cbn [of_option bind].
    now rewrite Nat2Z.id.
  - intros f. destruct (String.eqb f column) eqn:E.
    + apply String.eqb_eq in E. subst f. now apply dict_get_del_same.
    + assert (Hne : f <> column)
        by (intros ->; now rewrite String.eqb_refl in E).
      rewrite dict_get_del_other by assumption. now apply Hf.
Qed.

Lemma Count_then_Reveal_witness :
  exists o o',
    Count_call "n" ["doc"; "text"]
      ([("doc", VInt 1); ("text", VStr "a"); ("x", VInt 7)] ::
       [[("doc", VInt 1); ("text", VStr "a"); ("x", VInt 8)]]) = Ok [o] /\
    Reveal_call "n" o =
      Ok (repeat o'
            (List.length
               ([("doc", VInt 1); ("text", VStr "a"); ("x", VInt 7)] ::
                [[("doc", VInt 1); ("text", VStr "a"); ("x", VInt 8)]]))) /\
    forall f, dict_get f o' =
              if String.eqb f "n" then None
              else if is_key ["doc"; "text"] f
                   then dict_get f [("doc", VInt 1); ("text", VStr "a");
                                    ("x", VInt 7)]
                   else None.
Proof.
  apply (Count_then_Reveal "n" ["doc"; "text"]
           [("doc", VInt 1); ("text", VStr "a"); ("x", VInt 7)]
           [[("doc", VInt 1); ("text", VStr "a"); ("x", VInt 8)]]).
  eexists; reflexivity.
Defined.
